(** * Multi-source candle forecasting pipeline: normalisation, windowing,
      model lifecycle and evaluation metrics

    A shallow embedding of [src/utils/dataProcessor.js] (class
    [DataProcessor]) and [src/models/model.js] (class [SSMAttentionModel]).

    JavaScript numbers are IEEE-754 binary64 values.  The embedding is
    written once over an interface of number operations ([JsNumber]) and
    used at two instances:

    - [Float64]: the kernel's primitive binary64 floats, i.e. the arithmetic
      the program runs on; every definition evaluates on it;
    - [Exact]: the real numbers extended with [NaN] and the two infinities,
      i.e. the same program with rounding and overflow removed.

    Properties of the control flow are proved for every instance; algebraic
    laws are proved at [Exact]; concrete runs are evaluated at [Float64]. *)

From Stdlib Require Import Reals Lra Lia ZArith Floats.
From stdpp Require Import base option list gmap strings pretty.

(** ** Numbers *)

Class JsNumber := {
  num : Type;
  nan : num;
  pinf : num;                      (* Infinity *)
  ninf : num;                      (* -Infinity *)
  of_Z : Z -> num;                 (* integer literals, array lengths *)
  add : num -> num -> num;
  sub : num -> num -> num;
  mul : num -> num -> num;
  div : num -> num -> num;
  sqrt : num -> num;               (* Math.sqrt *)
  ltb : num -> num -> bool;        (* a < b *)
  eqb : num -> num -> bool;        (* a == b on numbers *)
}.

Module Num.
Section Derived.
Context {N : JsNumber}.

Definition of_nat (n : nat) : num := of_Z (Z.of_nat n).

(** [a > b] is [b < a]. *)
Definition gtb (a b : num) : bool := ltb b a.

(** [x !== x] holds of NaN only. *)
Definition isnan (x : num) : bool := negb (eqb x x).

(** The decimal literal [m / 10^k] (0.05, 0.2, 0.5): the binary64 nearest
    to it is the correctly rounded quotient of the two integers. *)
Definition dec (m : Z) (k : nat) : num := div (of_Z m) (of_Z (10 ^ Z.of_nat k)).

(** ToNumber of a possibly [undefined] operand: [undefined] becomes NaN. *)
Definition of_undef (o : option num) : num := default nan o.

(** One step of Math.min / Math.max: NaN is absorbing, otherwise the
    smaller (larger) of the running value and the next argument. *)
Definition min2 (lowest x : num) : num :=
  if isnan lowest then lowest
  else if isnan x then x
  else if ltb x lowest then x else lowest.

Definition max2 (highest x : num) : num :=
  if isnan highest then highest
  else if isnan x then x
  else if ltb highest x then x else highest.

(** [Math.min(...values)] and [Math.max(...values)]: a left-to-right scan
    that starts from +Infinity (-Infinity). *)
Definition Math_min (values : list num) : num := fold_left min2 values pinf.
Definition Math_max (values : list num) : num := fold_left max2 values ninf.

(** [x || 1]: 0 and NaN are the falsy numbers. *)
Definition or_one (x : num) : num :=
  if eqb x (of_Z 0) || isnan x then of_Z 1 else x.

(** [a <= b] and [Math.abs]. *)
Definition leb (a b : num) : bool := ltb a b || eqb a b.
Definition abs (x : num) : num := if ltb x (of_Z 0) then sub (of_Z 0) x else x.

(** [Math.sign]: 1, -1, or the argument itself (a zero or NaN). *)
Definition sign (x : num) : num :=
  if ltb (of_Z 0) x then of_Z 1 else if ltb x (of_Z 0) then of_Z (-1) else x.

(** [values.reduce((a, b) => a + b, 0)] *)
Definition sum (values : list num) : num := fold_left add values (of_Z 0).
End Derived.
End Num.

(** *** The binary64 instance *)

Definition float_of_Z (z : Z) : float :=
  match z with
  | Z0 => PrimFloat.of_uint63 (Uint63.of_Z 0)
  | Zpos _ => PrimFloat.of_uint63 (Uint63.of_Z z)
  | Zneg p => PrimFloat.opp (PrimFloat.of_uint63 (Uint63.of_Z (Zpos p)))
  end.

#[export] Instance Float64 : JsNumber := {|
  num := float;
  nan := PrimFloat.nan;
  pinf := PrimFloat.infinity;
  ninf := PrimFloat.neg_infinity;
  of_Z := float_of_Z;
  add := PrimFloat.add;
  sub := PrimFloat.sub;
  mul := PrimFloat.mul;
  div := PrimFloat.div;
  sqrt := PrimFloat.sqrt;
  ltb := PrimFloat.ltb;
  eqb := PrimFloat.eqb;
|}.

(** *** The exact instance: reals with NaN and infinities *)

Inductive xreal : Type :=
  | Fin (x : R)
  | PInf
  | NInf
  | NaN.

Module XReal.
Open Scope R_scope.

Definition neg (a : xreal) : xreal :=
  match a with
  | Fin x => Fin (- x)
  | PInf => NInf
  | NInf => PInf
  | NaN => NaN
  end.

Definition add (a b : xreal) : xreal :=
  match a, b with
  | NaN, _ | _, NaN => NaN
  | Fin x, Fin y => Fin (x + y)
  | PInf, NInf | NInf, PInf => NaN
  | PInf, _ | _, PInf => PInf
  | NInf, _ | _, NInf => NInf
  end.

Definition sub (a b : xreal) : xreal := add a (neg b).

(** An infinity scaled by a finite factor: its sign follows the factor,
    and a zero factor gives NaN. *)
Definition scale_inf (positive : bool) (x : R) : xreal :=
  match total_order_T x 0 with
  | inleft (left _) => if positive then NInf else PInf
  | inleft (right _) => NaN
  | inright _ => if positive then PInf else NInf
  end.

Definition mul (a b : xreal) : xreal :=
  match a, b with
  | NaN, _ | _, NaN => NaN
  | Fin x, Fin y => Fin (x * y)
  | Fin x, PInf | PInf, Fin x => scale_inf true x
  | Fin x, NInf | NInf, Fin x => scale_inf false x
  | PInf, PInf | NInf, NInf => PInf
  | PInf, NInf | NInf, PInf => NInf
  end.

(** Division.  The sign of a zero is not tracked: a non-zero number over
    zero is taken as over +0. *)
Definition div (a b : xreal) : xreal :=
  match a, b with
  | NaN, _ | _, NaN => NaN
  | Fin x, Fin y =>
      if Req_dec_T y 0 then
        match total_order_T x 0 with
        | inleft (left _) => NInf
        | inleft (right _) => NaN
        | inright _ => PInf
        end
      else Fin (x / y)
  | Fin _, (PInf | NInf) => Fin 0
  | PInf, Fin y => if Rlt_dec y 0 then NInf else PInf
  | NInf, Fin y => if Rlt_dec y 0 then PInf else NInf
  | (PInf | NInf), (PInf | NInf) => NaN
  end.

Definition sqrt (a : xreal) : xreal :=
  match a with
  | Fin x => if Rlt_dec x 0 then NaN else Fin (R_sqrt.sqrt x)
  | PInf => PInf
  | NInf | NaN => NaN
  end.

Definition ltb (a b : xreal) : bool :=
  match a, b with
  | NaN, _ | _, NaN => false
  | Fin x, Fin y => if Rlt_dec x y then true else false
  | NInf, (Fin _ | PInf) => true
  | Fin _, PInf => true
  | _, _ => false
  end.

Definition eqb (a b : xreal) : bool :=
  match a, b with
  | Fin x, Fin y => if Req_dec_T x y then true else false
  | PInf, PInf | NInf, NInf => true
  | _, _ => false
  end.

(** Math.sin: NaN at the infinities and at NaN. *)
Definition sin (a : xreal) : xreal :=
  match a with
  | Fin x => Fin (Rtrigo_def.sin x)
  | _ => NaN
  end.
End XReal.

#[export] Instance Exact : JsNumber := {|
  num := xreal;
  nan := NaN;
  pinf := PInf;
  ninf := NInf;
  of_Z := fun z => Fin (IZR z);
  add := XReal.add;
  sub := XReal.sub;
  mul := XReal.mul;
  div := XReal.div;
  sqrt := XReal.sqrt;
  ltb := XReal.ltb;
  eqb := XReal.eqb;
|}.

(** ** Exceptions and objects *)

(** What a call can end in: a result, a thrown exception, or no end at all
    (a loop without bound, which runs until the host gives up). *)
Inductive js_error : Type :=
  | TypeError
  | Error (msg : string).

Inductive outcome (A : Type) : Type :=
  | Returned (a : A)
  | Thrown (e : js_error)
  | Exhausts.
Arguments Returned {A} a.
Arguments Thrown {A} e.
Arguments Exhausts {A}.

#[export] Instance outcome_ret : MRet outcome := fun A a => Returned a.
#[export] Instance outcome_bind : MBind outcome := fun A B f m =>
  match m with
  | Returned a => f a
  | Thrown e => Thrown e
  | Exhausts => Exhausts
  end.
#[export] Instance outcome_fmap : FMap outcome := fun A B f m =>
  match m with
  | Returned a => Returned (f a)
  | Thrown e => Thrown e
  | Exhausts => Exhausts
  end.

(** A plain object used as a map from names to values: its own properties
    in the order [Object.keys] lists them (insertion order), one entry per
    name. *)
Module Obj.
Section Obj.
Context {V : Type}.

Fixpoint get (o : list (string * V)) (k : string) : option V :=
  match o with
  | [] => None
  | (k', v) :: rest => if decide (k' = k) then Some v else get rest k
  end.

(** [o[k] = v]: overwrite in place, or append a new property. *)
Fixpoint set (o : list (string * V)) (k : string) (v : V) : list (string * V) :=
  match o with
  | [] => [(k, v)]
  | (k', v') :: rest =>
      if decide (k' = k) then (k, v) :: rest else (k', v') :: set rest k v
  end.

Definition keys (o : list (string * V)) : list string := map fst o.
Definition values (o : list (string * V)) : list V := map snd o.
End Obj.
End Obj.

(** [s.toUpperCase()] on the ASCII letters. *)
Definition upper_ascii (c : Ascii.ascii) : Ascii.ascii :=
  let n := Ascii.nat_of_ascii c in
  if (97 <=? n)%nat && (n <=? 122)%nat then Ascii.ascii_of_nat (n - 32) else c.

Fixpoint toUpperCase (s : string) : string :=
  match s with
  | EmptyString => EmptyString
  | String c rest => String (upper_ascii c) (toUpperCase rest)
  end.

(** ** DataProcessor *)

Section DataProcessor.
Context {N : JsNumber}.
Import Num.

(** The candle fields the pipeline reads. *)
Record Candle : Type := {
  open : num;
  high : num;
  low : num;
  close : num;
  volume : num;
}.

(** An entry of [this.normalizers]. *)
Record NormParams : Type := {
  p_min : num;
  p_max : num;
  p_range : num;
}.

(** [this]: the normalizer map and the uploaded CSV series (the fetch
    cache plays no part here). *)
Record DataProcessor : Type := {
  normalizers : gmap string NormParams;
  csvData : gmap string (list Candle);
}.

Definition set_normalizers (this : DataProcessor)
    (nz : gmap string NormParams) : DataProcessor :=
  {| normalizers := nz; csvData := csvData this |}.

(** [new DataProcessor()] *)
Definition new_DataProcessor : DataProcessor :=
  {| normalizers := ∅; csvData := ∅ |}.

(** An element of the array handed to [normalize]: a number, or an object
    with numeric properties. *)
Inductive datum : Type :=
  | DNum (x : num)
  | DObj (fields : list (string * num)).

(** [d[key]] converted to a number: a number has no such property and an
    object may lack it, and [undefined] converts to NaN. *)
Definition prop (key : string) (d : datum) : num :=
  match d with
  | DNum _ => nan
  | DObj fields => of_undef (Obj.get fields key)
  end.

(** [d] used as a number: an object converts to NaN. *)
Definition datum_number (d : datum) : num :=
  match d with
  | DNum x => x
  | DObj _ => nan
  end.

(** A key is truthy unless it is [null] (or left out) or the empty
    string. *)
Definition truthy (key : option string) : bool :=
  match key with
  | None | Some EmptyString => false
  | Some _ => true
  end.

(** [key || 'default'] *)
Definition normalizeKey (key : option string) : string :=
  match key with
  | None | Some EmptyString => "default"
  | Some k => k
  end.

(** [{ min, max, range: max - min || 1 }] of a list of values. *)
Definition params_of (values : list num) : NormParams :=
  let min := Math_min values in
  let max := Math_max values in
  {| p_min := min; p_max := max; p_range := or_one (sub max min) |}.

(** [key ? data.map(d => d[key]) : data] *)
Definition normalize_values (data : list datum) (key : option string) : list num :=
  match key with
  | Some k => if truthy key then map (prop k) data else map datum_number data
  | None => map datum_number data
  end.

Definition normalize (this : DataProcessor) (data : list datum)
    (key : option string) : DataProcessor * list num :=
  let values := normalize_values data key in
  let params := params_of values in
  let normalized :=
    map (fun v => div (sub v (p_min params)) (p_range params)) values in
  (set_normalizers this (<[normalizeKey key := params]> (normalizers this)),
   normalized).

(** [denormalize] only reads [this]; the warning it logs on a miss is not
    modelled. *)
Definition denormalize (this : DataProcessor) (normalizedValues : list num)
    (key : option string) : list num :=
  match normalizers this !! normalizeKey key with
  | None => normalizedValues
  | Some params =>
      map (fun v => add (mul v (p_range params)) (p_min params)) normalizedValues
  end.

Definition extractFeatures (data : list Candle) : list (list num) :=
  map (fun item =>
         [open item; high item; low item; close item;
          div (volume item) (of_Z 1000000)]) data.

(** The template [`${symbol}_dim${dim}`]. *)
Definition dim_key (symbol : string) (dim : nat) : string :=
  symbol +:+ "_dim" +:+ pretty dim.

(** The parameters computed on the first encounter of a key, from
    [features.map(f => f[dim])]. *)
Definition column_params (features : list (list num)) (dim : nat) : NormParams :=
  params_of (map (fun f => of_undef (f !! dim)) features).

(** [features[i].map((val, dim) => ...)]: for each dimension, store the
    column's parameters if the key has none, then read the entry of the
    key (the one just stored, or the one found) and scale [val] by it. *)
Fixpoint normalize_row (symbol : string) (features : list (list num))
    (nz : gmap string NormParams) (dim : nat) (row : list num)
    : gmap string NormParams * list num :=
  match row with
  | [] => (nz, [])
  | val :: rest =>
      let key := dim_key symbol dim in
      let '(nz1, params) :=
        match nz !! key with
        | Some p => (nz, p)
        | None =>
            let p := column_params features dim in (<[key := p]> nz, p)
        end in
      let '(nz2, vs) := normalize_row symbol features nz1 (S dim) rest in
      (nz2, div (sub val (p_min params)) (p_range params) :: vs)
  end.

(** The loop [for (i = 0; i < features.length; i++)] over the rows. *)
Fixpoint normalize_rows (symbol : string) (features : list (list num))
    (nz : gmap string NormParams) (rows : list (list num))
    : gmap string NormParams * list (list num) :=
  match rows with
  | [] => (nz, [])
  | row :: rest =>
      let '(nz1, r) := normalize_row symbol features nz 0 row in
      let '(nz2, rs) := normalize_rows symbol features nz1 rest in
      (nz2, r :: rs)
  end.

(** The body of [sources.forEach(symbol => ...)]: truncate, extract,
    normalise, and record the rows under [normalizedSources[symbol]]. *)
Definition normalize_source (minLength : nat)
    (acc : gmap string NormParams * list (string * list (list num)))
    (entry : string * list Candle)
    : gmap string NormParams * list (string * list (list num)) :=
  let data := take minLength entry.2 in
  let features := extractFeatures data in
  let '(nz1, normalizedFeatures) :=
    normalize_rows entry.1 features acc.1 features in
  (nz1, Obj.set acc.2 entry.1 normalizedFeatures).

Definition normalize_sources (minLength : nat) (nz : gmap string NormParams)
    (multiSourceData : list (string * list Candle))
    : gmap string NormParams * list (string * list (list num)) :=
  fold_left (normalize_source minLength) multiSourceData (nz, []).

(** [Math.min(...Object.values(multiSourceData).map(d => d.length))]:
    [None] stands for the Infinity that an object without sources gives. *)
Definition minLength_of (multiSourceData : list (string * list Candle)) : option nat :=
  match map length (Obj.values multiSourceData) with
  | [] => None
  | n :: ns => Some (fold_left Nat.min ns n)
  end.

(** [normalizedSources[symbol][idx]], as a value that is then spread or
    sliced: either step fails with a TypeError on [undefined]. *)
Definition source_row (normalizedSources : list (string * list (list num)))
    (symbol : string) (idx : nat) : outcome (list num) :=
  match Obj.get normalizedSources symbol with
  | None => Thrown TypeError
  | Some rows =>
      match rows !! idx with
      | None => Thrown TypeError
      | Some row => Returned row
      end
  end.

(** One [timeStep]: the rows of all sources at [idx], concatenated. *)
Definition time_step (normalizedSources : list (string * list (list num)))
    (sources : list string) (idx : nat) : outcome (list num) :=
  rows ← mapM (fun symbol => source_row normalizedSources symbol idx) sources;
  mret (concat rows).

Definition input_sequence (normalizedSources : list (string * list (list num)))
    (sources : list string) (i lookback : nat) : outcome (list (list num)) :=
  mapM (fun t => time_step normalizedSources sources (i + t)) (seq 0 lookback).

Definition target_sequence (normalizedSources : list (string * list (list num)))
    (targetSymbol : string) (i lookback forecast : nat) : outcome (list (list num)) :=
  mapM (fun t => take 4 <$> source_row normalizedSources targetSymbol (i + lookback + t))
       (seq 0 forecast).

(** The body of the sample loop: [X.push(inputSequence)] and
    [Y.push(targetSequence)]. *)
Definition sample (normalizedSources : list (string * list (list num)))
    (sources : list string) (targetSymbol : string) (lookback forecast i : nat)
    : outcome (list (list num) * list (list num)) :=
  x ← input_sequence normalizedSources sources i lookback;
  y ← target_sequence normalizedSources targetSymbol i lookback forecast;
  mret (x, y).

Record TrainingData : Type := {
  X : list (list (list num));
  Y : list (list (list num));
  sources : list string;
  featureCount : nat;
  td_normalizers : gmap string NormParams;
}.

(** [prepareTrainingData]: the processor after the call and what the call
    ends in; [lookback] and [forecast] are natural numbers.  Without any
    source [minLength] and [totalSamples] are Infinity: the first pass of
    the sample loop throws on the missing target when [forecast] is
    positive, and otherwise the loop never ends. *)
Definition prepareTrainingData (this : DataProcessor)
    (multiSourceData : list (string * list Candle)) (targetSymbol : string)
    (lookback forecast : nat) : DataProcessor * outcome TrainingData :=
  let sources := Obj.keys multiSourceData in
  match minLength_of multiSourceData with
  | None =>
      (this, match forecast with O => Exhausts | S _ => Thrown TypeError end)
  | Some minLength =>
      let '(nz, normalizedSources) :=
        normalize_sources minLength (normalizers this) multiSourceData in
      let totalSamples :=
        (Z.of_nat minLength - Z.of_nat lookback - Z.of_nat forecast)%Z in
      (set_normalizers this nz,
       xy ← mapM (sample normalizedSources sources targetSymbol lookback forecast)
                 (seq 0 (Z.to_nat totalSamples));
       mret {| X := xy.*1; Y := xy.*2; sources := sources;
               featureCount := length sources * 5; td_normalizers := nz |})
  end.

(** The message of the error thrown for a target without CSV data. *)
Definition missing_target_message (targetSymbol : string) : string :=
  "找不到目标数据: " +:+ targetSymbol.

Definition prepareTrainingDataFromCSV (this : DataProcessor)
    (targetSymbol : string) (relatedSymbols : list string)
    (lookback forecast : nat) : DataProcessor * outcome TrainingData :=
  match csvData this !! toUpperCase targetSymbol with
  | None => (this, Thrown (Error (missing_target_message targetSymbol)))
  | Some targetData =>
      let multiSourceData :=
        fold_left
          (fun msd symbol =>
             match csvData this !! toUpperCase symbol with
             | Some data => Obj.set msd symbol data
             | None => msd
             end)
          relatedSymbols (Obj.set [] targetSymbol targetData) in
      prepareTrainingData this multiSourceData targetSymbol lookback forecast
  end.
End DataProcessor.

Arguments Candle {N}.
Arguments NormParams {N}.
Arguments DataProcessor {N}.
Arguments TrainingData {N}.
Arguments datum {N}.

(** ** SSMAttentionModel *)

Section Model.
Context {N : JsNumber}.
Import Num.

(** What TensorFlow.js reports at the end of an epoch. *)
Record Logs : Type := {
  logs_loss : num;
  logs_val_loss : num;
  logs_mse : num;
}.

Record HistoryEntry : Type := {
  epoch : nat;
  loss : num;
  valLoss : num;
  mse : num;
}.

(** One run of [model.fit] as the callbacks see it: the epochs that ended,
    in order, and whether the run then completed ([onTrainEnd] is called)
    or threw. *)
Record FitRun (M : Type) : Type := {
  fitted : M;
  epoch_logs : list Logs;
  fit_error : option js_error;
}.
Arguments fitted {M}.
Arguments epoch_logs {M}.
Arguments fit_error {M}.

(** The TensorFlow.js side, kept abstract: [M] is a compiled network with
    its weights. *)
Record TensorFlow (M : Type) : Type := {
  tf_build : M;
  tf_fit : M -> list (list (list num)) -> list (list (list num)) -> FitRun M;
  tf_predict : M -> list (list (list num)) -> outcome (list (list (list num)));
}.
Arguments tf_build {M}.
Arguments tf_fit {M}.
Arguments tf_predict {M}.

(** [this] without its configuration, which only [build] reads. *)
Record SSMAttentionModel (M : Type) : Type := {
  model : option M;
  trained : bool;
  trainingHistory : list HistoryEntry;
}.
Arguments model {M}.
Arguments trained {M}.
Arguments trainingHistory {M}.

Section WithBackend.
Context {M : Type} (tf : TensorFlow M).

(** [new SSMAttentionModel(config)] *)
Definition new_model : SSMAttentionModel M :=
  {| model := None; trained := false; trainingHistory := [] |}.

Definition build (this : SSMAttentionModel M) : SSMAttentionModel M :=
  {| model := Some (tf_build tf); trained := trained this;
     trainingHistory := trainingHistory this |}.

Definition dispose (this : SSMAttentionModel M) : SSMAttentionModel M :=
  {| model := None; trained := trained this;
     trainingHistory := trainingHistory this |}.

(** The entry [onEpochEnd] pushes for epoch number [epoch]. *)
Definition history_entry (epoch : nat) (logs : Logs) : HistoryEntry :=
  {| epoch := epoch; loss := logs_loss logs; valLoss := logs_val_loss logs;
     mse := logs_mse logs |}.

(** [if (!this.model) this.build()]: the network the training runs on is
    the one [this] has, or a newly built one. *)
Definition network (this : SSMAttentionModel M) : M :=
  match model this with
  | None => tf_build tf
  | Some m => m
  end.

(** [train]: builds the network first when there is none, runs [fit], and
    lets the callbacks record each epoch and, at the end of a completed
    run, set [trained]; a run that throws leaves [trained] as it was. *)
Definition train (this : SSMAttentionModel M) (data : TrainingData)
    : SSMAttentionModel M * outcome (list HistoryEntry) :=
  let run := tf_fit tf (network this) (X data) (Y data) in
  let history := trainingHistory this ++ imap history_entry (epoch_logs run) in
  match fit_error run with
  | None =>
      ({| model := Some (fitted run); trained := true;
          trainingHistory := history |}, Returned history)
  | Some e =>
      ({| model := Some (fitted run); trained := trained this;
          trainingHistory := history |}, Thrown e)
  end.

Definition predict (this : SSMAttentionModel M) (inputSequence : list (list num))
    : outcome (list (list num)) :=
  match model this with
  | None => Thrown (Error "Model not trained")
  | Some m =>
      if negb (trained this) then Thrown (Error "Model not trained")
      else
        prediction ← tf_predict tf m [inputSequence];
        mret (default [] (head prediction))
  end.

Definition batchPredict (this : SSMAttentionModel M)
    (inputSequences : list (list (list num))) : outcome (list (list (list num))) :=
  match model this with
  | Some m =>
      if negb (trained this) then Thrown (Error "Model not trained")
      else tf_predict tf m inputSequences
  | None => Thrown (Error "Model not trained")
  end.
End WithBackend.

(** [actuals[i][t]]: reading an index of [undefined] is a TypeError. *)
Definition actual_row (actuals : list (list (list num))) (i t : nat)
    : outcome (list num) :=
  match actuals !! i with
  | None => Thrown TypeError
  | Some s =>
      match s !! t with
      | None => Thrown TypeError
      | Some row => Returned row
      end
  end.

(** [row[3] > row[0]]: close above open. *)
Definition direction (row : list num) : bool :=
  gtb (of_undef (row !! 3)) (of_undef (row !! 0)).

(** The inner loop over [t], carrying [(correct, total)]. *)
Fixpoint direction_steps (actuals : list (list (list num))) (i t : nat)
    (rows : list (list num)) (acc : nat * nat) : outcome (nat * nat) :=
  match rows with
  | [] => Returned acc
  | predRow :: rest =>
      actualRow ← actual_row actuals i t;
      direction_steps actuals i (S t) rest
        (if Bool.eqb (direction predRow) (direction actualRow)
         then S acc.1 else acc.1, S acc.2)
  end.

(** The outer loop over [i]. *)
Fixpoint direction_samples (actuals : list (list (list num))) (i : nat)
    (samples : list (list (list num))) (acc : nat * nat) : outcome (nat * nat) :=
  match samples with
  | [] => Returned acc
  | rows :: rest =>
      acc1 ← direction_steps actuals i 0 rows acc;
      direction_samples actuals (S i) rest acc1
  end.

Definition calculateDirectionAccuracy (predictions actuals : list (list (list num)))
    : outcome num :=
  acc ← direction_samples actuals 0 predictions (0, 0);
  mret (if 0 <? acc.2 then div (of_nat acc.1) (of_nat acc.2) else of_Z 0).

(** The three running sums of the correlation loop. *)
Record Sums : Type := {
  numerator : num;
  denomPred : num;
  denomActual : num;
}.

Definition correlation_step (predFlat actualFlat : list num)
    (meanPred meanActual : num) (acc : Sums) (i : nat) : Sums :=
  let diffPred := sub (of_undef (predFlat !! i)) meanPred in
  let diffActual := sub (of_undef (actualFlat !! i)) meanActual in
  {| numerator := add (numerator acc) (mul diffPred diffActual);
     denomPred := add (denomPred acc) (mul diffPred diffPred);
     denomActual := add (denomActual acc) (mul diffActual diffActual) |}.

Definition calculateCorrelation (predictions actuals : list (list (list num))) : num :=
  let predFlat := concat (concat predictions) in
  let actualFlat := concat (concat actuals) in
  let n := length predFlat in
  if decide (n = 0) then of_Z 0
  else
    let meanPred := div (sum predFlat) (of_nat n) in
    let meanActual := div (sum actualFlat) (of_nat n) in
    let sums :=
      fold_left (correlation_step predFlat actualFlat meanPred meanActual)
        (seq 0 n)
        {| numerator := of_Z 0; denomPred := of_Z 0; denomActual := of_Z 0 |} in
    let denom := mul (sqrt (denomPred sums)) (sqrt (denomActual sums)) in
    if gtb denom (of_Z 0) then div (numerator sums) denom else of_Z 0.

(** The seed of the pseudo weights: the loss of the last recorded epoch,
    0.5 without history. *)
Definition seed_of {M : Type} (this : SSMAttentionModel M) : num :=
  match last (trainingHistory this) with
  | Some entry => loss entry
  | None => dec 5 1
  end.

(** [getSourceAttentionWeights]; [Math_sin] is Math.sin. *)
Definition getSourceAttentionWeights {M : Type} (Math_sin : num -> num)
    (this : SSMAttentionModel M) (sourceNames : list string) : list num :=
  if negb (trained this) then
    map (fun _ => div (of_Z 1) (of_nat (length sourceNames))) sourceNames
  else
    let seed := seed_of this in
    let weights :=
      imap (fun i _ =>
              let base := div (of_Z 1) (of_nat (length sourceNames)) in
              let variation :=
                mul (Math_sin (mul (mul seed (of_nat (i + 1))) (of_Z 10))) (dec 2 1) in
              Math_max [dec 5 2; add base variation])
           sourceNames in
    let total := sum weights in
    map (fun w => div w total) weights.
End Model.

Arguments Logs {N}.
Arguments HistoryEntry {N}.
Arguments FitRun {N} M.
Arguments TensorFlow {N} M.
Arguments SSMAttentionModel {N} M.
Arguments fitted {N M}.
Arguments epoch_logs {N M}.
Arguments fit_error {N M}.
Arguments tf_build {N M}.
Arguments tf_fit {N M}.
Arguments tf_predict {N M}.
Arguments model {N M}.
Arguments trained {N M}.
Arguments trainingHistory {N M}.

(** ** Technical indicators *)

Section Indicators.
Context {N : JsNumber}.
Import Num.

(** Unary minus: the product by -1, which only flips the sign. *)
Definition neg (x : num) : num := mul (of_Z (-1)) x.

(** [data.slice(i - period + 1, i + 1)] for [period <= i + 1]: the [period]
    values that end at index [i]. *)
Definition window (data : list num) (period i : nat) : list num :=
  take period (drop (i + 1 - period) data).

(** [movingAverage]: the value itself while [i < period - 1], then the sum
    of the window over [period]. *)
Definition movingAverage (data : list num) (period : nat) : list num :=
  imap (fun i x =>
          if i + 1 <? period then x
          else div (sum (window data period i)) (of_nat period))
       data.

(** The three arrays [calculateRSI] fills, one entry per index. *)
Record RsiState : Type := {
  gains : list num;
  losses : list num;
  rsi : list num;
}.

(** The body of the loop of [calculateRSI] at index [i]. *)
Definition rsi_step (data : list num) (period : nat) (st : RsiState) (i : nat)
    : RsiState :=
  match i with
  | O =>
      {| gains := gains st ++ [of_Z 0]; losses := losses st ++ [of_Z 0];
         rsi := rsi st ++ [of_Z 50] |}
  | S j =>
      let change := sub (of_undef (data !! i)) (of_undef (data !! j)) in
      let gains1 := gains st ++ [Math_max [of_Z 0; change]] in
      let losses1 := losses st ++ [Math_max [of_Z 0; neg change]] in
      let value :=
        if period <=? i then
          let avgGain := div (sum (window gains1 period i)) (of_nat period) in
          let avgLoss := div (sum (window losses1 period i)) (of_nat period) in
          if eqb avgLoss (of_Z 0) then of_Z 100
          else
            let rs := div avgGain avgLoss in
            sub (of_Z 100) (div (of_Z 100) (add (of_Z 1) rs))
        else of_Z 50 in
      {| gains := gains1; losses := losses1; rsi := rsi st ++ [value] |}
  end.

Definition calculateRSI (data : list num) (period : nat) : list num :=
  rsi (fold_left (rsi_step data period) (seq 0 (length data))
         {| gains := []; losses := []; rsi := [] |}).

(** The loop of [ema] from index 1 on: [prev] is [result[i - 1]]. *)
Fixpoint ema_loop (k prev : num) (data : list num) : list num :=
  match data with
  | [] => []
  | x :: rest =>
      let next := add (mul x k) (mul prev (sub (of_Z 1) k)) in
      next :: ema_loop k next rest
  end.

(** [ema]: the result starts as [[data[0]]], which is [[undefined]] on an
    empty series ([None] stands for [undefined]). *)
Definition ema (data : list num) (period : nat) : list (option num) :=
  let k := div (of_Z 2) (add (of_nat period) (of_Z 1)) in
  match data with
  | [] => [None]
  | first :: rest => Some first :: map Some (ema_loop k first rest)
  end.

Record Macd : Type := {
  macd : list num;
  signal : list (option num);
  histogram : list num;
}.

Definition calculateMACD (data : list num) (fast slow signalPeriod : nat) : Macd :=
  let emaFast := ema data fast in
  let emaSlow := ema data slow in
  let macdLine :=
    imap (fun i v => sub (of_undef v) (of_undef (mjoin (emaSlow !! i)))) emaFast in
  let signalLine := ema macdLine signalPeriod in
  {| macd := macdLine;
     signal := signalLine;
     histogram :=
       imap (fun i v => sub v (of_undef (mjoin (signalLine !! i)))) macdLine |}.

Record Bollinger : Type := {
  upper : list num;
  lower : list num;
  mid : list num;
}.

(** The pair pushed to [upper] and [lower] at index [i]; [Math_pow] is
    Math.pow. *)
Definition bollinger_bands (Math_pow : num -> num -> num) (data ma : list num)
    (period : nat) (stdDev : num) (i : nat) : num * num :=
  let m := of_undef (ma !! i) in
  if i + 1 <? period then (mul m (dec 102 2), mul m (dec 98 2))
  else
    let slice := window data period i in
    let mean := div (sum slice) (of_nat period) in
    let variance :=
      div (fold_left (fun a b => add a (Math_pow (sub b mean) (of_Z 2))) slice (of_Z 0))
          (of_nat period) in
    let std := sqrt variance in
    (add m (mul stdDev std), sub m (mul stdDev std)).

Definition calculateBollinger (Math_pow : num -> num -> num) (data : list num)
    (period : nat) (stdDev : num) : Bollinger :=
  let ma := movingAverage data period in
  let bands :=
    map (bollinger_bands Math_pow data ma period stdDev) (seq 0 (length data)) in
  {| upper := bands.*1; lower := bands.*2; mid := ma |}.
End Indicators.

(** ** Mock data: correlation with SPY *)

(** The property names every object literal inherits from
    [Object.prototype]: read through [table[name]] they give a function or
    an object, never [undefined]. *)
Definition inherited_names : list string :=
  ["constructor"; "__defineGetter__"; "__defineSetter__"; "hasOwnProperty";
   "__lookupGetter__"; "__lookupSetter__"; "isPrototypeOf";
   "propertyIsEnumerable"; "toString"; "valueOf"; "__proto__"; "toLocaleString"].

Section Correlations.
Context {N : JsNumber}.
Import Num.

(** [correlations[symbol] || 0] as the number the products see: an
    inherited function or object is truthy and converts to NaN. *)
Definition correlation_with (symbol : string) : num :=
  if decide (symbol = "VIX") then dec (-7) 1
  else if decide (symbol = "TLT") then dec (-3) 1
  else if decide (symbol = "GLD") then dec 2 1
  else if decide (symbol = "DXY") then dec (-2) 1
  else if decide (symbol = "QQQ") then dec 9 1
  else if decide (symbol ∈ inherited_names) then nan
  else of_Z 0.

(** [spyData[i].close] *)
Definition close_at (spyData : list Candle) (i : nat) : num :=
  of_undef (close <$> spyData !! i).

(** [{ ...item, open: item.open * factor, ... }] *)
Definition scale_prices (factor : num) (item : Candle) : Candle :=
  {| open := mul (open item) factor;
     high := mul (high item) factor;
     low := mul (low item) factor;
     close := mul (close item) factor;
     volume := volume item |}.

Definition addCorrelation (targetData spyData : list Candle) (symbol : string)
    : list Candle :=
  let corr := correlation_with symbol in
  imap (fun i item =>
          if i <? length spyData then
            let spyReturn :=
              match i with
              | O => of_Z 0
              | S j =>
                  div (sub (close_at spyData i) (close_at spyData j)) (close_at spyData j)
              end in
            let correlatedReturn := mul (mul corr spyReturn) (dec 5 1) in
            let factor := add (of_Z 1) correlatedReturn in
            scale_prices factor item
          else item)
       targetData.

(** ** Prices back from predictions *)

(** A denormalised candle; a field is [undefined] ([None]) when the
    prediction row is too short and no normalizer is found. *)
Record Ohlc : Type := {
  o_open : option num;
  o_high : option num;
  o_low : option num;
  o_close : option num;
}.

(** The value pushed to [row] for dimension [dim]. *)
Definition denormalize_dim (this : DataProcessor) (targetSymbol : string)
    (predRow : list num) (dim : nat) : option num :=
  match normalizers this !! dim_key targetSymbol dim with
  | Some params =>
      Some (add (mul (of_undef (predRow !! dim)) (p_range params)) (p_min params))
  | None => predRow !! dim
  end.

Definition denormalizePrediction (this : DataProcessor)
    (prediction : list (list num)) (targetSymbol : string) : list Ohlc :=
  map (fun predRow =>
         {| o_open := denormalize_dim this targetSymbol predRow 0;
            o_high := denormalize_dim this targetSymbol predRow 1;
            o_low := denormalize_dim this targetSymbol predRow 2;
            o_close := denormalize_dim this targetSymbol predRow 3 |})
      prediction.
End Correlations.

Arguments Ohlc {N}.

(** ** Mock data *)

Section MockData.
Context {N : JsNumber}.
Import Num.

(** [Math.abs] *)
Definition Math_abs (x : num) : num :=
  if ltb x (of_Z 0) then neg x
  else if eqb x (of_Z 0) then of_Z 0
  else x.

(** The [params] of [generateMockData]; a property that is left out is
    [None]. *)
Record MockParams : Type := {
  basePrice : option num;
  volatility : option num;
  drift : option num;
}.

(** [value || fallback] *)
Definition or_default (value : option num) (fallback : num) : num :=
  match value with
  | Some x => if eqb x (of_Z 0) || isnan x then fallback else x
  | None => fallback
  end.

(** What the generator takes from the host: [Math_random k] is the value
    of the [k]-th call of Math.random since the start, and [Math_floor] is
    Math.floor. *)
Context (Math_random : nat -> num) (Math_floor : num -> num).

(** The loop of [generateMockData] from pass [i] on, [days] passes from
    the price [price], after [calls] calls of Math.random.  [dates i]
    tells whether the date of pass [i] is within the range of [Date];
    outside of it [toISOString] throws a RangeError, which ends the call
    ([None]).  Of a candle the fields the pipeline reads are kept (not its
    date).  The result comes with the number of calls of Math.random made
    by then. *)
Fixpoint mock_loop (dates : nat -> bool) (volatility drift price : num)
    (calls i days : nat) : nat * option (list Candle) :=
  match days with
  | O => (calls, Some [])
  | S rest =>
      let randomShock :=
        mul (mul (sub (Math_random calls) (dec 5 1)) (of_Z 2)) volatility in
      let dailyReturn := add drift randomShock in
      let open' := price in
      let change := mul price dailyReturn in
      let high' :=
        add open' (mul (Math_abs change)
                       (add (of_Z 1) (mul (Math_random (calls + 1)) (dec 5 1)))) in
      let low' :=
        sub open' (mul (Math_abs change)
                       (add (of_Z 1) (mul (Math_random (calls + 2)) (dec 5 1)))) in
      let close' := add open' change in
      let volume' :=
        Math_floor (mul (of_Z 1000000) (add (dec 5 1) (Math_random (calls + 3)))) in
      if dates i then
        let candle :=
          {| open := Math_max [dec 1 2; open'];
             high := Math_max [dec 1 2; high'];
             low := Math_max [dec 1 2; low'];
             close := Math_max [dec 1 2; close'];
             volume := volume' |} in
        let '(calls', more) :=
          mock_loop dates volatility drift close' (calls + 4) (S i) rest in
        (calls', cons candle <$> more)
      else (calls + 4, None)
  end.

Definition generateMockData (dates : nat -> bool) (calls days : nat)
    (params : MockParams) : nat * option (list Candle) :=
  mock_loop dates
            (or_default (volatility params) (dec 2 2))
            (or_default (drift params) (dec 1 4))
            (or_default (basePrice params) (of_Z 100))
            calls 0 days.

(** [symbolConfigs[symbol] || { basePrice: 100, volatility: 0.02, drift:
    0.0001 }]: a name that the table only inherits gives an object
    without these three properties, for which [generateMockData] falls
    back on the same three values. *)
Definition config_of (symbol : string) : MockParams :=
  if decide (symbol = "SPY") then
    {| basePrice := Some (of_Z 450); volatility := Some (dec 12 3); drift := Some (dec 3 4) |}
  else if decide (symbol = "QQQ") then
    {| basePrice := Some (of_Z 380); volatility := Some (dec 15 3); drift := Some (dec 4 4) |}
  else if decide (symbol = "VIX") then
    {| basePrice := Some (of_Z 18); volatility := Some (dec 8 2); drift := Some (dec (-1) 3) |}
  else if decide (symbol = "TLT") then
    {| basePrice := Some (of_Z 95); volatility := Some (dec 1 2); drift := Some (dec 1 4) |}
  else if decide (symbol = "GLD") then
    {| basePrice := Some (of_Z 180); volatility := Some (dec 8 3); drift := Some (dec 2 4) |}
  else if decide (symbol = "DXY") then
    {| basePrice := Some (of_Z 104); volatility := Some (dec 5 3); drift := Some (dec 1 4) |}
  else
    {| basePrice := Some (of_Z 100); volatility := Some (dec 2 2); drift := Some (dec 1 4) |}.

(** The fetch cache, with the number of calls of Math.random made so
    far.  (The rows [loadCSVFile] puts into the same map have keys that
    end in [_csv], which no key of a fetch does.) *)
Record Fetcher : Type := {
  cache : gmap string (list Candle);
  random_calls : nat;
}.

(** The template [`${symbol}_${days}`]. *)
Definition cache_key (symbol : string) (days : nat) : string :=
  symbol +:+ "_" +:+ pretty days.

(** [fetchData]; [dates] is as for [mock_loop], for the dates of this
    call, and [None] is the rejection with the RangeError. *)
Definition fetchData (this : Fetcher) (dates : nat -> bool) (symbol : string)
    (days : nat) : Fetcher * option (list Candle) :=
  let cacheKey := cache_key symbol days in
  match cache this !! cacheKey with
  | Some cached => (this, Some cached)
  | None =>
      let '(calls, generated) :=
        generateMockData dates (random_calls this) days (config_of symbol) in
      match generated with
      | None => ({| cache := cache this; random_calls := calls |}, None)
      | Some generated =>
          let data :=
            if decide (symbol = "SPY") then generated
            else
              match cache this !! cache_key "SPY" days with
              | Some spyData => addCorrelation generated spyData symbol
              | None => generated
              end in
          ({| cache := <[cacheKey := data]> (cache this); random_calls := calls |},
           Some data)
      end
  end.
End MockData.

Arguments MockParams {N}.
Arguments Fetcher {N}.

(** ** CSV text

    Strings are sequences of ASCII characters, as for [toUpperCase]. *)

(** The white space and line terminators [trim] removes. *)
Definition is_space (c : Ascii.ascii) : bool :=
  let n := Ascii.nat_of_ascii c in
  ((9 <=? n)%nat && (n <=? 13)%nat) || (n =? 32)%nat.

Fixpoint trimStart (s : string) : string :=
  match s with
  | EmptyString => EmptyString
  | String c rest => if is_space c then trimStart rest else s
  end.

Fixpoint trimEnd (s : string) : string :=
  match s with
  | EmptyString => EmptyString
  | String c rest =>
      match trimEnd rest with
      | EmptyString => if is_space c then EmptyString else String c EmptyString
      | kept => String c kept
      end
  end.

(** [s.trim()] *)
Definition trim (s : string) : string := trimEnd (trimStart s).

Definition lower_ascii (c : Ascii.ascii) : Ascii.ascii :=
  let n := Ascii.nat_of_ascii c in
  if (65 <=? n)%nat && (n <=? 90)%nat then Ascii.ascii_of_nat (n + 32) else c.

(** [s.toLowerCase()] on the ASCII letters. *)
Fixpoint toLowerCase (s : string) : string :=
  match s with
  | EmptyString => EmptyString
  | String c rest => String (lower_ascii c) (toLowerCase rest)
  end.

(** [s.split(sep)] for a separator of one character; [current] is the
    piece being read. *)
Fixpoint split_from (sep : Ascii.ascii) (current s : string) : list string :=
  match s with
  | EmptyString => [current]
  | String c rest =>
      if decide (c = sep) then current :: split_from sep EmptyString rest
      else split_from sep (current +:+ String c EmptyString) rest
  end.

Definition split (sep : Ascii.ascii) (s : string) : list string :=
  split_from sep EmptyString s.

(** [pieces.join(sep)] *)
Fixpoint join (sep : string) (pieces : list string) : string :=
  match pieces with
  | [] => EmptyString
  | [piece] => piece
  | piece :: rest => piece +:+ sep +:+ join sep rest
  end.

(** The double quote, the comma, the slash and the line feed. *)
Definition double_quote : Ascii.ascii := Ascii.ascii_of_nat 34.
Definition comma : Ascii.ascii := Ascii.ascii_of_nat 44.
Definition slash : Ascii.ascii := Ascii.ascii_of_nat 47.
Definition line_feed : Ascii.ascii := Ascii.ascii_of_nat 10.

(** The loop of [parseCSVLine] over the characters that are left, with
    its three variables. *)
Fixpoint csv_scan (line current : string) (inQuotes : bool) (result : list string)
    : list string :=
  match line with
  | EmptyString => result ++ [trim current]
  | String char rest =>
      if decide (char = double_quote) then csv_scan rest current (negb inQuotes) result
      else if bool_decide (char = comma) && negb inQuotes
           then csv_scan rest EmptyString inQuotes (result ++ [trim current])
           else csv_scan rest (current +:+ String char EmptyString) inQuotes result
  end.

Definition parseCSVLine (line : string) : list string :=
  csv_scan line EmptyString false [].

(** [header.indexOf(name)]: [None] stands for -1. *)
Fixpoint indexOf (header : list string) (name : string) : option nat :=
  match header with
  | [] => None
  | h :: rest => if decide (h = name) then Some 0 else S <$> indexOf rest name
  end.

(** [findColumnIndex]: the index of the first of [names] that the header
    has. *)
Fixpoint findColumnIndex (header : list string) (names : list string) : option nat :=
  match names with
  | [] => None
  | name :: rest =>
      match indexOf header (toLowerCase name) with
      | Some idx => Some idx
      | None => findColumnIndex header rest
      end
  end.

(** [s.padStart(2, '0')] *)
Definition padStart2 (s : string) : string :=
  match s with
  | EmptyString => "00"
  | String c EmptyString => "0" +:+ s
  | _ => s
  end.

(** [s.includes(c)] for a character [c]. *)
Fixpoint includes (c : Ascii.ascii) (s : string) : bool :=
  match s with
  | EmptyString => false
  | String c' rest => bool_decide (c' = c) || includes c rest
  end.

(** The date of a row as it is stored: [M/D/Y] becomes [Y-MM-DD], any
    other text stays. *)
Definition normalize_date (dateStr : string) : string :=
  if includes slash dateStr then
    match split slash dateStr with
    | [month; day; year] => year +:+ "-" +:+ padStart2 month +:+ "-" +:+ padStart2 day
    | _ => dateStr
    end
  else dateStr.

Section CsvParser.
Context {N : JsNumber}.
Import Num.

(** A parsed row: the date, its timestamp, and the candle. *)
Record CsvRow : Type := {
  date : string;
  timestamp : num;
  row_candle : Candle;
}.

(** What the parser takes from the host: the number parsers, the clock and
    the date parser behind [new Date(...)], and [Array.prototype.sort]
    under the comparator [(a, b) => a.timestamp - b.timestamp] (its order
    is the engine's when timestamps are NaN). *)
Record CsvHost : Type := {
  parseFloat : string -> num;
  parseInt : string -> num;
  (* new Date(dateStr).getTime() *)
  Date_getTime : string -> num;
  (* the ISO date [k] days before the time at which row [i] is read;
     [None] when toISOString throws *)
  date_before : nat -> nat -> option string;
  sort_by_timestamp : list CsvRow -> list CsvRow;
}.

Context (host : CsvHost).

(** [parseFloat(values[idx])]: [undefined] is parsed as the text
    "undefined", which is NaN. *)
Definition parseFloat_at (values : list string) (idx : nat) : num :=
  match values !! idx with
  | Some text => parseFloat host text
  | None => nan
  end.

(** [x || 0] *)
Definition or_zero (x : num) : num :=
  if eqb x (of_Z 0) || isnan x then of_Z 0 else x.

(** [volumeIdx !== -1 ? parseInt(values[volumeIdx]) || 0 : 0] *)
Definition volume_at (values : list string) (volumeIdx : option nat) : num :=
  match volumeIdx with
  | Some idx =>
      or_zero match values !! idx with
              | Some text => parseInt host text
              | None => nan
              end
  | None => of_Z 0
  end.

(** The date of row [i] of [lineCount] lines: the date column when the row
    has a non-empty one, and else a date counted back from now. *)
Definition date_at (values : list string) (dateIdx : option nat) (lineCount i : nat)
    : option string :=
  match dateIdx ≫= (values !!.) with
  | Some (String c rest) => Some (normalize_date (trim (String c rest)))
  | _ => date_before host i (lineCount - 1 - i)
  end.

(** The body of the loop over the lines: [None] when the row is skipped
    (blank, with a price that is not a number, or failing inside the
    [try]). *)
Definition parse_line (dateIdx : option nat) (openIdx highIdx lowIdx closeIdx : nat)
    (volumeIdx : option nat) (lineCount i : nat) (text : string) : option CsvRow :=
  let line := trim text in
  match line with
  | EmptyString => None
  | _ =>
      let values := parseCSVLine line in
      let open' := parseFloat_at values openIdx in
      let high' := parseFloat_at values highIdx in
      let low' := parseFloat_at values lowIdx in
      let close' := parseFloat_at values closeIdx in
      let volume' := volume_at values volumeIdx in
      if isnan open' || isnan high' || isnan low' || isnan close' then None
      else
        dateStr ← date_at values dateIdx lineCount i;
        Some {| date := dateStr;
                timestamp := Date_getTime host dateStr;
                row_candle :=
                  {| open := Math_max [dec 1 2; open'];
                     high := Math_max [dec 1 2; high'];
                     low := Math_max [dec 1 2; low'];
                     close := Math_max [dec 1 2; close'];
                     volume := Math_max [of_Z 0; volume'] |} |}
  end.

Definition missing_columns_message (header : list string) : string :=
  "CSV缺少必需列。需要: Open, High, Low, Close。找到: " +:+ join ", " header.

(** [csvContent.trim().split('\n')] *)
Definition csv_lines (csvContent : string) : list string :=
  split line_feed (trim csvContent).

(** The header: the cells of the first line, trimmed and in lower case. *)
Definition csv_header (lines : list string) : list string :=
  map (fun h => toLowerCase (trim h)) (split comma (default EmptyString (head lines))).

(** The names a column goes by. *)
Definition date_names : list string := ["date"; "datetime"; "time"; "timestamp"].
Definition open_names : list string := ["open"; "open price"].
Definition high_names : list string := ["high"; "high price"].
Definition low_names : list string := ["low"; "low price"].
Definition close_names : list string :=
  ["close"; "close price"; "adj close"; "adjusted close"].
Definition volume_names : list string := ["volume"; "vol"].

Definition insufficient_csv_message : string :=
  "Insufficient CSV data, at least header and one row needed".

Definition no_rows_message : string := "没有成功解析任何数据行".

(** [parseYFinanceCSV]; its [symbol] is only logged, as is the range of
    prices after the sort (through [Math.min(...)] and [Math.max(...)] over
    all rows: the engine's limit on the number of arguments is not
    modelled). *)
Definition parseYFinanceCSV (csvContent : string) : outcome (list CsvRow) :=
  let lines := csv_lines csvContent in
  if length lines <? 2 then Thrown (Error insufficient_csv_message)
  else
    let header := csv_header lines in
    let dateIdx := findColumnIndex header date_names in
    let openIdx := findColumnIndex header open_names in
    let highIdx := findColumnIndex header high_names in
    let lowIdx := findColumnIndex header low_names in
    let closeIdx := findColumnIndex header close_names in
    let volumeIdx := findColumnIndex header volume_names in
    match openIdx, highIdx, lowIdx, closeIdx with
    | Some openIdx, Some highIdx, Some lowIdx, Some closeIdx =>
        let data :=
          omap (fun '(i, text) =>
                  parse_line dateIdx openIdx highIdx lowIdx closeIdx volumeIdx
                    (length lines) i text)
               (drop 1 (imap pair lines)) in
        match data with
        | [] => Thrown (Error no_rows_message)
        | _ => Returned (sort_by_timestamp host data)
        end
    | _, _, _, _ => Thrown (Error (missing_columns_message header))
    end.

(** [name.replace(/\.csv$/i, '')] *)
Fixpoint strip_csv (name : string) : string :=
  match name with
  | EmptyString => EmptyString
  | String c rest =>
      if decide (toLowerCase name = ".csv") then EmptyString
      else String c (strip_csv rest)
  end.

(** What [loadCSVFile] resolves to. *)
Record Loaded : Type := {
  loaded_symbol : string;
  loaded_data : list CsvRow;
  rowCount : nat;
}.

Definition read_error_message (name : string) : string :=
  "读取文件失败: " +:+ name.

(** [loadCSVFile]: [content] is what the reader delivers, [None] when it
    fails.  The rows are kept under the upper-cased file name without its
    extension; of a row the processor keeps the candle. *)
Definition loadCSVFile (this : DataProcessor) (name : string) (content : option string)
    : DataProcessor * outcome Loaded :=
  match content with
  | None => (this, Thrown (Error (read_error_message name)))
  | Some text =>
      let symbol := toUpperCase (strip_csv name) in
      match parseYFinanceCSV text with
      | Returned data =>
          ({| normalizers := normalizers this;
              csvData := <[symbol := map row_candle data]> (csvData this) |},
           Returned {| loaded_symbol := symbol; loaded_data := data;
                       rowCount := length data |})
      | Thrown e => (this, Thrown e)
      | Exhausts => (this, Exhausts)
      end
  end.

(** [getCSVData]: [None] stands for [null]. *)
Definition getCSVData (this : DataProcessor) (symbol : string) : option (list Candle) :=
  csvData this !! toUpperCase symbol.
End CsvParser.

Arguments CsvRow {N}.
Arguments CsvHost {N}.
Arguments Loaded {N}.

(** ** Candles with their indicators *)

Section Indicated.
Context {N : JsNumber}.
Import Num.

(** An item of [calculateIndicators]: the candle ([...item]) and the nine
    values read at its index; a value read beyond the end of an array is
    [undefined] ([None]). *)
Record Indicated : Type := {
  ind_item : Candle;
  ma5 : option num;
  ma10 : option num;
  ma20 : option num;
  ind_rsi : option num;
  ind_macd : option num;
  macdSignal : option num;
  bollingerUpper : option num;
  bollingerLower : option num;
  bollingerMid : option num;
}.

(** [calculateIndicators], with the default periods of [calculateMACD]
    (12, 26, 9) and the default width of [calculateBollinger] (2). *)
Definition calculateIndicators (Math_pow : num -> num -> num) (data : list Candle)
    : list Indicated :=
  let closes := map close data in
  let ma5' := movingAverage closes 5 in
  let ma10' := movingAverage closes 10 in
  let ma20' := movingAverage closes 20 in
  let rsi' := calculateRSI closes 14 in
  let macd' := calculateMACD closes 12 26 9 in
  let bollinger := calculateBollinger Math_pow closes 20 (of_Z 2) in
  imap (fun i item =>
          {| ind_item := item;
             ma5 := ma5' !! i;
             ma10 := ma10' !! i;
             ma20 := ma20' !! i;
             ind_rsi := rsi' !! i;
             ind_macd := macd macd' !! i;
             macdSignal := mjoin (signal macd' !! i);
             bollingerUpper := upper bollinger !! i;
             bollingerLower := lower bollinger !! i;
             bollingerMid := mid bollinger !! i |})
       data.
End Indicated.

Arguments Indicated {N}.

(** ** Loading several files *)

Section LoadMany.
Context {N : JsNumber} (host : CsvHost).

(** An entry of the results of [loadMultipleCSVFiles]: what [loadCSVFile]
    resolved to, or the symbol with the error whose message the entry
    holds. *)
Inductive LoadResult : Type :=
  | LoadedFile (result : Loaded)
  | FailedFile (symbol : string) (error : js_error).

(** [loadMultipleCSVFiles] over the files that are left; a file is its
    name with what the reader delivers for it. *)
Fixpoint loadMultipleCSVFiles (this : DataProcessor)
    (files : list (string * option string))
    : DataProcessor * outcome (list LoadResult) :=
  match files with
  | [] => (this, Returned [])
  | (name, content) :: rest =>
      let '(this1, loaded) := loadCSVFile host this name content in
      match loaded with
      | Exhausts => (this1, Exhausts)
      | Returned result =>
          let '(this2, results) := loadMultipleCSVFiles this1 rest in
          (this2, cons (LoadedFile result) <$> results)
      | Thrown error =>
          let '(this2, results) := loadMultipleCSVFiles this1 rest in
          (this2, cons (FailedFile (toUpperCase (strip_csv name)) error) <$> results)
      end
  end.
End LoadMany.

Arguments LoadResult {N}.

(** ** Vocabulary of the statements *)

(** *** Normalisation *)

Section NormalisationVocabulary.
Context {N : JsNumber}.

(** The entry a dimension is scaled by in [normalize_row], and the map
    after that dimension's lookup. *)
Definition params_at (symbol : string) (features : list (list num))
    (nz : gmap string NormParams) (dim : nat) : NormParams :=
  default (column_params features dim) (nz !! dim_key symbol dim).

Definition store_at (symbol : string) (features : list (list num))
    (nz : gmap string NormParams) (dim : nat) : gmap string NormParams :=
  match nz !! dim_key symbol dim with
  | Some _ => nz
  | None => <[dim_key symbol dim := column_params features dim]> nz
  end.

(** [val] scaled by an entry: [(val - params.min) / params.range]. *)
Definition scaled (params : NormParams) (val : num) : num :=
  div (sub val (p_min params)) (p_range params).

(** A row scaled, dimension by dimension, by the parameters of the columns
    of [features]. *)
Fixpoint scale_row (features : list (list num)) (dim : nat) (row : list num)
    : list num :=
  match row with
  | [] => []
  | val :: rest =>
      scaled (column_params features dim) val :: scale_row features (S dim) rest
  end.

(** The keys of a source hold nothing yet, or the parameters of its own
    columns. *)
Definition own_params (symbol : string) (features : list (list num))
    (nz : gmap string NormParams) : Prop :=
  forall dim, dim < 5 ->
    nz !! dim_key symbol dim = None \/
    nz !! dim_key symbol dim = Some (column_params features dim).

(** Every source recorded in [normalizedSources] has [minLength] rows of
    five entries. *)
Definition well_shaped (minLength : nat)
    (ns : list (string * list (list num))) : Prop :=
  forall symbol rows, Obj.get ns symbol = Some rows ->
    length rows = minLength /\ Forall (fun r => length r = 5) rows.

(** Every entry of every row recorded for a source satisfies [P]. *)
Definition all_entries (P : num -> Prop)
    (ns : list (string * list (list num))) : Prop :=
  forall symbol rows, Obj.get ns symbol = Some rows -> Forall (Forall P) rows.
End NormalisationVocabulary.

(** *** Finite numbers *)

Definition finite (a : xreal) : Prop :=
  match a with Fin _ => True | _ => False end.

Definition finite_candle (c : Candle (N:=Exact)) : Prop :=
  finite (open c) /\ finite (high c) /\ finite (low c) /\ finite (close c) /\
  finite (volume c).

Definition in_unit_interval (a : xreal) : Prop :=
  match a with Fin x => (0 <= x <= 1)%R | _ => False end.

Definition nonneg (a : xreal) : Prop :=
  match a with Fin x => (0 <= x)%R | _ => False end.

(** [x || 1] on a finite number. *)
Definition nonzero_or_one (x : R) : R := if Req_dec_T x 0 then 1%R else x.

(** A batch of finite numbers as the exact instance sees it. *)
Definition lift (batch : list (list (list R)))
    : list (list (list (num (JsNumber:=Exact)))) :=
  map (map (map Fin)) batch.

(** *** The model *)

Section ModelVocabulary.
Context {N : JsNumber}.

(** The number of (sample, timestep) pairs of a batch of predictions. *)
Definition steps (predictions : list (list (list num))) : nat :=
  length (concat predictions).

(** [actuals] has a row wherever [predictions] has one. *)
Definition covers (predictions actuals : list (list (list num))) : Prop :=
  forall i s, predictions !! i = Some s ->
    exists s', actuals !! i = Some s' /\ length s <= length s'.

(** Prediction and actual agree on whether close is above open. *)
Definition agree (predRow actualRow : list num) : bool :=
  Bool.eqb (direction predRow) (direction actualRow).

(** The number of (sample, timestep) pairs on which prediction and actual
    agree. *)
Definition agreeing (predictions actuals : list (list (list num))) : nat :=
  length (filter (fun p => agree p.1 p.2 = true)
            (concat (zip_with zip predictions actuals))).

(** Following the spec's words, "compares sign(close-open) between
    prediction and actual": two rows agree when the signs of close - open
    are equal. *)
Definition sign_agree (predRow actualRow : list num) : bool :=
  eqb (Num.sign (sub (Num.of_undef (predRow !! 3)) (Num.of_undef (predRow !! 0))))
      (Num.sign (sub (Num.of_undef (actualRow !! 3)) (Num.of_undef (actualRow !! 0)))).

(** Following the spec's words: the share of (sample, timestep) pairs whose
    signs agree, 0 when there is none. *)
Definition sign_accuracy (predictions actuals : list (list (list num))) : num :=
  let pairs := zip (concat predictions) (concat actuals) in
  let correct := length (filter (fun p => sign_agree p.1 p.2 = true) pairs) in
  if 0 <? length pairs
  then div (Num.of_nat correct) (Num.of_nat (length pairs)) else of_Z 0.
End ModelVocabulary.

(** The value returned for [correct] agreeing steps out of [total]. *)
Definition share (correct total : nat) : R :=
  if (total =? 0)%nat then 0%R else (INR correct / INR total)%R.

(** *** Correlation over the reals *)

Section CorrelationVocabulary.
Local Open Scope R_scope.

(** The sum of [g i] over the indices [l]. *)
Definition isum (g : nat -> R) (l : list nat) : R :=
  fold_right (fun i s => g i + s) 0 l.

(** The three sums of the correlation loop over finite series, with the
    means the code uses (both divide by the number of predictions). *)
Record RSums : Type := {
  r_numerator : R;
  r_denomPred : R;
  r_denomActual : R;
}.

Definition correlation_sums (predFlat actualFlat : list R) : RSums :=
  let n := length predFlat in
  let meanPred := fold_left Rplus predFlat 0 / INR n in
  let meanActual := fold_left Rplus actualFlat 0 / INR n in
  let u i := nth i predFlat 0 - meanPred in
  let v i := nth i actualFlat 0 - meanActual in
  {| r_numerator := isum (fun i => u i * v i) (seq 0 n);
     r_denomPred := isum (fun i => u i * u i) (seq 0 n);
     r_denomActual := isum (fun i => v i * v i) (seq 0 n) |}.

(** The last two lines of [calculateCorrelation] on finite sums. *)
Definition correlation_of (s : RSums) : R :=
  let denom := R_sqrt.sqrt (r_denomPred s) * R_sqrt.sqrt (r_denomActual s) in
  if Rlt_dec 0 denom then r_numerator s / denom else 0.

(** Following the spec's words, the Pearson correlation coefficient of two
    series of the same length, 0 when a variance is zero. *)
Definition Rsum (l : list R) : R := fold_right Rplus 0 l.

Definition mean (l : list R) : R := Rsum l / INR (length l).

Definition deviations (l : list R) : list R := map (fun x => x - mean l) l.

Definition dot (u v : list R) : R := Rsum (zip_with Rmult u v).

Definition pearson (p a : list R) : R :=
  let denom := R_sqrt.sqrt (dot (deviations p) (deviations p))
               * R_sqrt.sqrt (dot (deviations a) (deviations a)) in
  if Rlt_dec 0 denom then dot (deviations p) (deviations a) / denom else 0.
End CorrelationVocabulary.

(** *** Inputs of the concrete runs *)

Section Examples.
Context {N : JsNumber}.

Definition example_candle (base : Z) (i : nat) : Candle :=
  {| open := of_Z (base + Z.of_nat i);
     high := of_Z (base + Z.of_nat i + 2);
     low := of_Z (base + Z.of_nat i - 1);
     close := of_Z (base + Z.of_nat i + 1);
     volume := of_Z (1000000 * (Z.of_nat i + 1)) |}.

Definition example_series (base : Z) (n : nat) : list Candle :=
  map (example_candle base) (seq 0 n).

Definition three_sources (n : nat) : list (string * list Candle) :=
  [("SPY", example_series 400 n); ("VIX", example_series 15 n);
   ("TLT", example_series 90 n)].

(** A TensorFlow.js stand-in whose [fit] completes after one epoch. *)
Definition one_epoch_tf : TensorFlow unit :=
  {| tf_build := tt;
     tf_fit := fun _ _ _ =>
       {| fitted := tt;
          epoch_logs := [{| logs_loss := Num.dec 25 2; logs_val_loss := Num.dec 3 1;
                            logs_mse := Num.dec 25 2 |}];
          fit_error := None |};
     tf_predict := fun _ inputs =>
       Returned (map (fun _ => [[of_Z 0; of_Z 0; of_Z 0; of_Z 0]]) inputs) |}.

(** A trained model whose last epoch reported the loss [l]. *)
Definition trained_with_loss (l : num) : SSMAttentionModel unit :=
  {| model := Some tt; trained := true;
     trainingHistory := [{| epoch := 0; loss := l; valLoss := l; mse := l |}] |}.
End Examples.

(** *** Indicators over finite numbers *)

(** The window of [period] values that ends at index [i], the mean of a
    window as the code takes it (the sum over [period]), and bounds. *)
Definition Rwindow (l : list R) (period i : nat) : list R :=
  take period (drop (i + 1 - period) l).

Definition Rmean (l : list R) (period : nat) : R :=
  (fold_left Rplus l 0 / INR period)%R.

Definition between (lo hi : R) (v : R) : Prop := (lo <= v <= hi)%R.

Section MovingAverageVocabulary.
Local Open Scope R_scope.

(** The moving average over finite numbers. *)
Definition RmovingAverage (l : list R) (period : nat) : list R :=
  imap (fun i x => if (i + 1 <? period)%nat then x else Rmean (Rwindow l period i) period) l.
End MovingAverageVocabulary.

Section RsiVocabulary.
Local Open Scope R_scope.

(** The gain and the loss recorded at index [i]. *)
Definition gain_at (l : list R) (i : nat) : R :=
  match i with
  | O => 0
  | S j => Rmax 0 (nth i l 0 - nth j l 0)
  end.

Definition loss_at (l : list R) (i : nat) : R :=
  match i with
  | O => 0
  | S j => Rmax 0 (- (nth i l 0 - nth j l 0))
  end.

(** The value pushed at an index [i > 0], from the gains and losses
    recorded up to [i]. *)
Definition rsi_value (period i : nat) (g ls : list R) : R :=
  if (period <=? i)%nat then
    let avgGain := Rmean (Rwindow g period i) period in
    let avgLoss := Rmean (Rwindow ls period i) period in
    if Req_dec_T avgLoss 0 then 100 else 100 - 100 / (1 + avgGain / avgLoss)
  else 50.

Definition rsi_at (l : list R) (period i : nat) : R :=
  match i with
  | O => 50
  | S _ =>
      rsi_value period i (map (gain_at l) (seq 0 (i + 1)))
        (map (loss_at l) (seq 0 (i + 1)))
  end.
End RsiVocabulary.

Section EmaVocabulary.
Local Open Scope R_scope.

(** The smoothing factor [2 / (period + 1)]. *)
Definition smoothing (period : nat) : R := 2 / (INR period + 1).
End EmaVocabulary.

Section EmaLoopVocabulary.
Local Open Scope R_scope.

(** The loop of [ema] over finite numbers. *)
Fixpoint Rema_loop (k prev : R) (l : list R) : list R :=
  match l with
  | [] => []
  | x :: rest => (x * k + prev * (1 - k)) :: Rema_loop k (x * k + prev * (1 - k)) rest
  end.
End EmaLoopVocabulary.

Section BollingerVocabulary.
Local Open Scope R_scope.

(** The standard deviation of a window about its mean, as
    [calculateBollinger] computes it (dividing by [period]). *)
Definition Rdeviation (w : list R) (period : nat) : R :=
  let mean := Rmean w period in
  R_sqrt.sqrt
    (fold_left (fun a b => a + (b - mean) * (b - mean)) w 0 / INR period).
End BollingerVocabulary.

Section BandsVocabulary.
Local Open Scope R_scope.

(** The pair pushed at index [i] over finite numbers. *)
Definition Rbands (l md : list R) (period : nat) (s : R) (i : nat) : R * R :=
  let m := nth i md 0 in
  if (i + 1 <? period)%nat then (m * (102 / 100), m * (98 / 100))
  else (m + s * Rdeviation (Rwindow l period i) period,
        m - s * Rdeviation (Rwindow l period i) period).
End BandsVocabulary.

(** *** Mock data and prices *)

Section SpyCorrelationVocabulary.
Local Open Scope R_scope.

(** The correlation of a symbol that names no inherited property. *)
Definition Rcorrelation (symbol : string) : R :=
  if decide (symbol = "VIX") then -7 / 10
  else if decide (symbol = "TLT") then -3 / 10
  else if decide (symbol = "GLD") then 2 / 10
  else if decide (symbol = "DXY") then -2 / 10
  else if decide (symbol = "QQQ") then 9 / 10
  else 0.

(** The factor applied to the prices of candle [i], from the closes of
    SPY. *)
Definition Rfactor (symbol : string) (spyCloses : list R) (i : nat) : R :=
  match i with
  | O => 1 + Rcorrelation symbol * 0 * (5 / 10)
  | S j =>
      1 + Rcorrelation symbol
          * ((nth i spyCloses 0 - nth j spyCloses 0) / nth j spyCloses 0)
          * (5 / 10)
  end.
End SpyCorrelationVocabulary.

Section MockVocabulary.
Local Open Scope R_scope.

(** A candle of finite prices, none below 0.01, whose low and high
    enclose its open and its close. *)
Definition well_formed_candle (c : Candle (N:=Exact)) : Prop :=
  exists o h l cl,
    open c = Fin o /\ high c = Fin h /\ low c = Fin l /\ close c = Fin cl /\
    1 / 100 <= l /\ l <= o <= h /\ l <= cl <= h.

(** A parameter that is left out or is a finite number. *)
Definition finite_or_absent (value : option xreal) : Prop :=
  match value with
  | Some x => finite x
  | None => True
  end.
End MockVocabulary.

Section DecodeVocabulary.
Context {N : JsNumber}.

(** The open, high, low and close of a candle, all defined. *)
Definition ohlc_of (c : Candle) : Ohlc :=
  {| o_open := Some (open c); o_high := Some (high c);
     o_low := Some (low c); o_close := Some (close c) |}.
End DecodeVocabulary.

(** *** Batches *)

Section CoverageVocabulary.
Context {N : JsNumber}.

(** [predictions] has a row at sample [i], timestep [t], where [actuals]
    has none. *)
Definition uncovered (predictions actuals : list (list (list num))) : Prop :=
  exists i s t, predictions !! i = Some s /\ t < length s /\
                actuals !! i ≫= (.!! t) = None.
End CoverageVocabulary.

(** Every entry of a batch sent through [x => c * x + d]. *)
Definition rescale (c d : R) (batch : list (list (list R))) : list (list (list R)) :=
  map (map (map (fun x => (c * x + d)%R))) batch.

(** *** CSV *)

(** A text of digits only. *)
Fixpoint digits_only (s : string) : bool :=
  match s with
  | EmptyString => false
  | String c EmptyString =>
      (48 <=? Ascii.nat_of_ascii c) && (Ascii.nat_of_ascii c <=? 57)
  | String c rest =>
      (48 <=? Ascii.nat_of_ascii c) && (Ascii.nat_of_ascii c <=? 57) && digits_only rest
  end.

(** A property name for which [o[k] = v] on a plain object adds an own
    property at the end of its keys: not [__proto__], which sets the
    prototype, and not a whole number, which an object lists before its
    other keys. *)
Definition plain_name (s : string) : Prop :=
  s <> "__proto__" /\ digits_only s = false.

(** The number of occurrences of a character. *)
Fixpoint occurrences (c : Ascii.ascii) (s : string) : nat :=
  match s with
  | EmptyString => 0
  | String c' rest => (if decide (c' = c) then 1 else 0) + occurrences c rest
  end.

(** A number that is not NaN and not below [c]. *)
Definition at_least (c : R) (a : xreal) : Prop :=
  match a with
  | Fin x => (c <= x)%R
  | PInf => True
  | NInf | NaN => False
  end.

(** A candle as the parser lets it through: prices of at least 0.01 and a
    volume that is not negative. *)
Definition parsed_candle (c : Candle (N:=Exact)) : Prop :=
  at_least (1 / 100) (open c) /\ at_least (1 / 100) (high c) /\
  at_least (1 / 100) (low c) /\ at_least (1 / 100) (close c) /\
  at_least 0 (volume c).

(** *** Candles with indicators, and files *)

Section IndicatedVocabulary.
Local Open Scope R_scope.

(** An item of [calculateIndicators] for the candle [item] of a series
    whose closes lie between [lo] and [hi]: all its values are finite
    numbers, the averages lie between [lo] and [hi], the RSI between 0 and
    100, the middle band is the average over 20, and the outer bands are
    around it. *)
Definition indicated_within (lo hi : R) (item : Candle (N:=Exact))
    (r : Indicated (N:=Exact)) : Prop :=
  ind_item r = item /\
  exists m5 m10 m20 rs mc sg up dn,
    ma5 r = Some (Fin m5) /\ ma10 r = Some (Fin m10) /\ ma20 r = Some (Fin m20) /\
    ind_rsi r = Some (Fin rs) /\
    ind_macd r = Some (Fin mc) /\ macdSignal r = Some (Fin sg) /\
    bollingerUpper r = Some (Fin up) /\ bollingerLower r = Some (Fin dn) /\
    bollingerMid r = Some (Fin m20) /\
    between lo hi m5 /\ between lo hi m10 /\ between lo hi m20 /\
    between 0 100 rs /\ dn <= m20 <= up.
End IndicatedVocabulary.

Section LoadManyVocabulary.
Context {N : JsNumber} (host : CsvHost).

(** The candles of the last of [files] that is named for [symbol] and
    parses, if there is one. *)
Fixpoint last_loaded (files : list (string * option string)) (symbol : string)
    : option (list Candle) :=
  match files with
  | [] => None
  | (name, content) :: rest =>
      match last_loaded rest symbol with
      | Some rows => Some rows
      | None =>
          if decide (toUpperCase (strip_csv name) = symbol) then
            match parseYFinanceCSV host <$> content with
            | Some (Returned rows) => Some (map row_candle rows)
            | _ => None
            end
          else None
      end
  end.

(** The entry of the results for a file. *)
Definition load_entry (name : string) (content : option string) (entry : LoadResult)
    : Prop :=
  match entry with
  | LoadedFile result =>
      loaded_symbol result = toUpperCase (strip_csv name) /\
      rowCount result = length (loaded_data result) /\
      exists text, content = Some text /\
                   parseYFinanceCSV host text = Returned (loaded_data result)
  | FailedFile symbol error =>
      symbol = toUpperCase (strip_csv name) /\
      match content with
      | None => error = Error (read_error_message name)
      | Some text => parseYFinanceCSV host text = Thrown error
      end
  end.
End LoadManyVocabulary.

(** *** Examples for the indicators, the mock data and the parser *)

(** A stand-in for Math.pow that is right on the exponent 2. *)
Definition square_pow (a b : xreal) : xreal := XReal.mul a a.

(** A stand-in for Math.random that always draws 1/4. *)
Definition quarter_random (k : nat) : xreal := Fin (1 / 4).

Section CsvExamples.
Context {N : JsNumber}.

(** A stand-in for the number parsers that reads unsigned whole numbers and
    takes any other text for NaN. *)
Definition digit_value (c : Ascii.ascii) : option Z :=
  let n := Ascii.nat_of_ascii c in
  if (48 <=? n) && (n <=? 57) then Some (Z.of_nat (n - 48)) else None.

Fixpoint whole_number (acc : Z) (s : string) : option Z :=
  match s with
  | EmptyString => Some acc
  | String c rest => d ← digit_value c; whole_number (10 * acc + d) rest
  end.

Definition read_whole (s : string) : num :=
  match s with
  | EmptyString => nan
  | _ => match whole_number 0 s with Some z => of_Z z | None => nan end
  end.

(** A host with these parsers, for which every date is invalid (its
    timestamp is NaN) and whose sort leaves the rows in place. *)
Definition example_host : CsvHost :=
  {| parseFloat := read_whole;
     parseInt := read_whole;
     Date_getTime := fun _ => nan;
     date_before := fun _ _ => Some "1970-01-01";
     sort_by_timestamp := fun rows => rows |}.

(** Three lines after the header: a row, a row whose open is no number,
    and a row without volume. *)
Definition example_csv : string :=
  "Date,Open,High,Low,Close,Volume" +:+ String line_feed
  "1/2/2024,10,12,9,11,500" +:+ String line_feed
  "1/3/2024,n/a,12,9,11,500" +:+ String line_feed
  "1/4/2024,0,13,10,12,".
End CsvExamples.

(** * Proofs *)

Import Num.

(** * Exceptions: laws of the sequencing *)

Section OutcomeLaws.
Context {A B : Type}.
Implicit Types (f : A -> outcome B) (l : list A).

Lemma mapM_cons f x l :
  mapM f (x :: l) = y ← f x; ys ← mapM f l; mret (y :: ys).
Proof. reflexivity. Qed.

Lemma mapM_cons_Thrown f x l e : f x = Thrown e -> mapM f (x :: l) = Thrown e.
Proof. intros H. rewrite mapM_cons, H. reflexivity. Qed.

Lemma mapM_Returned f (P : A -> B -> Prop) l :
  (forall x, x ∈ l -> exists y, f x = Returned y /\ P x y) ->
  exists ys, mapM f l = Returned ys /\ Forall2 P l ys.
Proof.
  induction l as [|x l IH]; intros H.
  - exists []. split; [reflexivity | constructor].
  - destruct (H x) as (y & Hy & HP); [left|].
    destruct IH as (ys & Hys & HF). { intros z Hz. apply H. by right. }
    exists (y :: ys). rewrite mapM_cons, Hy. cbn. rewrite Hys. cbn.
    split; [reflexivity | by constructor].
Qed.

Lemma mapM_Returned_inv f l ys :
  mapM f l = Returned ys -> Forall2 (fun x y => f x = Returned y) l ys.
Proof.
  revert ys. induction l as [|x l IH]; intros ys H.
  - cbn in H. injection H as <-. constructor.
  - rewrite mapM_cons in H. destruct (f x) as [y| |] eqn:Hy; cbn in H; try discriminate.
    destruct (mapM f l) as [zs| |] eqn:Hl; cbn in H; try discriminate.
    injection H as <-. constructor; [assumption | by apply IH].
Qed.
End OutcomeLaws.

(** * Objects *)

Section ObjLaws.
Context {V : Type}.
Implicit Types (o : list (string * V)) (k : string) (v : V).

Lemma Obj_get_set o k v k' :
  Obj.get (Obj.set o k v) k' = if decide (k = k') then Some v else Obj.get o k'.
Proof.
  induction o as [|[k0 v0] o IH]; cbn.
  - destruct (decide (k = k')); reflexivity.
  - destruct (decide (k0 = k)) as [->|Hne]; cbn.
    + destruct (decide (k = k')); reflexivity.
    + rewrite IH. destruct (decide (k0 = k')) as [->|]; [|reflexivity].
      destruct (decide (k = k')); congruence.
Qed.

Lemma Obj_get_Some_keys o k : is_Some (Obj.get o k) <-> k ∈ Obj.keys o.
Proof.
  unfold Obj.keys. induction o as [|[k0 v0] o IH]; cbn.
  - split; [intros [? ?]; discriminate | intros H; inversion H].
  - destruct (decide (k0 = k)) as [->|Hne].
    + split; [intros _; left | intros _; eauto].
    + rewrite IH. split; [intros H; by right | intros H].
      inversion H; subst; [congruence | assumption].
Qed.
Lemma Obj_set_keys o k v k' : k' ∈ Obj.keys o -> k' ∈ Obj.keys (Obj.set o k v).
Proof.
  rewrite <- !Obj_get_Some_keys, Obj_get_set.
  destruct (decide (k = k')); [eauto | auto].
Qed.
End ObjLaws.

(** * Shapes of the normalised rows and of the windows *)

Section Shapes.
Context {N : JsNumber}.
Implicit Types (nz : gmap string NormParams) (row : list num)
  (features rows : list (list num)) (ns : list (string * list (list num))).

Lemma normalize_row_cons symbol features nz dim val rest :
  normalize_row symbol features nz dim (val :: rest) =
  (let next := normalize_row symbol features (store_at symbol features nz dim) (S dim) rest in
   (next.1,
    div (sub val (p_min (params_at symbol features nz dim)))
        (p_range (params_at symbol features nz dim)) :: next.2)).
Proof.
  cbn. unfold params_at, store_at.
  destruct (nz !! dim_key symbol dim); cbn;
    destruct (normalize_row symbol features _ (S dim) rest); reflexivity.
Qed.

Lemma normalize_rows_cons symbol features nz row rest :
  normalize_rows symbol features nz (row :: rest) =
  (let first := normalize_row symbol features nz 0 row in
   let next := normalize_rows symbol features first.1 rest in
   (next.1, first.2 :: next.2)).
Proof.
  cbn. destruct (normalize_row symbol features nz 0 row).
  cbn. destruct (normalize_rows symbol features _ rest). reflexivity.
Qed.

Lemma normalize_source_eq minLength acc entry :
  normalize_source minLength acc entry =
  (let features := extractFeatures (take minLength entry.2) in
   let done := normalize_rows entry.1 features acc.1 features in
   (done.1, Obj.set acc.2 entry.1 done.2)).
Proof.
  unfold normalize_source.
  destruct (normalize_rows entry.1 _ acc.1 _). reflexivity.
Qed.

Lemma normalize_row_length symbol features nz dim row :
  length (normalize_row symbol features nz dim row).2 = length row.
Proof.
  revert nz dim. induction row as [|val rest IH]; intros nz dim; [reflexivity|].
  rewrite normalize_row_cons. cbn. by rewrite IH.
Qed.

Lemma normalize_rows_shape symbol features nz rows :
  Forall2 (fun row out => length out = length row) rows
          (normalize_rows symbol features nz rows).2.
Proof.
  revert nz. induction rows as [|row rest IH]; intros nz; [constructor|].
  rewrite normalize_rows_cons. cbn. constructor; [apply normalize_row_length | apply IH].
Qed.

Lemma extractFeatures_length (data : list Candle) :
  length (extractFeatures data) = length data.
Proof. unfold extractFeatures. by rewrite length_map. Qed.

Lemma extractFeatures_width (data : list Candle) :
  Forall (fun f => length f = 5) (extractFeatures data).
Proof. unfold extractFeatures. apply Forall_map, Forall_forall. intros; reflexivity. Qed.

Lemma same_width rows (outs : list (list num)) (w : nat) :
  Forall2 (fun row out => length out = length row) rows outs ->
  Forall (fun f => length f = w) rows -> Forall (fun r => length r = w) outs.
Proof.
  induction 1 as [|f o fs os Hfo _ IH]; intros HW; [constructor|].
  inversion HW; subst. constructor; [congruence | by apply IH].
Qed.

Lemma normalize_rows_features_shape symbol nz (data : list Candle) :
  let out := (normalize_rows symbol (extractFeatures data) nz (extractFeatures data)).2 in
  length out = length data /\ Forall (fun r => length r = 5) out.
Proof.
  cbn. pose proof (normalize_rows_shape symbol (extractFeatures data) nz (extractFeatures data)) as HF.
  split.
  - rewrite <- (Forall2_length _ _ _ HF). apply extractFeatures_length.
  - eapply same_width; [exact HF | apply extractFeatures_width].
Qed.

Lemma normalize_sources_shape minLength (msd : list (string * list Candle)) nz ns :
  (forall entry, entry ∈ msd -> minLength <= length entry.2) ->
  well_shaped minLength ns ->
  let out := (fold_left (normalize_source minLength) msd (nz, ns)).2 in
  well_shaped minLength out /\
  (forall symbol, is_Some (Obj.get out symbol) <->
                  symbol ∈ Obj.keys msd \/ is_Some (Obj.get ns symbol)).
Proof.
  revert nz ns. induction msd as [|[symbol series] msd IH]; intros nz ns Hlen Hns; cbn.
  - split; [assumption|]. intros s. split; [by right|].
    intros [H|H]; [inversion H | assumption].
  - rewrite normalize_source_eq. cbn.
    destruct (normalize_rows_features_shape symbol nz (take minLength series)) as [Hl Hw].
    set (done := normalize_rows symbol _ nz _) in *.
    destruct (IH done.1 (Obj.set ns symbol done.2)) as [IH1 IH2].
    + intros e He. apply Hlen. by right.
    + intros s rows. rewrite Obj_get_set. destruct (decide (symbol = s)) as [->|].
      * intros [= <-]. split; [|assumption]. rewrite Hl, length_take.
        specialize (Hlen (s, series)). cbn in Hlen.
        apply Nat.min_l, Hlen. left.
      * apply Hns.
    + split; [exact IH1|]. intros s. rewrite IH2, Obj_get_set.
      unfold Obj.keys. cbn. destruct (decide (symbol = s)) as [->|Hne].
      * split; [intros _; left; left | intros _; right; eauto].
      * split.
        -- intros [H|H]; [left; by right | by right].
        -- intros [H|H]; [|by right]. inversion H; subst; [congruence | by left].
Qed.

Lemma fold_min_le (ns : list nat) n :
  fold_left Nat.min ns n <= n /\ forall m, m ∈ ns -> fold_left Nat.min ns n <= m.
Proof.
  revert n. induction ns as [|k ns IH]; intros n; cbn.
  - split; [lia|]. intros m H; inversion H.
  - destruct (IH (Nat.min n k)) as [H1 H2]. split; [lia|].
    intros m Hm. inversion Hm; subst; [lia | by apply H2].
Qed.

Lemma minLength_of_le (msd : list (string * list Candle)) minLength :
  minLength_of msd = Some minLength ->
  forall entry, entry ∈ msd -> minLength <= length entry.2.
Proof.
  unfold minLength_of, Obj.values. destruct msd as [|e0 msd]; [discriminate|].
  cbn. intros [= <-] entry He.
  destruct (fold_min_le (map length (map snd msd)) (length e0.2)) as [H1 H2].
  inversion He; subst; [exact H1|].
  apply H2. apply list_elem_of_fmap. exists entry.2. split; [reflexivity|].
  apply list_elem_of_fmap. by exists entry.
Qed.

Lemma source_row_Returned minLength ns symbol idx :
  well_shaped minLength ns -> is_Some (Obj.get ns symbol) -> idx < minLength ->
  exists row, source_row ns symbol idx = Returned row /\ length row = 5.
Proof.
  intros Hns [rows Hrows] Hidx. destruct (Hns _ _ Hrows) as [Hl Hw].
  unfold source_row. rewrite Hrows.
  destruct (lookup_lt_is_Some_2 rows idx) as [row Hrow]; [lia|].
  rewrite Hrow. exists row. split; [reflexivity|].
  eapply Forall_lookup_1 in Hw; eauto.
Qed.

Lemma concat_width {A} (rows : list (list A)) (w : nat) :
  Forall (fun r => length r = w) rows -> length (concat rows) = length rows * w.
Proof.
  induction 1 as [|r rows Hr _ IH]; [reflexivity|].
  cbn. rewrite length_app, IH, Hr. lia.
Qed.

Lemma time_step_Returned minLength ns (sources : list string) idx :
  well_shaped minLength ns ->
  (forall s, s ∈ sources -> is_Some (Obj.get ns s)) -> idx < minLength ->
  exists step, time_step ns sources idx = Returned step /\
               length step = length sources * 5.
Proof.
  intros Hns Hsrc Hidx. unfold time_step.
  destruct (mapM_Returned (fun symbol => source_row ns symbol idx)
              (fun _ row => length row = 5) sources) as (rows & -> & HF).
  { intros s Hs. eapply source_row_Returned; eauto. }
  cbn. eexists. split; [reflexivity|].
  rewrite (concat_width rows 5).
  - by rewrite (Forall2_length _ _ _ HF).
  - clear -HF. induction HF; constructor; assumption.
Qed.

Lemma Forall2_seq_r {A} (P : A -> Prop) (l : list nat) (ys : list A) :
  Forall2 (fun _ y => P y) l ys -> length ys = length l /\ Forall P ys.
Proof.
  intros HF. split; [symmetry; eapply Forall2_length; eauto|].
  induction HF; constructor; assumption.
Qed.

Lemma input_sequence_Returned minLength ns (sources : list string) i lookback :
  well_shaped minLength ns ->
  (forall s, s ∈ sources -> is_Some (Obj.get ns s)) -> i + lookback <= minLength ->
  exists x, input_sequence ns sources i lookback = Returned x /\
            length x = lookback /\
            Forall (fun step => length step = length sources * 5) x.
Proof.
  intros Hns Hsrc Hi. unfold input_sequence.
  destruct (mapM_Returned (fun t => time_step ns sources (i + t))
              (fun _ step => length step = length sources * 5) (seq 0 lookback))
    as (x & Hx & HF).
  { intros t Ht. apply elem_of_seq in Ht. eapply time_step_Returned; eauto. lia. }
  exists x. split; [assumption|]. apply Forall2_seq_r in HF as [Hl HF].
  by rewrite length_seq in Hl.
Qed.

Lemma target_sequence_Returned minLength ns targetSymbol i lookback forecast :
  well_shaped minLength ns -> is_Some (Obj.get ns targetSymbol) ->
  i + lookback + forecast <= minLength ->
  exists y, target_sequence ns targetSymbol i lookback forecast = Returned y /\
            length y = forecast /\ Forall (fun row => length row = 4) y.
Proof.
  intros Hns Htgt Hi. unfold target_sequence.
  destruct (mapM_Returned
              (fun t => take 4 <$> source_row ns targetSymbol (i + lookback + t))
              (fun _ row => length row = 4) (seq 0 forecast)) as (y & Hy & HF).
  { intros t Ht. apply elem_of_seq in Ht.
    destruct (source_row_Returned minLength ns targetSymbol (i + lookback + t))
      as (row & -> & Hrow); [assumption.. | lia |].
    eexists. split; [reflexivity|]. rewrite length_take. lia. }
  exists y. split; [assumption|]. apply Forall2_seq_r in HF as [Hl HF].
  by rewrite length_seq in Hl.
Qed.
End Shapes.

(** * Windowing: sample count, shapes and failure modes *)

Section Windowing.
Context {N : JsNumber}.
Implicit Types (this : DataProcessor) (msd : list (string * list Candle)).

Lemma prepareTrainingData_eq this msd targetSymbol lookback forecast minLength :
  minLength_of msd = Some minLength ->
  prepareTrainingData this msd targetSymbol lookback forecast =
  (let done := normalize_sources minLength (normalizers this) msd in
   (set_normalizers this done.1,
    xy ← mapM (sample done.2 (Obj.keys msd) targetSymbol lookback forecast)
              (seq 0 (Z.to_nat (Z.of_nat minLength - Z.of_nat lookback - Z.of_nat forecast)));
    mret {| X := xy.*1; Y := xy.*2; sources := Obj.keys msd;
            featureCount := length (Obj.keys msd) * 5; td_normalizers := done.1 |})).
Proof.
  intros H. unfold prepareTrainingData. rewrite H.
  destruct (normalize_sources minLength (normalizers this) msd). reflexivity.
Qed.

Lemma normalized_sources_ok msd nz minLength :
  minLength_of msd = Some minLength ->
  let ns := (normalize_sources minLength nz msd).2 in
  well_shaped minLength ns /\
  (forall symbol, is_Some (Obj.get ns symbol) <-> symbol ∈ Obj.keys msd).
Proof.
  intros Hmin. cbn. unfold normalize_sources.
  destruct (normalize_sources_shape minLength msd nz []) as [H1 H2].
  - by apply minLength_of_le.
  - intros s rows. cbn. discriminate.
  - split; [exact H1|]. intros s. rewrite H2. cbn.
    split; [intros [H|[? H]]; [assumption | discriminate] | by left].
Qed.

(** With no room for a sample the call returns empty [X] and [Y], whatever
    the target. *)
Lemma no_sample_Returned this msd targetSymbol lookback forecast minLength :
  minLength_of msd = Some minLength -> minLength <= lookback + forecast ->
  exists data,
    (prepareTrainingData this msd targetSymbol lookback forecast).2 = Returned data /\
    X data = [] /\ Y data = [] /\ sources data = Obj.keys msd /\
    featureCount data = length (Obj.keys msd) * 5.
Proof.
  intros Hmin Hle. rewrite (prepareTrainingData_eq _ _ _ _ _ _ Hmin). cbn.
  replace (Z.to_nat _) with 0 by lia. cbn.
  eexists. split; [reflexivity|]. cbn. auto.
Qed.

(** A target that is not a source makes the first sample fail with a
    TypeError as soon as one target row is read. *)
Lemma absent_target_TypeError this msd targetSymbol lookback forecast minLength :
  minLength_of msd = Some minLength -> targetSymbol ∉ Obj.keys msd ->
  lookback + forecast < minLength -> 0 < forecast ->
  (prepareTrainingData this msd targetSymbol lookback forecast).2 = Thrown TypeError.
Proof.
  intros Hmin Habs Hlt Hf. rewrite (prepareTrainingData_eq _ _ _ _ _ _ Hmin). cbn.
  destruct (normalized_sources_ok msd (normalizers this) minLength Hmin) as [Hns Hkeys].
  set (ns := (normalize_sources minLength (normalizers this) msd).2) in *.
  destruct (Z.to_nat _) as [|total] eqn:Ht; [lia|].
  cbn [seq]. rewrite (mapM_cons_Thrown _ _ _ TypeError); [reflexivity|].
  unfold sample.
  destruct (input_sequence_Returned minLength ns (Obj.keys msd) 0 lookback)
    as (x & -> & _); [assumption | intros s Hs; by apply Hkeys | lia |].
  cbn. unfold target_sequence. destruct forecast as [|forecast]; [lia|].
  cbn [seq]. rewrite (mapM_cons_Thrown _ _ _ TypeError); [reflexivity|].
  unfold source_row. destruct (Obj.get ns targetSymbol) eqn:Hget; [|reflexivity].
  exfalso. apply Habs, Hkeys. eauto.
Qed.

(** With at least one source and the target among the sources the call
    returns. *)
Lemma prepareTrainingData_Returned this msd targetSymbol lookback forecast minLength :
  minLength_of msd = Some minLength -> targetSymbol ∈ Obj.keys msd ->
  exists data,
    (prepareTrainingData this msd targetSymbol lookback forecast).2 = Returned data.
Proof.
  intros Hmin Htgt. rewrite (prepareTrainingData_eq _ _ _ _ _ _ Hmin). cbn.
  destruct (normalized_sources_ok msd (normalizers this) minLength Hmin) as [Hns Hkeys].
  set (ns := (normalize_sources minLength (normalizers this) msd).2) in *.
  set (total := Z.to_nat _).
  destruct (mapM_Returned (sample ns (Obj.keys msd) targetSymbol lookback forecast)
    (fun _ _ => True) (seq 0 total)) as (xy & -> & _).
  { intros i Hi. apply elem_of_seq in Hi. unfold sample.
    destruct (input_sequence_Returned minLength ns (Obj.keys msd) i lookback)
      as (x & -> & _); [assumption | intros s Hs; by apply Hkeys | lia |].
    destruct (target_sequence_Returned minLength ns targetSymbol i lookback forecast)
      as (y & -> & _); [assumption | by apply Hkeys | lia |].
    cbn. eauto. }
  cbn. eauto.
Qed.

(** C2.  With at least one source and the target among the sources,
    [prepareTrainingData] returns; the number of samples is
    [minLength - lookback - forecast] (none when that is negative), every
    [X[i]] has [lookback] rows of [numSources * 5] entries and every [Y[i]]
    has [forecast] rows of 4 entries. *)
Theorem window_count_and_shapes this msd targetSymbol lookback forecast minLength :
  minLength_of msd = Some minLength ->
  targetSymbol ∈ Obj.keys msd ->
  exists data,
    (prepareTrainingData this msd targetSymbol lookback forecast).2 = Returned data /\
    Z.of_nat (length (X data)) =
      Z.max 0 (Z.of_nat minLength - Z.of_nat lookback - Z.of_nat forecast) /\
    length (Y data) = length (X data) /\
    Forall (fun x => length x = lookback /\
                     Forall (fun step => length step = length (Obj.keys msd) * 5) x)
           (X data) /\
    Forall (fun y => length y = forecast /\ Forall (fun row => length row = 4) y)
           (Y data) /\
    featureCount data = length (Obj.keys msd) * 5.
Proof.
  intros Hmin Htgt. rewrite (prepareTrainingData_eq _ _ _ _ _ _ Hmin). cbn.
  destruct (normalized_sources_ok msd (normalizers this) minLength Hmin) as [Hns Hkeys].
  set (ns := (normalize_sources minLength (normalizers this) msd).2) in *.
  set (total := Z.to_nat _).
  destruct (mapM_Returned (sample ns (Obj.keys msd) targetSymbol lookback forecast)
    (fun _ xy =>
       (length xy.1 = lookback /\
        Forall (fun step => length step = length (Obj.keys msd) * 5) xy.1) /\
       (length xy.2 = forecast /\ Forall (fun row => length row = 4) xy.2))
    (seq 0 total)) as (xy & -> & HF).
  { intros i Hi. apply elem_of_seq in Hi. unfold sample.
    destruct (input_sequence_Returned minLength ns (Obj.keys msd) i lookback)
      as (x & -> & Hx); [assumption | intros s Hs; by apply Hkeys | lia |].
    destruct (target_sequence_Returned minLength ns targetSymbol i lookback forecast)
      as (y & -> & Hy); [assumption | by apply Hkeys | lia |].
    cbn. eexists. split; [reflexivity|]. cbn. auto. }
  cbn. eexists. split; [reflexivity|]. cbn.
  apply Forall2_seq_r in HF as [Hl HF]. rewrite length_seq in Hl.
  rewrite !length_fmap. repeat split.
  - subst total. lia.
  - apply Forall_fmap. eapply Forall_impl; [exact HF|]. cbn. tauto.
  - apply Forall_fmap. eapply Forall_impl; [exact HF|]. cbn. tauto.
Qed.

(** C3, as the code has it.  When [minLength - lookback - forecast <= 0]
    the call raises nothing: it returns a result whose [X] and [Y] are
    empty. *)
Theorem insufficient_data_returns_no_samples this msd targetSymbol lookback forecast minLength :
  minLength_of msd = Some minLength ->
  (Z.of_nat minLength - Z.of_nat lookback - Z.of_nat forecast <= 0)%Z ->
  exists data,
    (prepareTrainingData this msd targetSymbol lookback forecast).2 = Returned data /\
    X data = [] /\ Y data = [].
Proof.
  intros Hmin Hle.
  destruct (no_sample_Returned this msd targetSymbol lookback forecast minLength)
    as (data & H & HX & HY & _); [assumption | lia |].
  exists data. auto.
Qed.

End Windowing.

(** * The normalizer map: what is written, what is kept *)

Section NormalizerMap.
Context {N : JsNumber}.
Implicit Types (this : DataProcessor) (nz : gmap string NormParams).

Lemma store_at_keeps symbol features nz dim k p :
  nz !! k = Some p -> store_at symbol features nz dim !! k = Some p.
Proof.
  intros H. unfold store_at.
  destruct (nz !! dim_key symbol dim) eqn:E; [assumption|].
  rewrite lookup_insert_ne; [assumption | congruence].
Qed.

Lemma normalize_row_keeps symbol features nz dim row k p :
  nz !! k = Some p -> (normalize_row symbol features nz dim row).1 !! k = Some p.
Proof.
  revert nz dim. induction row as [|val rest IH]; intros nz dim H; [assumption|].
  rewrite normalize_row_cons. cbn. by apply IH, store_at_keeps.
Qed.

Lemma normalize_rows_keeps symbol features nz rows k p :
  nz !! k = Some p -> (normalize_rows symbol features nz rows).1 !! k = Some p.
Proof.
  revert nz. induction rows as [|row rest IH]; intros nz H; [assumption|].
  rewrite normalize_rows_cons. cbn. by apply IH, normalize_row_keeps.
Qed.

Lemma normalize_sources_keeps minLength (msd : list (string * list Candle)) nz k p :
  nz !! k = Some p -> (normalize_sources minLength nz msd).1 !! k = Some p.
Proof.
  unfold normalize_sources. generalize (@nil (string * list (list num))).
  revert nz. induction msd as [|entry msd IH]; intros nz ns H; [assumption|].
  cbn. rewrite normalize_source_eq. cbn. by apply IH, normalize_rows_keeps.
Qed.

Lemma prepareTrainingData_keeps this msd targetSymbol lookback forecast k p :
  normalizers this !! k = Some p ->
  normalizers (prepareTrainingData this msd targetSymbol lookback forecast).1 !! k = Some p.
Proof.
  intros H. unfold prepareTrainingData.
  destruct (minLength_of msd) as [minLength|]; [|assumption].
  pose proof (normalize_sources_keeps minLength msd _ _ _ H) as Hk.
  destruct (normalize_sources minLength (normalizers this) msd). exact Hk.
Qed.

(** C5, as the code has it.  [normalize] computes the parameters of its
    input and stores them under the key whether or not the key already has
    an entry, leaving the other keys alone; the parameters it scales by are
    the ones it stores.  Keeping what is stored is what the window builder
    does: a value of a dimension whose key has an entry is scaled by that
    entry, and an entry present before [prepareTrainingData] is still
    there, unchanged, after it. *)
Theorem normalize_overwrites_windowing_keeps this data key :
  normalizers (normalize this data key).1 !! normalizeKey key
    = Some (params_of (normalize_values data key)) /\
  (forall k, k <> normalizeKey key ->
     normalizers (normalize this data key).1 !! k = normalizers this !! k) /\
  (normalize this data key).2
    = map (scaled (params_of (normalize_values data key))) (normalize_values data key) /\
  (forall symbol features nz dim val rest p,
     nz !! dim_key symbol dim = Some p ->
     head (normalize_row symbol features nz dim (val :: rest)).2 = Some (scaled p val)) /\
  (forall msd targetSymbol lookback forecast k p,
     normalizers this !! k = Some p ->
     normalizers (prepareTrainingData this msd targetSymbol lookback forecast).1 !! k
       = Some p).
Proof.
  repeat split.
  - cbn. apply lookup_insert_eq.
  - intros k Hk. cbn. by rewrite lookup_insert_ne.
  - intros symbol features nz dim val rest p H. rewrite normalize_row_cons.
    unfold params_at. rewrite H. reflexivity.
  - intros. by apply prepareTrainingData_keeps.
Qed.
End NormalizerMap.

(** * Exact arithmetic *)

Section ExactArithmetic.
Local Open Scope R_scope.
Implicit Types (x y a : R).

Lemma exact_add x y : add (JsNumber:=Exact) (Fin x) (Fin y) = Fin (x + y).
Proof. reflexivity. Qed.

Lemma exact_sub x y : sub (JsNumber:=Exact) (Fin x) (Fin y) = Fin (x - y).
Proof. reflexivity. Qed.

Lemma exact_mul x y : mul (JsNumber:=Exact) (Fin x) (Fin y) = Fin (x * y).
Proof. reflexivity. Qed.

Lemma exact_div x y : y <> 0 -> div (JsNumber:=Exact) (Fin x) (Fin y) = Fin (x / y).
Proof. intros H. cbn. destruct (Req_dec_T y 0); [contradiction | reflexivity]. Qed.

Lemma exact_ltb_true x y : x < y -> ltb (JsNumber:=Exact) (Fin x) (Fin y) = true.
Proof. intros H. cbn. destruct (Rlt_dec x y); [reflexivity | contradiction]. Qed.

Lemma exact_ltb_false x y : ~ x < y -> ltb (JsNumber:=Exact) (Fin x) (Fin y) = false.
Proof. intros H. cbn. destruct (Rlt_dec x y); [contradiction | reflexivity]. Qed.

Lemma exact_eqb_true x y : x = y -> eqb (JsNumber:=Exact) (Fin x) (Fin y) = true.
Proof. intros H. cbn. destruct (Req_dec_T x y); [reflexivity | contradiction]. Qed.

Lemma exact_eqb_false x y : x <> y -> eqb (JsNumber:=Exact) (Fin x) (Fin y) = false.
Proof. intros H. cbn. destruct (Req_dec_T x y); [contradiction | reflexivity]. Qed.

Lemma exact_isnan x : isnan (N:=Exact) (Fin x) = false.
Proof. unfold isnan. by rewrite exact_eqb_true. Qed.

Lemma exact_of_nat (n : nat) : of_nat (N:=Exact) n = Fin (INR n).
Proof. unfold of_nat. cbn. by rewrite INR_IZR_INZ. Qed.

Lemma nonzero_or_one_neq x : nonzero_or_one x <> 0.
Proof. unfold nonzero_or_one. destruct (Req_dec_T x 0); lra. Qed.

Lemma exact_or_one x : or_one (N:=Exact) (Fin x) = Fin (nonzero_or_one x).
Proof.
  unfold or_one, nonzero_or_one. rewrite exact_isnan.
  change (@of_Z Exact 0) with (Fin 0). change (@of_Z Exact 1) with (Fin 1).
  destruct (Req_dec_T x 0) as [->|Hx].
  - by rewrite exact_eqb_true.
  - by rewrite exact_eqb_false.
Qed.

Lemma exact_min2 a x : min2 (N:=Exact) (Fin a) (Fin x) = Fin (Rmin a x).
Proof.
  unfold min2. rewrite !exact_isnan. unfold Rmin.
  destruct (Rle_dec a x).
  - rewrite exact_ltb_false; [reflexivity | lra].
  - rewrite exact_ltb_true; [reflexivity | lra].
Qed.

Lemma exact_max2 a x : max2 (N:=Exact) (Fin a) (Fin x) = Fin (Rmax a x).
Proof.
  unfold max2. rewrite !exact_isnan. unfold Rmax.
  destruct (Rle_dec a x) as [Hle|Hnle].
  - destruct (Rlt_dec a x) as [Hlt|Hnlt].
    + by rewrite exact_ltb_true.
    + rewrite exact_ltb_false by assumption. f_equal. lra.
  - rewrite exact_ltb_false; [reflexivity | lra].
Qed.

Lemma exact_fold_min (l : list R) a :
  fold_left (min2 (N:=Exact)) (map Fin l) (Fin a) = Fin (fold_left Rmin l a).
Proof.
  revert a. induction l as [|x l IH]; intros a; [reflexivity|].
  cbn [map fold_left]. by rewrite exact_min2, IH.
Qed.

Lemma exact_fold_max (l : list R) a :
  fold_left (max2 (N:=Exact)) (map Fin l) (Fin a) = Fin (fold_left Rmax l a).
Proof.
  revert a. induction l as [|x l IH]; intros a; [reflexivity|].
  cbn [map fold_left]. by rewrite exact_max2, IH.
Qed.

Lemma exact_min2_pinf x : min2 (N:=Exact) PInf (Fin x) = Fin x.
Proof. unfold min2. rewrite exact_isnan. reflexivity. Qed.

Lemma exact_max2_ninf x : max2 (N:=Exact) NInf (Fin x) = Fin x.
Proof. unfold max2. rewrite exact_isnan. reflexivity. Qed.

Lemma exact_Math_min x (l : list R) :
  Math_min (N:=Exact) (map Fin (x :: l)) = Fin (fold_left Rmin l x).
Proof.
  unfold Math_min. cbn [map fold_left].
  change (@pinf Exact) with PInf. by rewrite exact_min2_pinf, exact_fold_min.
Qed.

Lemma exact_Math_max x (l : list R) :
  Math_max (N:=Exact) (map Fin (x :: l)) = Fin (fold_left Rmax l x).
Proof.
  unfold Math_max. cbn [map fold_left].
  change (@ninf Exact) with NInf. by rewrite exact_max2_ninf, exact_fold_max.
Qed.

Lemma fold_Rmin_le (l : list R) a :
  fold_left Rmin l a <= a /\ forall x, x ∈ l -> fold_left Rmin l a <= x.
Proof.
  revert a. induction l as [|y l IH]; intros a; cbn.
  - split; [lra|]. intros x H; inversion H.
  - destruct (IH (Rmin a y)) as [H1 H2].
    pose proof (Rmin_l a y). pose proof (Rmin_r a y).
    split; [lra|]. intros x Hx. inversion Hx; subst; [lra | by apply H2].
Qed.

Lemma fold_Rmax_ge (l : list R) a :
  a <= fold_left Rmax l a /\ forall x, x ∈ l -> x <= fold_left Rmax l a.
Proof.
  revert a. induction l as [|y l IH]; intros a; cbn.
  - split; [lra|]. intros x H; inversion H.
  - destruct (IH (Rmax a y)) as [H1 H2].
    pose proof (Rmax_l a y). pose proof (Rmax_r a y).
    split; [lra|]. intros x Hx. inversion Hx; subst; [lra | by apply H2].
Qed.

(** The parameters of a non-empty list of finite values. *)
Lemma exact_params_of x (l : list R) :
  params_of (N:=Exact) (map Fin (x :: l)) =
  {| p_min := Fin (fold_left Rmin l x); p_max := Fin (fold_left Rmax l x);
     p_range := Fin (nonzero_or_one (fold_left Rmax l x - fold_left Rmin l x)) |}.
Proof.
  unfold params_of. rewrite exact_Math_min, exact_Math_max, exact_sub, exact_or_one.
  reflexivity.
Qed.
End ExactArithmetic.

(** * Round trip of normalisation *)

Section RoundTrip.
Local Open Scope R_scope.

Lemma scale_back mn rg (l : list R) :
  rg <> 0 ->
  map (fun v => add (JsNumber:=Exact) (mul v (Fin rg)) (Fin mn))
      (map (fun v => div (sub v (Fin mn)) (Fin rg)) (map Fin l)) = map Fin l.
Proof.
  intros Hrg. induction l as [|y l IH]; [reflexivity|].
  cbn [map]. rewrite IH. f_equal.
  rewrite exact_sub, exact_div, exact_mul, exact_add by assumption.
  f_equal. field. assumption.
Qed.

(** C1, as the code has it.  Whenever the values that [normalize] extracts
    (the elements themselves without a key, the property [key] of each
    element with one) are finite numbers, denormalising the result under
    the same key gives back exactly these values, in exact arithmetic; the
    constant series, whose range is replaced by 1, is included. *)
Theorem round_trip_exact (this : DataProcessor (N:=Exact)) (data : list datum)
    (key : option string) (v : list R) :
  normalize_values data key = map Fin v ->
  denormalize (normalize this data key).1 (normalize this data key).2 key = map Fin v.
Proof.
  intros Hv. unfold denormalize, normalize. cbn [fst snd normalizers set_normalizers].
  rewrite lookup_insert_eq, Hv.
  destruct v as [|x l]; [reflexivity|].
  rewrite exact_params_of. cbn [p_min p_range].
  apply scale_back, nonzero_or_one_neq.
Qed.
End RoundTrip.

(** The amended C1 on the constant series 7, 7, 7 without a key. *)
Lemma round_trip_exact_witness :
  denormalize
    (normalize (new_DataProcessor (N:=Exact))
       [@DNum Exact (Fin 7); @DNum Exact (Fin 7); @DNum Exact (Fin 7)] None).1
    (normalize (new_DataProcessor (N:=Exact))
       [@DNum Exact (Fin 7); @DNum Exact (Fin 7); @DNum Exact (Fin 7)] None).2 None
  = [Fin 7; Fin 7; Fin 7].
Proof.
  apply (round_trip_exact new_DataProcessor
           [@DNum Exact (Fin 7); @DNum Exact (Fin 7); @DNum Exact (Fin 7)] None [7; 7; 7]%R).
  reflexivity.
Defined.

(** C1 does not hold as stated: a key is read as a property name, so the
    numbers 1, 2, 3 normalised and denormalised under the key "close" come
    back as NaN (binary64). *)
Lemma keyed_numbers_round_trip_to_NaN :
  let data := map (@DNum Float64) [1; 2; 3]%float in
  let run := normalize new_DataProcessor data (Some "close") in
  let back := denormalize run.1 run.2 (Some "close") in
  back = [nan; nan; nan] /\
  forallb (fun p => leb (abs (sub p.1 p.2)) (dec 1 9))
          (zip back [1; 2; 3]%float) = false.
Proof. vm_compute. split; reflexivity. Qed.

(** * Normalizer keys *)

Lemma string_app_nil (t : string) : "" +:+ t = t.
Proof. reflexivity. Qed.

Lemma string_app_cons c (s t : string) : String c s +:+ t = String c (s +:+ t).
Proof. reflexivity. Qed.

Lemma string_length_app (s t : string) :
  String.length (s +:+ t) = String.length s + String.length t.
Proof.
  induction s as [|c s IH]; [reflexivity|].
  rewrite string_app_cons. cbn [String.length]. by rewrite IH.
Qed.

Lemma string_app_inj_suffix (s1 s2 t1 t2 : string) :
  String.length t1 = String.length t2 -> s1 +:+ t1 = s2 +:+ t2 -> s1 = s2 /\ t1 = t2.
Proof.
  revert s2. induction s1 as [|c s1 IH]; intros [|c2 s2] Hlen H;
    rewrite ?string_app_nil, ?string_app_cons in H.
  - auto.
  - rewrite H in Hlen. cbn [String.length] in Hlen.
    rewrite string_length_app in Hlen. lia.
  - rewrite <- H in Hlen. cbn [String.length] in Hlen.
    rewrite string_length_app in Hlen. lia.
  - injection H as -> H. destruct (IH s2 Hlen H) as [-> ->]. auto.
Qed.

Lemma dim_key_inj (s s' : string) (d d' : nat) :
  d < 5 -> d' < 5 -> dim_key s d = dim_key s' d' -> s = s' /\ d = d'.
Proof.
  intros Hd Hd' H. unfold dim_key in H.
  apply string_app_inj_suffix in H.
  - destruct H as [-> H]. split; [reflexivity|].
    do 5 (destruct d as [|d]; [do 5 (destruct d' as [|d']; [first [reflexivity | discriminate]|]); lia|]).
    lia.
  - do 5 (destruct d as [|d]; [do 5 (destruct d' as [|d']; [reflexivity|]); lia|]).
    lia.
Qed.

(** * A source's keys hold the parameters of its own columns *)

Section OwnParams.
Context {N : JsNumber}.
Implicit Types (nz : gmap string NormParams) (row : list num)
  (features rows : list (list num)).

Lemma params_at_own symbol features nz dim :
  own_params symbol features nz -> dim < 5 ->
  params_at symbol features nz dim = column_params features dim.
Proof.
  intros H Hd. unfold params_at. destruct (H dim Hd) as [-> | ->]; reflexivity.
Qed.

Lemma store_at_other symbol features nz dim k :
  k <> dim_key symbol dim -> store_at symbol features nz dim !! k = nz !! k.
Proof.
  intros Hk. unfold store_at. destruct (nz !! dim_key symbol dim); [reflexivity|].
  by rewrite lookup_insert_ne.
Qed.

Lemma store_at_own symbol features nz dim :
  dim < 5 -> own_params symbol features nz ->
  own_params symbol features (store_at symbol features nz dim).
Proof.
  intros Hd H d' Hd'. destruct (decide (d' = dim)) as [->|Hne].
  - unfold store_at. destruct (nz !! dim_key symbol dim) eqn:E.
    + rewrite E. destruct (H dim Hd) as [H0|H0]; rewrite H0 in E; [discriminate|].
      right. congruence.
    + right. apply lookup_insert_eq.
  - rewrite store_at_other; [by apply H|].
    intros Heq. apply dim_key_inj in Heq as [_ ?]; [contradiction | assumption..].
Qed.

Lemma normalize_row_own symbol features nz dim row :
  own_params symbol features nz -> dim + length row <= 5 ->
  (normalize_row symbol features nz dim row).2 = scale_row features dim row /\
  own_params symbol features (normalize_row symbol features nz dim row).1.
Proof.
  revert nz dim. induction row as [|val rest IH]; intros nz dim H Hlen; [by split|].
  cbn [length] in Hlen. rewrite normalize_row_cons. cbn [fst snd scale_row].
  destruct (IH (store_at symbol features nz dim) (S dim)) as [IH1 IH2];
    [apply store_at_own; [lia | assumption] | lia |].
  rewrite IH1, params_at_own by (assumption || lia). by split.
Qed.

Lemma normalize_row_other symbol features nz dim row k :
  (forall d, d < 5 -> k <> dim_key symbol d) -> dim + length row <= 5 ->
  (normalize_row symbol features nz dim row).1 !! k = nz !! k.
Proof.
  intros Hk. revert nz dim. induction row as [|val rest IH]; intros nz dim Hlen;
    [reflexivity|].
  cbn [length] in Hlen. rewrite normalize_row_cons. cbn [fst].
  rewrite IH by lia. apply store_at_other, Hk. lia.
Qed.

Lemma normalize_rows_own symbol features nz rows :
  own_params symbol features nz -> Forall (fun r => length r = 5) rows ->
  (normalize_rows symbol features nz rows).2 = map (scale_row features 0) rows /\
  own_params symbol features (normalize_rows symbol features nz rows).1.
Proof.
  intros H Hw. revert nz H. induction Hw as [|row rest Hrow _ IH]; intros nz H;
    [by split|].
  rewrite normalize_rows_cons. cbn [fst snd map].
  destruct (normalize_row_own symbol features nz 0 row) as [H1 H2]; [assumption | lia |].
  destruct (IH _ H2) as [IH1 IH2]. rewrite H1, IH1. by split.
Qed.

Lemma normalize_rows_other symbol features nz rows k :
  (forall d, d < 5 -> k <> dim_key symbol d) -> Forall (fun r => length r = 5) rows ->
  (normalize_rows symbol features nz rows).1 !! k = nz !! k.
Proof.
  intros Hk Hw. revert nz. induction Hw as [|row rest Hrow _ IH]; intros nz;
    [reflexivity|].
  rewrite normalize_rows_cons. cbn [fst].
  rewrite IH. apply normalize_row_other; [assumption | lia].
Qed.
End OwnParams.

(** * Scaled values of finite series lie in the unit interval *)

Section UnitInterval.
Local Open Scope R_scope.

Lemma finite_Fin (a : xreal) : finite a -> exists x, a = Fin x.
Proof. destruct a; cbn; intros H; try contradiction. eauto. Qed.

Lemma finite_features (data : list (Candle (N:=Exact))) :
  Forall finite_candle data ->
  exists rf : list (list R),
    extractFeatures data = map (map Fin) rf /\ Forall (fun f => length f = 5%nat) rf.
Proof.
  induction 1 as [|c data Hc _ IH].
  - exists []. split; [reflexivity | constructor].
  - destruct IH as (rf & Hrf & Hw).
    destruct Hc as (Ho & Hh & Hl & Hc & Hv).
    apply finite_Fin in Ho as [o Ho], Hh as [h Hh], Hl as [l Hl], Hc as [cl Hc],
          Hv as [v Hv].
    exists ([o; h; l; cl; v / 1000000] :: rf). split; [|by constructor].
    unfold extractFeatures in *. cbn [map]. rewrite Hrf, Ho, Hh, Hl, Hc, Hv.
    do 2 f_equal. do 4 f_equal.
    change (@of_Z Exact 1000000) with (Fin 1000000).
    rewrite exact_div by lra. reflexivity.
Qed.

Lemma finite_column (rf : list (list R)) (dim : nat) :
  (dim < 5)%nat -> Forall (fun f => length f = 5%nat) rf ->
  map (fun f => of_undef (N:=Exact) (f !! dim)) (map (map Fin) rf)
  = map Fin (map (fun f => nth dim f 0) rf).
Proof.
  intros Hd. induction 1 as [|f rf Hf _ IH]; [reflexivity|].
  cbn [map]. rewrite IH. f_equal.
  destruct (lookup_lt_is_Some_2 f dim) as [v Hv]; [lia|].
  change (map Fin f !! dim) with ((Fin <$> f) !! dim).
  rewrite list_lookup_fmap, Hv. cbn. f_equal.
  symmetry. by apply nth_lookup_Some with (d := 0) in Hv.
Qed.

Lemma scaled_unit (col : list R) (v : R) :
  v ∈ col -> in_unit_interval (scaled (params_of (N:=Exact) (map Fin col)) (Fin v)).
Proof.
  intros Hv. destruct col as [|c0 cl]; [inversion Hv|].
  rewrite exact_params_of. unfold scaled. cbn [p_min p_range].
  rewrite exact_sub, exact_div by apply nonzero_or_one_neq. cbn.
  destruct (fold_Rmin_le cl c0) as [Hmin0 Hmin].
  destruct (fold_Rmax_ge cl c0) as [Hmax0 Hmax].
  set (mn := fold_left Rmin cl c0) in *. set (mx := fold_left Rmax cl c0) in *.
  assert (mn <= v <= mx) as [Hlo Hhi].
  { inversion Hv; subst; [lra|]. split; [by apply Hmin | by apply Hmax]. }
  unfold nonzero_or_one. destruct (Req_dec_T (mx - mn) 0) as [Hz|Hnz].
  - replace v with mn by lra. unfold Rdiv. rewrite Rminus_diag, Rmult_0_l. lra.
  - assert (0 < mx - mn) as Hpos by lra.
    pose proof (Rinv_0_lt_compat _ Hpos) as Hinv.
    pose proof (Rinv_r (mx - mn) Hnz) as Hone.
    unfold Rdiv. split; nra.
Qed.

Lemma scale_row_unit (rf : list (list R)) (dim : nat) (row : list R) :
  Forall (fun f => length f = 5%nat) rf ->
  (forall j v, row !! j = Some v ->
     (dim + j < 5)%nat /\ exists f, f ∈ rf /\ nth (dim + j) f 0 = v) ->
  Forall in_unit_interval (scale_row (N:=Exact) (map (map Fin) rf) dim (map Fin row)).
Proof.
  intros Hw. revert dim. induction row as [|val rest IH]; intros dim H; [constructor|].
  cbn [map scale_row]. constructor.
  - destruct (H 0%nat val eq_refl) as (Hd & f & Hf & Hnth).
    rewrite Nat.add_0_r in Hd, Hnth.
    unfold column_params. rewrite finite_column by assumption.
    apply scaled_unit. apply list_elem_of_fmap. by exists f.
  - apply IH. intros j v Hj. destruct (H (S j) v Hj) as (Hd & f & Hf & Hnth).
    replace (S dim + j)%nat with (dim + S j)%nat by lia. eauto.
Qed.

Lemma scale_rows_unit (rf : list (list R)) :
  Forall (fun f => length f = 5%nat) rf ->
  Forall (Forall in_unit_interval)
         (map (scale_row (N:=Exact) (map (map Fin) rf) 0) (map (map Fin) rf)).
Proof.
  intros Hw. rewrite map_map. apply Forall_map, Forall_forall.
  intros f Hf. apply scale_row_unit; [assumption|].
  intros j v Hj. cbn. split.
  - apply lookup_lt_Some in Hj. eapply Forall_forall in Hw; eauto. lia.
  - exists f. split; [assumption|]. by apply nth_lookup_Some with (d := 0) in Hj.
Qed.
End UnitInterval.

Lemma bind_Returned_inv {A B} (m : outcome A) (f : A -> outcome B) (b : B) :
  (a ← m; f a) = Returned b -> exists a, m = Returned a /\ f a = Returned b.
Proof. destruct m as [a| |]; cbn; intros H; try discriminate. eauto. Qed.

Lemma fmap_Returned_inv {A B} (m : outcome A) (f : A -> B) (b : B) :
  f <$> m = Returned b -> exists a, m = Returned a /\ b = f a.
Proof. destruct m as [a| |]; cbn; intros H; try discriminate. injection H as <-. eauto. Qed.

(** * Entries of the windows come from the recorded rows *)

Section WindowEntries.
Context {N : JsNumber} (P : num -> Prop).
Implicit Types (ns : list (string * list (list num))).

Lemma source_row_all ns symbol idx row :
  all_entries P ns -> source_row ns symbol idx = Returned row -> Forall P row.
Proof.
  intros Hns. unfold source_row.
  destruct (Obj.get ns symbol) as [rows|] eqn:Hget; [|discriminate].
  destruct (rows !! idx) as [r|] eqn:Hr; [|discriminate].
  intros [= <-]. eapply Forall_lookup_1; [by eapply Hns | exact Hr].
Qed.

Lemma time_step_all ns (sources : list string) idx step :
  all_entries P ns -> time_step ns sources idx = Returned step -> Forall P step.
Proof.
  intros Hns H. unfold time_step in H.
  apply bind_Returned_inv in H as (rows & Hrows & [= <-]).
  apply mapM_Returned_inv in Hrows. apply Forall_concat.
  induction Hrows as [|s r ss rs Hr _ IH]; constructor; [|assumption].
  by eapply source_row_all.
Qed.

Lemma input_sequence_all ns (sources : list string) i lookback x :
  all_entries P ns -> input_sequence ns sources i lookback = Returned x ->
  Forall (Forall P) x.
Proof.
  intros Hns H. apply mapM_Returned_inv in H.
  induction H as [|t step ts steps Hstep _ IH]; constructor; [|assumption].
  by eapply time_step_all.
Qed.

Lemma target_sequence_all ns targetSymbol i lookback forecast y :
  all_entries P ns -> target_sequence ns targetSymbol i lookback forecast = Returned y ->
  Forall (Forall P) y.
Proof.
  intros Hns H. apply mapM_Returned_inv in H.
  induction H as [|t row ts rows Hrow _ IH]; constructor; [|assumption].
  apply fmap_Returned_inv in Hrow as (r & Hr & ->).
  apply Forall_take. by eapply source_row_all.
Qed.

Lemma samples_all ns (sources : list string) targetSymbol lookback forecast
    (l : list nat) (xy : list (list (list num) * list (list num))) :
  all_entries P ns ->
  mapM (sample ns sources targetSymbol lookback forecast) l = Returned xy ->
  Forall (Forall (Forall P)) xy.*1 /\ Forall (Forall (Forall P)) xy.*2.
Proof.
  intros Hns Hxy. apply mapM_Returned_inv in Hxy.
  split; apply Forall_fmap;
    (induction Hxy as [|i p l0 ps Hp _ IH]; constructor; [|assumption]);
    unfold sample in Hp;
    apply bind_Returned_inv in Hp as (x & Hx & Hp);
    apply bind_Returned_inv in Hp as (y & Hy & [= <-]); cbn.
  - by eapply input_sequence_all.
  - by eapply target_sequence_all.
Qed.
End WindowEntries.

(** * Windows over a processor that has no entry for the sources *)

Section FreshWindows.
Implicit Types (ns : list (string * list (list (num (JsNumber:=Exact)))))
  (msd : list (string * list (Candle (N:=Exact))))
  (nz : gmap string (NormParams (N:=Exact))).

Lemma normalize_sources_unit minLength msd nz ns :
  NoDup (Obj.keys msd) ->
  (forall entry, entry ∈ msd -> Forall finite_candle entry.2) ->
  (forall symbol dim, symbol ∈ Obj.keys msd -> dim < 5 ->
     nz !! dim_key symbol dim = None) ->
  all_entries (N:=Exact) in_unit_interval ns ->
  all_entries (N:=Exact) in_unit_interval (fold_left (normalize_source minLength) msd (nz, ns)).2.
Proof.
  revert nz ns. induction msd as [|[symbol series] msd IH];
    intros nz ns Hnd Hfin Hfresh Hns; [assumption|].
  cbn [fold_left]. rewrite normalize_source_eq. cbn [fst snd].
  unfold Obj.keys in Hnd. cbn [map fst] in Hnd. apply NoDup_cons in Hnd as [Hnotin Hnd].
  destruct (finite_features (take minLength series)) as (rf & Hrf & Hw).
  { apply Forall_take. apply (Hfin (symbol, series)). left. }
  assert (Forall (fun r : list xreal => length r = 5) (map (map Fin) rf)) as Hw'.
  { rewrite <- Hrf. apply (extractFeatures_width (N:=Exact)). }
  rewrite Hrf.
  destruct (normalize_rows_own (N:=Exact) symbol (map (map Fin) rf) nz (map (map Fin) rf))
    as [Hrows _]; [|assumption|].
  { intros d Hd. left. apply Hfresh; [left | assumption]. }
  apply IH.
  - exact Hnd.
  - intros e He. apply Hfin. by right.
  - intros s d Hs Hd. rewrite (normalize_rows_other (N:=Exact)); [| |assumption].
    + apply Hfresh; [by right | assumption].
    + intros d0 Hd0 Heq. apply dim_key_inj in Heq as [-> _]; [|assumption..].
      contradiction.
  - intros s rows. rewrite Obj_get_set. destruct (decide (symbol = s)) as [->|]; [|apply Hns].
    intros [= <-].
    exact (eq_ind_r (Forall (Forall in_unit_interval)) (scale_rows_unit rf Hw) Hrows).
Qed.

(** C10, as the code has it.  On a processor that holds no normalizer entry
    for the keys of the sources, and for series of finite numbers, every
    entry of the [X] and [Y] that [prepareTrainingData] returns lies in
    [0, 1] (exact arithmetic). *)
Theorem fresh_windows_in_unit_interval (this : DataProcessor (N:=Exact)) msd
    (targetSymbol : string) (lookback forecast : nat) (data : TrainingData) :
  NoDup (Obj.keys msd) ->
  (forall entry, entry ∈ msd -> Forall finite_candle entry.2) ->
  (forall symbol dim, symbol ∈ Obj.keys msd -> dim < 5 ->
     normalizers this !! dim_key symbol dim = None) ->
  (prepareTrainingData this msd targetSymbol lookback forecast).2 = Returned data ->
  Forall (Forall (Forall in_unit_interval)) (X data) /\
  Forall (Forall (Forall in_unit_interval)) (Y data).
Proof.
  intros Hnd Hfin Hfresh H.
  destruct (minLength_of msd) as [minLength|] eqn:Hmin.
  2:{ unfold prepareTrainingData in H. rewrite Hmin in H. cbn in H.
      destruct forecast; discriminate. }
  rewrite (prepareTrainingData_eq _ _ _ _ _ _ Hmin) in H. cbn [snd] in H.
  assert (all_entries (N:=Exact) in_unit_interval (normalize_sources minLength (normalizers this) msd).2) as Hns.
  { apply normalize_sources_unit; try assumption. intros s rows. cbn. discriminate. }
  set (ns := (normalize_sources minLength (normalizers this) msd).2) in *.
  apply bind_Returned_inv in H as (xy & Hxy & [= <-]). cbn [X Y].
  exact (samples_all (N:=Exact) in_unit_interval _ _ _ _ _ _ _ Hns Hxy).
Qed.
End FreshWindows.

(** * Lifecycle *)

Section Lifecycle.
Context {N : JsNumber} {M : Type} (tf : TensorFlow M).
Implicit Types (this : SSMAttentionModel M).

End Lifecycle.

(** * Direction accuracy *)

Section DirectionCount.
Context {N : JsNumber}.
Implicit Types (predictions actuals : list (list (list num))) (rows : list (list num)).

Lemma direction_steps_count actuals i t rows acc acc' :
  direction_steps actuals i t rows acc = Returned acc' ->
  acc'.2 = acc.2 + length rows /\ acc.1 <= acc'.1 <= acc.1 + length rows.
Proof.
  revert t acc. induction rows as [|row rest IH]; intros t acc H.
  - cbn in H. injection H as <-. cbn. lia.
  - cbn [direction_steps] in H. apply bind_Returned_inv in H as (arow & _ & H).
    apply IH in H. cbn [fst snd length] in *.
    destruct (Bool.eqb _ _); lia.
Qed.

Lemma direction_samples_count actuals i predictions acc acc' :
  direction_samples actuals i predictions acc = Returned acc' ->
  acc'.2 = acc.2 + steps predictions /\
  acc.1 <= acc'.1 <= acc.1 + steps predictions.
Proof.
  unfold steps. revert i acc. induction predictions as [|rows rest IH]; intros i acc H.
  - cbn in H. injection H as <-. cbn. lia.
  - cbn [direction_samples] in H. apply bind_Returned_inv in H as (acc1 & H1 & H).
    apply direction_steps_count in H1. apply IH in H.
    cbn [concat]. rewrite length_app. lia.
Qed.

Lemma direction_steps_zip actuals i t rows acc s' :
  actuals !! i = Some s' -> t + length rows <= length s' ->
  direction_steps actuals i t rows acc =
    Returned (acc.1 + length (filter (fun p => agree p.1 p.2 = true)
                                (zip rows (drop t s'))),
              acc.2 + length rows).
Proof.
  intros Hi. revert t acc. induction rows as [|row rest IH]; intros t acc Hlen.
  - cbn. destruct acc. cbn. by rewrite !Nat.add_0_r.
  - cbn [length] in Hlen. cbn [direction_steps]. unfold actual_row. rewrite Hi.
    destruct (lookup_lt_is_Some_2 s' t) as [arow Harow]; [lia|].
    rewrite Harow. cbn [mbind outcome_bind]. rewrite IH by lia.
    rewrite (drop_S _ _ _ Harow). cbn [zip zip_with fst snd length].
    rewrite filter_cons. cbn [fst snd].
    change (Bool.eqb (direction row) (direction arow)) with (agree row arow).
    destruct (agree row arow) eqn:E.
    + rewrite decide_True by reflexivity. cbn [length]. f_equal. f_equal; lia.
    + rewrite decide_False by discriminate. f_equal. f_equal; lia.
Qed.

Lemma direction_samples_zip actuals i predictions acc :
  (forall j s, predictions !! j = Some s ->
     exists s', actuals !! (i + j) = Some s' /\ length s <= length s') ->
  direction_samples actuals i predictions acc =
    Returned (acc.1 + agreeing predictions (drop i actuals), acc.2 + steps predictions).
Proof.
  unfold agreeing, steps. revert i acc.
  induction predictions as [|rows rest IH]; intros i acc H.
  - cbn. destruct acc. cbn. by rewrite !Nat.add_0_r.
  - cbn [direction_samples].
    destruct (H 0 rows eq_refl) as (s' & Hs' & Hlen). rewrite Nat.add_0_r in Hs'.
    rewrite (direction_steps_zip actuals i 0 rows acc s' Hs') by lia.
    cbn [mbind outcome_bind]. rewrite IH.
    2:{ intros j s Hj. replace (S i + j) with (i + S j) by lia. by apply H. }
    rewrite (drop_S _ _ _ Hs'). cbn [zip_with concat fst snd].
    rewrite filter_app, !length_app, drop_0. f_equal. f_equal; lia.
Qed.

(** On identical inputs every step counts as correct. *)
Lemma direction_steps_same predictions i t rows acc s :
  predictions !! i = Some s -> drop t s = rows ->
  direction_steps predictions i t rows acc =
    Returned (acc.1 + length rows, acc.2 + length rows).
Proof.
  intros Hi. revert t acc. induction rows as [|row rest IH]; intros t acc Hdrop.
  - cbn. destruct acc. cbn. by rewrite !Nat.add_0_r.
  - cbn [direction_steps]. unfold actual_row. rewrite Hi.
    assert (s !! t = Some row) as ->.
    { rewrite <- (Nat.add_0_r t), <- lookup_drop, Hdrop. reflexivity. }
    cbn. rewrite Bool.eqb_reflx. rewrite (IH (S t)).
    + cbn [fst snd length]. f_equal. f_equal; lia.
    + transitivity (drop 1 (drop t s)); [rewrite drop_drop; f_equal; lia|].
      rewrite Hdrop. reflexivity.
Qed.

Lemma direction_samples_same predictions i samples acc :
  drop i predictions = samples ->
  direction_samples predictions i samples acc =
    Returned (acc.1 + steps samples, acc.2 + steps samples).
Proof.
  unfold steps. revert i acc. induction samples as [|rows rest IH]; intros i acc Hdrop.
  - cbn. destruct acc. cbn. by rewrite !Nat.add_0_r.
  - cbn [direction_samples].
    assert (predictions !! i = Some rows) as Hi.
    { rewrite <- (Nat.add_0_r i), <- lookup_drop, Hdrop. reflexivity. }
    rewrite (direction_steps_same predictions i 0 rows acc rows Hi eq_refl). cbn.
    rewrite (IH (S i)).
    + cbn [fst snd concat]. rewrite length_app. f_equal. f_equal; lia.
    + transitivity (drop 1 (drop i predictions)); [rewrite drop_drop; f_equal; lia|].
      rewrite Hdrop. reflexivity.
Qed.
End DirectionCount.

Section DirectionAccuracy.
Local Open Scope R_scope.
Implicit Types (predictions actuals : list (list (list (num (JsNumber:=Exact))))).

Lemma share_bounds (correct total : nat) :
  (correct <= total)%nat -> 0 <= share correct total <= 1.
Proof.
  intros Hle. unfold share. destruct (Nat.eqb_spec total 0) as [->|Hne]; [lra|].
  assert (0 < INR total) as Hpos by (apply lt_0_INR; lia).
  pose proof (pos_INR correct) as Hc. apply le_INR in Hle.
  pose proof (Rinv_0_lt_compat _ Hpos) as Hinv.
  pose proof (Rinv_r (INR total) ltac:(lra)) as Hone.
  unfold Rdiv. split; nra.
Qed.

Lemma accuracy_value (correct total : nat) :
  (if (0 <? total)%nat then div (JsNumber:=Exact) (of_nat correct) (of_nat total)
   else of_Z 0) = Fin (share correct total).
Proof.
  unfold share. destruct total as [|total]; [reflexivity|].
  cbn [Nat.ltb Nat.leb Nat.eqb]. rewrite !exact_of_nat. apply exact_div.
  apply not_0_INR. lia.
Qed.

Lemma calculateDirectionAccuracy_eq predictions actuals acc :
  direction_samples actuals 0 predictions (0, 0)%nat = Returned acc ->
  calculateDirectionAccuracy predictions actuals
    = Returned (Fin (share acc.1 (steps predictions))) /\
  (acc.1 <= steps predictions)%nat.
Proof.
  intros H. unfold calculateDirectionAccuracy. rewrite H. cbn [mbind outcome_bind mret outcome_ret].
  apply direction_samples_count in H. cbn [fst snd] in H.
  destruct H as [H2 H1]. rewrite H2, Nat.add_0_l, accuracy_value. split; [reflexivity | lia].
Qed.

(** C8, as the code has it.  The result is [correct / total] over all
    (sample, timestep) pairs, where a pair is correct when prediction and
    actual agree on whether close is above open; it lies in [0, 1]; it is
    returned, with the agreeing pairs counted position by position,
    whenever [actuals] has a row for every row of [predictions];
    it is 0 when there is no pair, and 1 on identical inputs with at least
    one pair (exact arithmetic). *)
Theorem direction_accuracy_exact predictions actuals :
  (forall r, calculateDirectionAccuracy predictions actuals = Returned r ->
     exists correct, (correct <= steps predictions)%nat /\
       r = Fin (share correct (steps predictions)) /\
       0 <= share correct (steps predictions) <= 1) /\
  (covers predictions actuals ->
     calculateDirectionAccuracy predictions actuals
       = Returned (Fin (share (agreeing predictions actuals) (steps predictions)))) /\
  (steps predictions = 0%nat ->
     forall r, calculateDirectionAccuracy predictions actuals = Returned r -> r = Fin 0) /\
  ((0 < steps predictions)%nat ->
     calculateDirectionAccuracy predictions predictions = Returned (Fin 1)).
Proof.
  assert (forall r, calculateDirectionAccuracy predictions actuals = Returned r ->
            exists correct, (correct <= steps predictions)%nat /\
              r = Fin (share correct (steps predictions))) as Hshape.
  { intros r H. unfold calculateDirectionAccuracy in H.
    destruct (direction_samples actuals 0 predictions (0, 0)%nat) as [acc| |] eqn:E;
      try discriminate.
    destruct (calculateDirectionAccuracy_eq _ _ _ E) as [Heq Hle].
    unfold calculateDirectionAccuracy in Heq. rewrite E in Heq. rewrite Heq in H.
    injection H as <-. eauto. }
  repeat split.
  - intros r H. destruct (Hshape r H) as (c & Hc & ->).
    exists c. repeat split; try assumption; by apply share_bounds.
  - intros Hcov.
    pose proof (direction_samples_zip actuals 0 predictions (0, 0)%nat Hcov) as Hacc.
    rewrite drop_0 in Hacc.
    destruct (calculateDirectionAccuracy_eq _ _ _ Hacc) as [-> _]. reflexivity.
  - intros Hz r H. destruct (Hshape r H) as (c & Hc & ->).
    unfold share. rewrite Hz. reflexivity.
  - intros Hpos.
    pose proof (direction_samples_same predictions 0 predictions (0, 0)%nat eq_refl) as H.
    cbn [fst snd Nat.add] in H.
    destruct (calculateDirectionAccuracy_eq _ _ _ H) as [-> _]. cbn [fst].
    do 2 f_equal. unfold share. destruct (Nat.eqb_spec (steps predictions) 0); [lia|].
    apply Rdiv_diag. apply not_0_INR. lia.
Qed.
End DirectionAccuracy.

(** The amended C8 on identical predictions and actuals of two steps. *)
Lemma direction_accuracy_exact_witness :
  calculateDirectionAccuracy (N:=Exact)
    [[[Fin 1; Fin 3; Fin 0; Fin 2]; [Fin 5; Fin 5; Fin 4; Fin 4]]]
    [[[Fin 1; Fin 3; Fin 0; Fin 2]; [Fin 5; Fin 5; Fin 4; Fin 4]]]
  = Returned (Fin 1).
Proof.
  apply (direction_accuracy_exact
           [[[Fin 1; Fin 3; Fin 0; Fin 2]; [Fin 5; Fin 5; Fin 4; Fin 4]]]
           [[[Fin 1; Fin 3; Fin 0; Fin 2]; [Fin 5; Fin 5; Fin 4; Fin 4]]]).
  unfold steps. cbn. lia.
Defined.

(** C8 does not hold as stated: on a flat prediction against a falling
    actual the code counts the step as correct (result 1), the comparison
    of signs does not (result 0). *)
Lemma flat_and_falling_count_as_agreeing :
  calculateDirectionAccuracy (N:=Float64) [[[1; 1; 1; 1]]]%float [[[2; 2; 1; 1]]]%float
    = Returned 1%float /\
  sign_accuracy (N:=Float64) [[[1; 1; 1; 1]]]%float [[[2; 2; 1; 1]]]%float = 0%float.
Proof. vm_compute. split; reflexivity. Qed.

Section AttentionWeights.
Local Open Scope R_scope.

Lemma exact_sum_from (l : list R) (a : R) :
  fold_left (add (JsNumber:=Exact)) (map Fin l) (Fin a) = Fin (fold_left Rplus l a).
Proof.
  revert a. induction l as [|x l IH]; intros a; [reflexivity|].
  cbn [map fold_left]. by rewrite exact_add, IH.
Qed.

Lemma exact_sum (l : list R) : sum (N:=Exact) (map Fin l) = Fin (fold_left Rplus l 0).
Proof. apply exact_sum_from. Qed.

Lemma fold_Rplus_scaled (l : list R) (a s : R) :
  fold_left Rplus (map (fun x => x / s) l) (a / s) = fold_left Rplus l a / s.
Proof.
  revert a. induction l as [|x l IH]; intros a; [reflexivity|].
  cbn [map fold_left]. rewrite <- IH. f_equal. unfold Rdiv. ring.
Qed.

Lemma fold_Rplus_lower (l : list R) (a c : R) :
  Forall (fun x => c <= x) l -> a + c * INR (length l) <= fold_left Rplus l a.
Proof.
  intros H. revert a. induction H as [|x l Hx _ IH]; intros a.
  - cbn. lra.
  - cbn [fold_left length]. rewrite S_INR. specialize (IH (a + x)). lra.
Qed.

Lemma fold_Rplus_repeat (c : R) (n : nat) (a : R) :
  fold_left Rplus (repeat c n) a = a + INR n * c.
Proof.
  revert a. induction n as [|n IH]; intros a.
  - cbn. lra.
  - cbn [repeat fold_left]. rewrite IH, S_INR. lra.
Qed.

Lemma exact_dec (m : Z) (k : nat) :
  dec (N:=Exact) m k = Fin (IZR m / IZR (10 ^ Z.of_nat k)) /\
  0 < IZR (10 ^ Z.of_nat k).
Proof.
  assert (0 < IZR (10 ^ Z.of_nat k)) as Hpos.
  { apply IZR_lt. apply Z.pow_pos_nonneg; lia. }
  split; [|assumption]. unfold dec. apply exact_div. lra.
Qed.

(** Dividing finite, positive weights by their sum. *)
Lemma normalised_weights (rws : list R) (c : R) :
  rws <> [] -> 0 < c -> Forall (fun x => c <= x) rws ->
  let weights := map Fin rws in
  let out := map (fun w => div (JsNumber:=Exact) w (sum weights)) weights in
  Forall nonneg out /\ sum out = Fin 1.
Proof.
  intros Hne Hc Hall. cbn zeta. rewrite exact_sum.
  set (s := fold_left Rplus rws 0).
  assert (0 < s) as Hs.
  { pose proof (fold_Rplus_lower rws 0 c Hall) as H. fold s in H.
    destruct rws as [|x rws]; [contradiction|]. cbn [length] in H.
    rewrite S_INR in H. pose proof (pos_INR (length rws)). nra. }
  assert (map (fun w => div (JsNumber:=Exact) w (Fin s)) (map Fin rws)
          = map Fin (map (fun x => x / s) rws)) as ->.
  { rewrite !map_map. apply map_ext. intros x. apply exact_div. lra. }
  split.
  - apply Forall_map, Forall_map. eapply Forall_impl; [exact Hall|].
    intros x Hx. cbn. apply Rmult_le_pos; [lra|].
    apply Rlt_le, Rinv_0_lt_compat, Hs.
  - rewrite exact_sum. f_equal.
    replace 0 with (0 / s) at 1 by (unfold Rdiv; ring).
    rewrite fold_Rplus_scaled. fold s. apply Rdiv_diag. lra.
Qed.

Lemma floored_weights {A} (f : nat -> A -> num (JsNumber:=Exact)) (c : R) (l : list A) :
  (forall i x, exists r, f i x = Fin r /\ c <= r) ->
  exists rws, imap f l = map Fin rws /\ Forall (fun x => c <= x) rws /\
              length rws = length l.
Proof.
  revert f. induction l as [|x l IH]; intros f Hf.
  - exists []. repeat split. constructor.
  - destruct (Hf 0%nat x) as (r & Hr & Hc).
    destruct (IH (f ∘ S)) as (rws & Hrws & Hall & Hlen).
    { intros i y. apply Hf. }
    exists (r :: rws). cbn [imap map length]. rewrite Hr, Hrws.
    repeat split; [by constructor | by rewrite Hlen].
Qed.

(** C7, as the code has it.  For a non-empty list of source names, and a
    seed (the last recorded loss) that is a finite number when the model
    is trained, the result has one weight per name, every weight is
    non-negative and the weights sum to 1; on an untrained model every
    weight is [1 / n] (exact arithmetic). *)
Theorem attention_weights_exact {M : Type} (this : SSMAttentionModel (N:=Exact) M)
    (sourceNames : list string) :
  sourceNames <> [] ->
  (trained this = true -> finite (seed_of this)) ->
  let weights := getSourceAttentionWeights XReal.sin this sourceNames in
  length weights = length sourceNames /\
  Forall nonneg weights /\
  sum weights = Fin 1 /\
  (trained this = false ->
   weights = repeat (Fin (1 / INR (length sourceNames))) (length sourceNames)).
Proof.
  intros Hne Hseed. cbn zeta. unfold getSourceAttentionWeights.
  set (n := length sourceNames).
  assert (INR n <> 0) as Hn.
  { apply not_0_INR. subst n. destruct sourceNames; [contradiction | cbn; lia]. }
  assert (div (JsNumber:=Exact) (of_Z 1) (of_nat n) = Fin (1 / INR n)) as Hbase.
  { rewrite exact_of_nat. by apply exact_div. }
  destruct (trained this) eqn:Ht; cbn [negb].
  - destruct (finite_Fin _ (Hseed eq_refl)) as [s Hs]. rewrite Hs. cbv zeta.
    destruct (exact_dec 5 2) as [H5 H5pos]. destruct (exact_dec 2 1) as [H2 _].
    destruct (floored_weights
      (fun (i : nat) (_ : string) =>
         Math_max (N:=Exact)
           [dec 5 2;
            @add Exact (@div Exact (@of_Z Exact 1) (of_nat (N:=Exact) n))
              (@mul Exact
                 (XReal.sin (@mul Exact (@mul Exact (Fin s) (of_nat (N:=Exact) (i + 1)))
                                        (@of_Z Exact 10)))
                 (dec (N:=Exact) 2 1))])
      (5 / IZR (10 ^ Z.of_nat 2)) sourceNames) as (rws & Hrws & Hall & Hlen).
    { intros i _. rewrite Hbase, H5, H2, exact_of_nat.
      change (@of_Z Exact 10) with (Fin 10).
      rewrite !exact_mul. cbn [XReal.sin]. rewrite exact_mul, exact_add.
      unfold Math_max. cbn [fold_left]. change (@ninf Exact) with NInf.
      rewrite exact_max2_ninf, exact_max2. eexists. split; [reflexivity|].
      apply Rmax_l. }
    rewrite Hrws.
    destruct (normalised_weights rws (5 / IZR (10 ^ Z.of_nat 2))) as [Hnn Hsum].
    + intros ->. destruct sourceNames; [contradiction | discriminate].
    + apply Rdiv_lt_0_compat; lra.
    + assumption.
    + repeat split; [by rewrite !length_map | assumption | assumption | discriminate].
  - rewrite Hbase.
    assert (@map string (@num Exact) (fun _ : string => Fin (1 / INR n)) sourceNames
            = map Fin (repeat (1 / INR n) n)) as Heq.
    { subst n. clear. generalize (1 / INR (length sourceNames)). intros c.
      induction sourceNames as [|x l IH]; [reflexivity|].
      cbn [map length repeat]. f_equal. exact IH. }
    rewrite Heq. repeat split.
    + by rewrite length_map, repeat_length.
    + apply Forall_map, Forall_forall. intros x Hx%list_elem_of_In%repeat_spec. subst x.
      cbn. apply Rmult_le_pos; [lra|]. apply Rlt_le, Rinv_0_lt_compat.
      pose proof (pos_INR n). lra.
    + rewrite exact_sum, fold_Rplus_repeat. f_equal. field. assumption.
    + intros _. clear. generalize (1 / INR n). intros c.
      induction n as [|k IH]; [reflexivity|]. cbn [map repeat]. f_equal. exact IH.
Qed.
End AttentionWeights.

Section Correlation.
Local Open Scope R_scope.

Lemma isum_nonneg (g : nat -> R) (l : list nat) : (forall i, 0 <= g i) -> 0 <= isum g l.
Proof.
  intros H. induction l as [|i l IH]; [cbn; lra|].
  change (isum g (i :: l)) with (g i + isum g l). specialize (H i). lra.
Qed.

Lemma two_products (x y a b c : R) :
  0 <= a -> 0 <= b -> c * c <= a * b -> 2 * (x * y) * c <= x * x * b + y * y * a.
Proof.
  intros Ha Hb Hc.
  set (t := x * x * b + y * y * a). set (w := 2 * (x * y) * c).
  assert (0 <= t) as Ht by (subst t; nra).
  assert (w * w <= t * t) as Hsq.
  { assert (w * w = 4 * (x * x) * (y * y) * (c * c)) as -> by (subst w; ring).
    assert (t * t = (x * x * b - y * y * a) * (x * x * b - y * y * a)
                    + 4 * (x * x) * (y * y) * (a * b)) as -> by (subst t; ring).
    assert (0 <= (x * x) * (y * y)) as Hxy
      by (apply Rmult_le_pos; apply Rle_0_sqr).
    assert (0 <= a * b - c * c) as Hdiff by lra.
    pose proof (Rmult_le_pos _ _ Hxy Hdiff) as Hprod.
    pose proof (Rle_0_sqr (x * x * b - y * y * a)) as Hsqr. unfold Rsqr in Hsqr.
    lra. }
  destruct (Rle_dec w t) as [|Hn]; [assumption|]. exfalso. nra.
Qed.

Lemma cauchy_schwarz (u v : nat -> R) (l : list nat) :
  isum (fun i => u i * v i) l * isum (fun i => u i * v i) l
  <= isum (fun i => u i * u i) l * isum (fun i => v i * v i) l.
Proof.
  induction l as [|i l IH]; [cbn; lra|].
  change (isum ?g (i :: l)) with (g i + isum g l).
  repeat match goal with
         | |- context [isum ?g (i :: l)] =>
             change (isum g (i :: l)) with (g i + isum g l)
         end. cbv beta.
  pose proof (isum_nonneg (fun i => u i * u i) l ltac:(intros; nra)) as Ha.
  pose proof (isum_nonneg (fun i => v i * v i) l ltac:(intros; nra)) as Hb.
  pose proof (two_products (u i) (v i) _ _ _ Ha Hb IH) as H.
  set (a := isum (fun i => u i * u i) l) in *.
  set (b := isum (fun i => v i * v i) l) in *.
  set (c := isum (fun i => u i * v i) l) in *. nra.
Qed.

Lemma correlation_of_bounds (u v : nat -> R) (l : list nat) :
  -1 <= correlation_of
          {| r_numerator := isum (fun i => u i * v i) l;
             r_denomPred := isum (fun i => u i * u i) l;
             r_denomActual := isum (fun i => v i * v i) l |} <= 1.
Proof.
  unfold correlation_of. cbn [r_numerator r_denomPred r_denomActual].
  pose proof (isum_nonneg (fun i => u i * u i) l ltac:(intros; nra)) as Ha.
  pose proof (isum_nonneg (fun i => v i * v i) l ltac:(intros; nra)) as Hb.
  pose proof (cauchy_schwarz u v l) as Hcs.
  set (a := isum (fun i => u i * u i) l) in *.
  set (b := isum (fun i => v i * v i) l) in *.
  set (c := isum (fun i => u i * v i) l) in *.
  destruct (Rlt_dec 0 (R_sqrt.sqrt a * R_sqrt.sqrt b)) as [Hd|]; [|lra].
  set (d := R_sqrt.sqrt a * R_sqrt.sqrt b) in *.
  assert (d * d = a * b) as Hdd.
  { subst d. pose proof (sqrt_sqrt a Ha). pose proof (sqrt_sqrt b Hb). nra. }
  assert (- d <= c <= d) as [Hlo Hhi].
  { split; destruct (Rle_dec c d), (Rle_dec (- d) c); try lra; exfalso; nra. }
  pose proof (Rinv_0_lt_compat _ Hd) as Hinv.
  pose proof (Rinv_r d ltac:(lra)) as Hone.
  unfold Rdiv. split; nra.
Qed.

Lemma concat_map_Fin (l : list (list R)) :
  concat (map (map Fin) l) = map Fin (concat l).
Proof.
  induction l as [|x l IH]; [reflexivity|]. cbn [map concat]. by rewrite IH, map_app.
Qed.

Lemma flat_lift (batch : list (list (list R))) :
  concat (concat (lift batch)) = map Fin (concat (concat batch)).
Proof.
  unfold lift. rewrite <- concat_map_Fin. f_equal.
  induction batch as [|x l IH]; [reflexivity|].
  cbn [map concat]. by rewrite IH, map_app.
Qed.

Lemma exact_sqrt (x : R) : 0 <= x -> sqrt (JsNumber:=Exact) (Fin x) = Fin (R_sqrt.sqrt x).
Proof. intros H. cbn. destruct (Rlt_dec x 0); [lra | reflexivity]. Qed.

Lemma exact_lookup (L : list (num (JsNumber:=Exact))) (l : list R) (i : nat) :
  L = map Fin l -> (i < length l)%nat -> of_undef (L !! i) = Fin (nth i l 0).
Proof.
  intros -> H. destruct (lookup_lt_is_Some_2 l i H) as [x Hx].
  change (map Fin l !! i) with ((Fin <$> l) !! i). rewrite list_lookup_fmap, Hx. cbn.
  f_equal. symmetry. by apply nth_lookup_Some with (d := 0) in Hx.
Qed.

Lemma exact_lookup_none (L : list (num (JsNumber:=Exact))) (l : list R) (i : nat) :
  L = map Fin l -> (length l <= i)%nat -> of_undef (L !! i) = NaN.
Proof.
  intros -> H. change (map Fin l !! i) with ((Fin <$> l) !! i).
  rewrite list_lookup_fmap, (lookup_ge_None_2 l i H). reflexivity.
Qed.

Lemma exact_max2_nan_r (a : R) : max2 (N:=Exact) (Fin a) NaN = NaN.
Proof. unfold max2. rewrite exact_isnan. reflexivity. Qed.

Lemma exact_mul_nan_l (b : xreal) : mul (JsNumber:=Exact) NaN b = NaN.
Proof. reflexivity. Qed.

Lemma exact_add_nan_r (a : xreal) : add (JsNumber:=Exact) a NaN = NaN.
Proof. destruct a; reflexivity. Qed.

Lemma exact_mul_nan_r (a : xreal) : mul (JsNumber:=Exact) a NaN = NaN.
Proof. destruct a; reflexivity. Qed.

Section Loop.
Context (pf af : list R) (mp ma : R).

Lemma correlation_step_finite (i : nat) (a b c : R) :
  (i < length pf)%nat -> (i < length af)%nat ->
  correlation_step (N:=Exact) (map Fin pf) (map Fin af) (Fin mp) (Fin ma)
    {| numerator := Fin a; denomPred := Fin b; denomActual := Fin c |} i
  = {| numerator := Fin (a + (nth i pf 0 - mp) * (nth i af 0 - ma));
       denomPred := Fin (b + (nth i pf 0 - mp) * (nth i pf 0 - mp));
       denomActual := Fin (c + (nth i af 0 - ma) * (nth i af 0 - ma)) |}.
Proof.
  intros Hp Ha. unfold correlation_step. cbn [numerator denomPred denomActual].
  rewrite (exact_lookup _ pf i eq_refl Hp), (exact_lookup _ af i eq_refl Ha).
  by rewrite !exact_sub, !exact_mul, !exact_add.
Qed.

Lemma correlation_fold (l : list nat) (a b c : R) :
  (forall i, i ∈ l -> (i < length pf)%nat /\ (i < length af)%nat) ->
  fold_left (correlation_step (N:=Exact) (map Fin pf) (map Fin af) (Fin mp) (Fin ma)) l
    {| numerator := Fin a; denomPred := Fin b; denomActual := Fin c |}
  = {| numerator := Fin (a + isum (fun i => (nth i pf 0 - mp) * (nth i af 0 - ma)) l);
       denomPred := Fin (b + isum (fun i => (nth i pf 0 - mp) * (nth i pf 0 - mp)) l);
       denomActual := Fin (c + isum (fun i => (nth i af 0 - ma) * (nth i af 0 - ma)) l) |}.
Proof.
  revert a b c. induction l as [|i l IH]; intros a b c H.
  - cbn. by rewrite !Rplus_0_r.
  - destruct (H i) as [Hp Ha]; [left|].
    cbn [fold_left]. rewrite correlation_step_finite by assumption.
    rewrite IH by (intros j Hj; apply H; by right).
    repeat match goal with
           | |- context [isum ?g (i :: l)] =>
               change (isum g (i :: l)) with (g i + isum g l)
           end.
    cbv beta. f_equal; f_equal; ring.
Qed.

Lemma correlation_fold_nan_stays (l : list nat) (acc : Sums) :
  denomActual acc = NaN ->
  denomActual
    (fold_left (correlation_step (N:=Exact) (map Fin pf) (map Fin af) (Fin mp) (Fin ma))
       l acc) = NaN.
Proof.
  revert acc. induction l as [|i l IH]; intros acc H; [assumption|].
  cbn [fold_left]. apply IH. unfold correlation_step. cbn [denomActual].
  rewrite H. reflexivity.
Qed.

Lemma correlation_fold_nan (l : list nat) (acc : Sums) (i : nat) :
  i ∈ l -> (length af <= i)%nat ->
  denomActual
    (fold_left (correlation_step (N:=Exact) (map Fin pf) (map Fin af) (Fin mp) (Fin ma))
       l acc) = NaN.
Proof.
  intros Hi Hlen. revert acc. induction l as [|j l IH]; intros acc; [inversion Hi|].
  cbn [fold_left]. inversion Hi; subst.
  - apply correlation_fold_nan_stays. unfold correlation_step. cbn [denomActual].
    rewrite (exact_lookup_none _ af _ eq_refl Hlen).
    change (sub (JsNumber:=Exact) NaN (Fin ma)) with NaN.
    cbn [mul Exact XReal.mul]. apply exact_add_nan_r.
  - by apply IH.
Qed.
End Loop.

(** The value of [calculateCorrelation] on finite batches. *)
Lemma calculateCorrelation_value (predictions actuals : list (list (list R))) :
  let pf := concat (concat predictions) in
  let af := concat (concat actuals) in
  calculateCorrelation (lift predictions) (lift actuals) =
  if decide (length pf = 0%nat) then Fin 0
  else if decide (length pf <= length af)%nat
       then Fin (correlation_of (correlation_sums pf af))
       else Fin 0.
Proof.
  cbn zeta. unfold calculateCorrelation. rewrite !flat_lift.
  set (pf := concat (concat predictions)). set (af := concat (concat actuals)).
  rewrite length_map.
  destruct (decide (length pf = 0%nat)) as [|Hn]; [reflexivity|].
  assert (INR (length pf) <> 0) as HnR by (apply not_0_INR; assumption).
  rewrite !exact_sum, exact_of_nat, !exact_div by assumption.
  change (@of_Z Exact 0) with (Fin 0).
  destruct (decide (length pf <= length af)%nat) as [Hle|Hgt].
  - rewrite correlation_fold.
    2:{ intros i Hi. apply elem_of_seq in Hi. lia. }
    cbn [numerator denomPred denomActual]. rewrite !Rplus_0_l.
    set (mp := fold_left Rplus pf 0 / INR (length pf)).
    set (ma := fold_left Rplus af 0 / INR (length pf)).
    set (C := isum (fun i => (nth i pf 0 - mp) * (nth i af 0 - ma)) (seq 0 (length pf))).
    set (A := isum (fun i => (nth i pf 0 - mp) * (nth i pf 0 - mp)) (seq 0 (length pf))).
    set (B := isum (fun i => (nth i af 0 - ma) * (nth i af 0 - ma)) (seq 0 (length pf))).
    assert (0 <= A) as HA by (apply isum_nonneg; intros; exact (Rle_0_sqr _)).
    assert (0 <= B) as HB by (apply isum_nonneg; intros; exact (Rle_0_sqr _)).
    rewrite !exact_sqrt, exact_mul by assumption.
    unfold gtb, correlation_of, correlation_sums.
    cbn [r_numerator r_denomPred r_denomActual].
    fold mp ma. fold C A B.
    destruct (Rlt_dec 0 (R_sqrt.sqrt A * R_sqrt.sqrt B)) as [Hd|Hd].
    + rewrite exact_ltb_true by assumption. apply exact_div. lra.
    + by rewrite exact_ltb_false.
  - set (sums := fold_left _ _ _).
    assert (denomActual sums = NaN) as HNaN.
    { subst sums. apply (correlation_fold_nan _ _ _ _ _ _ (length af)).
      - apply elem_of_seq. lia.
      - lia. }
    rewrite HNaN. cbn [sqrt Exact XReal.sqrt]. rewrite exact_mul_nan_r. reflexivity.
Qed.

Lemma fold_left_Rsum (l : list R) (a : R) : fold_left Rplus l a = a + Rsum l.
Proof.
  revert a. induction l as [|x l IH]; intros a; cbn [fold_left]; unfold Rsum; cbn [fold_right].
  - lra.
  - rewrite IH. unfold Rsum. lra.
Qed.

Lemma isum_shift (f : nat -> R) (k n : nat) :
  isum f (seq (S k) n) = isum (fun i => f (S i)) (seq k n).
Proof.
  revert k. induction n as [|n IH]; intros k; [reflexivity|].
  cbn [seq]. change (isum ?g (?i :: ?l)) with (g i + isum g l).
  change (isum (fun i => f (S i)) (k :: seq (S k) n))
    with (f (S k) + isum (fun i => f (S i)) (seq (S k) n)).
  by rewrite IH.
Qed.

Lemma isum_zip (g : R -> R -> R) (p a : list R) (n : nat) :
  length a = length p -> n = length p ->
  isum (fun i => g (nth i p 0) (nth i a 0)) (seq 0 n) = Rsum (zip_with g p a).
Proof.
  intros Hlen ->. revert a Hlen. induction p as [|x p IH]; intros [|y a] Hlen; try discriminate; [reflexivity|].
  cbn [length seq zip_with]. unfold Rsum. cbn [fold_right].
  change (isum ?f (0%nat :: ?l)) with (f 0%nat + isum f l). cbv beta. cbn [nth].
  rewrite isum_shift. cbn [nth]. rewrite IH by (cbn in Hlen; lia). reflexivity.
Qed.

Lemma zip_with_deviations (p a : list R) (mp ma : R) :
  zip_with Rmult (map (fun x => x - mp) p) (map (fun y => y - ma) a)
  = zip_with (fun x y => (x - mp) * (y - ma)) p a.
Proof.
  revert a. induction p as [|x p IH]; intros [|y a]; try reflexivity.
  cbn [map zip_with]. by rewrite IH.
Qed.

(** With as many actuals as predictions the sums of the loop are the sums
    of products of deviations from the means. *)
Lemma correlation_sums_pearson (pf af : list R) :
  length af = length pf ->
  correlation_of (correlation_sums pf af) = pearson pf af.
Proof.
  intros Hlen. unfold correlation_sums, pearson, correlation_of, dot, deviations, mean.
  cbn [r_numerator r_denomPred r_denomActual].
  rewrite !fold_left_Rsum, !Rplus_0_l, !zip_with_deviations, Hlen.
  rewrite (isum_zip (fun x y => (x - Rsum pf / INR (length pf))
                                * (y - Rsum af / INR (length pf))) pf af _ Hlen eq_refl).
  rewrite (isum_zip (fun x y => (x - Rsum pf / INR (length pf))
                                * (y - Rsum pf / INR (length pf))) pf pf _ eq_refl eq_refl).
  rewrite (isum_zip (fun x y => (x - Rsum af / INR (length pf))
                                * (y - Rsum af / INR (length pf))) af af _ eq_refl
             (eq_sym Hlen)).
  reflexivity.
Qed.

Lemma denomPred_deviations (pf af : list R) :
  r_denomPred (correlation_sums pf af) = dot (deviations pf) (deviations pf).
Proof.
  unfold correlation_sums, dot, deviations, mean. cbn [r_denomPred].
  rewrite !fold_left_Rsum, !Rplus_0_l, !zip_with_deviations.
  apply (isum_zip (fun x y => (x - Rsum pf / INR (length pf))
                              * (y - Rsum pf / INR (length pf))) pf pf _ eq_refl eq_refl).
Qed.

Lemma correlation_of_zero (s : RSums) :
  r_denomPred s = 0 \/ r_denomActual s = 0 -> correlation_of s = 0.
Proof.
  intros H. unfold correlation_of.
  destruct (Rlt_dec 0 _) as [Hd|]; [|reflexivity]. exfalso.
  destruct H as [H|H]; rewrite H, sqrt_0 in Hd; lra.
Qed.

(** C9, as the code has it.  On batches of finite numbers, in exact
    arithmetic: the result lies in [-1, 1]; with as many actuals as
    predictions it is the Pearson correlation coefficient of the two
    flattened series; it is 0 when the predictions have zero variance, or
    when the actuals (as many as the predictions) have; and it is 1 when
    predictions and actuals are the same batch with non-zero variance. *)
Theorem correlation_exact (predictions actuals : list (list (list R))) :
  let pf := concat (concat predictions) in
  let af := concat (concat actuals) in
  (exists r, calculateCorrelation (lift predictions) (lift actuals) = Fin r /\
             -1 <= r <= 1) /\
  (length af = length pf ->
   calculateCorrelation (lift predictions) (lift actuals) = Fin (pearson pf af)) /\
  (dot (deviations pf) (deviations pf) = 0 ->
   calculateCorrelation (lift predictions) (lift actuals) = Fin 0) /\
  (length af = length pf -> dot (deviations af) (deviations af) = 0 ->
   calculateCorrelation (lift predictions) (lift actuals) = Fin 0) /\
  (dot (deviations pf) (deviations pf) <> 0 ->
   calculateCorrelation (lift predictions) (lift predictions) = Fin 1).
Proof.
  cbn zeta. set (pf := concat (concat predictions)). set (af := concat (concat actuals)).
  assert (pearson [] [] = 0) as Hnil.
  { unfold pearson, dot, deviations. cbn. unfold Rsum. cbn. rewrite sqrt_0.
    destruct (Rlt_dec 0 _); [lra | reflexivity]. }
  pose proof (calculateCorrelation_value predictions actuals) as Hv.
  cbn zeta in Hv. fold pf af in Hv.
  repeat split.
  - rewrite Hv. destruct (decide (length pf = 0%nat)); [exists 0; split; [reflexivity | lra]|].
    destruct (decide (length pf <= length af)%nat); [|exists 0; split; [reflexivity | lra]].
    eexists. split; [reflexivity|]. unfold correlation_sums. apply correlation_of_bounds.
  - intros Hlen. rewrite Hv.
    destruct (decide (length pf = 0%nat)) as [Hz|].
    + destruct pf; [|discriminate]. destruct af; [|discriminate]. by rewrite Hnil.
    + rewrite decide_True by lia. by rewrite correlation_sums_pearson.
  - intros Hzero. rewrite Hv. destruct (decide (length pf = 0%nat)); [reflexivity|].
    destruct (decide (length pf <= length af)%nat); [|reflexivity].
    rewrite correlation_of_zero; [reflexivity|]. left. by rewrite denomPred_deviations.
  - intros Hlen Hzero. rewrite Hv. destruct (decide (length pf = 0%nat)); [reflexivity|].
    rewrite decide_True by lia. rewrite correlation_sums_pearson by assumption.
    unfold pearson. rewrite Hzero, sqrt_0, Rmult_0_r.
    destruct (Rlt_dec 0 0); [lra | reflexivity].
  - intros Hvar. pose proof (calculateCorrelation_value predictions predictions) as Hp.
    cbn zeta in Hp. fold pf in Hp. rewrite Hp.
    destruct (decide (length pf = 0%nat)) as [Hz|].
    { destruct pf; [|discriminate]. exfalso. apply Hvar. reflexivity. }
    rewrite decide_True by lia. rewrite correlation_sums_pearson by reflexivity.
    unfold pearson. set (S := dot (deviations pf) (deviations pf)) in *.
    assert (0 <= S) as HS.
    { subst S. rewrite <- (denomPred_deviations pf pf). unfold correlation_sums.
      cbn [r_denomPred]. apply isum_nonneg. intros. exact (Rle_0_sqr _). }
    rewrite (sqrt_sqrt S HS). destruct (Rlt_dec 0 S); [|lra].
    f_equal. apply Rdiv_diag. assumption.
Qed.
End Correlation.

(** * Technical indicators *)

Section IndicatorsExact.
Local Open Scope R_scope.

Lemma window_Fin (l : list R) period i :
  window (N:=Exact) (map Fin l) period i = map Fin (Rwindow l period i).
Proof.
  unfold window, Rwindow.
  change (map Fin l) with (Fin <$> l).
  by rewrite <- fmap_drop, <- fmap_take.
Qed.

Lemma Rwindow_length (l : list R) period i :
  (period <= i + 1)%nat -> (i < length l)%nat -> length (Rwindow l period i) = period.
Proof.
  intros H1 H2. unfold Rwindow. rewrite length_take, length_drop. lia.
Qed.

Lemma Rwindow_Forall (P : R -> Prop) (l : list R) period i :
  Forall P l -> Forall P (Rwindow l period i).
Proof. intros H. unfold Rwindow. by apply Forall_take, Forall_drop. Qed.

Lemma fold_Rplus_between (l : list R) (a lo hi : R) :
  Forall (between lo hi) l ->
  a + lo * INR (length l) <= fold_left Rplus l a <= a + hi * INR (length l).
Proof.
  intros H. revert a. induction H as [|x l [Hx1 Hx2] _ IH]; intros a.
  - cbn. lra.
  - cbn [fold_left length]. rewrite S_INR. specialize (IH (a + x)). lra.
Qed.

Lemma Rmean_between (l : list R) (period : nat) (lo hi : R) :
  (1 <= period)%nat -> length l = period -> Forall (between lo hi) l ->
  between lo hi (Rmean l period).
Proof.
  intros Hp Hlen H. unfold Rmean, between.
  pose proof (fold_Rplus_between l 0 lo hi H) as [H1 H2]. rewrite Hlen in *.
  assert (0 < INR period) as Hpos by (apply lt_0_INR; lia).
  set (s := fold_left Rplus l 0) in *.
  split; apply Rmult_le_reg_r with (INR period); try assumption;
    replace (s / INR period * INR period) with s by (field; lra); lra.
Qed.

Lemma exact_mean (l : list R) (period : nat) :
  (1 <= period)%nat ->
  div (JsNumber:=Exact) (sum (map Fin l)) (of_nat period) = Fin (Rmean l period).
Proof.
  intros Hp. rewrite exact_sum, exact_of_nat. apply exact_div.
  apply not_0_INR. lia.
Qed.

Lemma movingAverage_Fin (l : list R) (period : nat) :
  (1 <= period)%nat ->
  movingAverage (N:=Exact) (map Fin l) period = map Fin (RmovingAverage l period).
Proof.
  intros Hp. unfold movingAverage, RmovingAverage.
  change (map Fin l) with (Fin <$> l) at 2.
  change (map Fin (imap ?f l)) with (Fin <$> imap f l).
  rewrite imap_fmap, fmap_imap. apply imap_ext. intros i x Hx. unfold compose.
  destruct (i + 1 <? period)%nat; [reflexivity|].
  change (Fin <$> l) with (map Fin l).
  by rewrite window_Fin, exact_mean.
Qed.

Lemma RmovingAverage_between (l : list R) (period : nat) (lo hi : R) :
  (1 <= period)%nat -> Forall (between lo hi) l ->
  Forall (between lo hi) (RmovingAverage l period).
Proof.
  intros Hp Hl. unfold RmovingAverage. apply Forall_lookup. intros i v.
  rewrite list_lookup_imap.
  destruct (Nat.ltb_spec (i + 1) period);
    (destruct (l !! i) as [x|] eqn:Hx; [|discriminate]); cbn; intros [= <-].
  - eapply Forall_lookup_1; eauto.
  - apply Rmean_between; [assumption | | by apply Rwindow_Forall].
    apply Rwindow_length; [lia|]. by eapply lookup_lt_Some.
Qed.

(** X1.  The moving average of finite numbers (exact arithmetic, [period >= 1])
    has one entry per value: the value itself before index [period - 1],
    the mean of the last [period] values from there on; so it stays within
    any bounds of the series. *)
Theorem movingAverage_within (l : list R) (period : nat) (lo hi : R) :
  (1 <= period)%nat ->
  Forall (between lo hi) l ->
  exists r,
    movingAverage (N:=Exact) (map Fin l) period = map Fin r /\
    length r = length l /\
    (forall i, (i + 1 < period)%nat -> r !! i = l !! i) /\
    (forall i, (period <= i + 1)%nat -> (i < length l)%nat ->
       r !! i = Some (Rmean (Rwindow l period i) period)) /\
    Forall (between lo hi) r.
Proof.
  intros Hp Hl. exists (RmovingAverage l period).
  split; [by apply movingAverage_Fin|].
  split; [unfold RmovingAverage; by rewrite length_imap|].
  split; [|split; [|by apply RmovingAverage_between]]; unfold RmovingAverage.
  - intros i Hi. rewrite list_lookup_imap. apply Nat.ltb_lt in Hi. rewrite Hi.
    by destruct (l !! i).
  - intros i Hi Hlen. rewrite list_lookup_imap. apply Nat.ltb_ge in Hi. rewrite Hi.
    by destruct (lookup_lt_is_Some_2 l i Hlen) as [x ->].
Qed.
End IndicatorsExact.

Section RsiExact.
Local Open Scope R_scope.

Lemma exact_neg (x : R) : neg (N:=Exact) (Fin x) = Fin (- x).
Proof. unfold neg. change (@of_Z Exact (-1)) with (Fin (-1)). rewrite exact_mul. f_equal. ring. Qed.

Lemma exact_max_0 (x : R) : Math_max (N:=Exact) [of_Z 0; Fin x] = Fin (Rmax 0 x).
Proof.
  unfold Math_max. cbn [fold_left]. change (@ninf Exact) with NInf.
  change (@of_Z Exact 0) with (Fin 0). by rewrite exact_max2_ninf, exact_max2.
Qed.

Lemma gain_at_nonneg l i : 0 <= gain_at l i.
Proof. destruct i; cbn; [lra | apply Rmax_l]. Qed.

Lemma loss_at_nonneg l i : 0 <= loss_at l i.
Proof. destruct i; cbn; [lra | apply Rmax_l]. Qed.

Lemma Rmean_nonneg (l : list R) (period : nat) :
  (1 <= period)%nat -> Forall (fun x => 0 <= x) l -> 0 <= Rmean l period.
Proof.
  intros Hp H. unfold Rmean.
  pose proof (fold_Rplus_lower l 0 0 H) as Hs.
  assert (0 < INR period) as Hpos by (apply lt_0_INR; lia).
  apply Rmult_le_pos; [lra|]. apply Rlt_le, Rinv_0_lt_compat, Hpos.
Qed.

Lemma lookup_Fin (l : list R) (i : nat) :
  (i < length l)%nat -> of_undef (N:=Exact) (map Fin l !! i) = Fin (nth i l 0).
Proof.
  intros Hi. destruct (lookup_lt_is_Some_2 l i Hi) as [x Hx].
  change (map Fin l) with (Fin <$> l). rewrite list_lookup_fmap, Hx. cbn.
  f_equal. symmetry. by apply nth_lookup_Some with (d := 0) in Hx.
Qed.

Lemma rsi_value_Fin (G L : list (num (JsNumber:=Exact))) (g ls : list R) (period i : nat) :
  G = map Fin g -> L = map Fin ls -> (1 <= period)%nat ->
  Forall (fun x => 0 <= x) g -> Forall (fun x => 0 <= x) ls ->
  (if (period <=? i)%nat then
     if eqb (div (sum (window L period i)) (of_nat period)) (of_Z 0) then of_Z 100
     else sub (of_Z 100)
            (div (of_Z 100)
               (add (of_Z 1)
                  (div (div (sum (window G period i)) (of_nat period))
                       (div (sum (window L period i)) (of_nat period)))))
   else of_Z 50) = Fin (rsi_value period i g ls).
Proof.
  intros -> -> Hp Hg Hl. unfold rsi_value.
  destruct (period <=? i)%nat; [|reflexivity].
  rewrite !window_Fin, !exact_mean by assumption.
  set (ag := Rmean (Rwindow g period i) period).
  set (al := Rmean (Rwindow ls period i) period).
  assert (0 <= ag) as Hag by (apply Rmean_nonneg; [assumption | by apply Rwindow_Forall]).
  assert (0 <= al) as Hal by (apply Rmean_nonneg; [assumption | by apply Rwindow_Forall]).
  change (@of_Z Exact 0) with (Fin 0). change (@of_Z Exact 100) with (Fin 100).
  change (@of_Z Exact 1) with (Fin 1).
  destruct (Req_dec_T al 0) as [Hz|Hnz].
  - by rewrite exact_eqb_true.
  - rewrite exact_eqb_false by assumption.
    rewrite exact_div by assumption. rewrite exact_add.
    assert (0 <= ag / al).
    { apply Rmult_le_pos; [assumption|]. apply Rlt_le, Rinv_0_lt_compat. lra. }
    rewrite exact_div by lra. by rewrite exact_sub.
Qed.

Lemma Forall_nonneg_map (f : nat -> R) (l : list nat) :
  (forall k, 0 <= f k) -> Forall (fun x => 0 <= x) (map f l).
Proof. intros Hf. apply Forall_map, Forall_forall. intros k _. apply Hf. Qed.

(** One pass of the loop on the arrays recorded so far. *)
Lemma rsi_step_Fin (l : list R) (period i : nat) :
  (1 <= period)%nat -> (i < length l)%nat ->
  rsi_step (N:=Exact) (map Fin l) period
    {| gains := map Fin (map (gain_at l) (seq 0 i));
       losses := map Fin (map (loss_at l) (seq 0 i));
       rsi := map Fin (map (rsi_at l period) (seq 0 i)) |} i
  = {| gains := map Fin (map (gain_at l) (seq 0 (S i)));
       losses := map Fin (map (loss_at l) (seq 0 (S i)));
       rsi := map Fin (map (rsi_at l period) (seq 0 (S i))) |}.
Proof.
  intros Hp Hi. rewrite !seq_S, !map_app. cbn [map Nat.add].
  destruct i as [|j]; [reflexivity|].
  unfold rsi_step. cbn [gains losses rsi].
  rewrite !lookup_Fin by lia. rewrite exact_sub, exact_neg, !exact_max_0.
  f_equal. f_equal. f_equal. unfold rsi_at.
  apply rsi_value_Fin; try assumption;
    try (apply Forall_nonneg_map; first [apply gain_at_nonneg | apply loss_at_nonneg]);
    (replace (S j + 1)%nat with (S (S j)) by lia);
    rewrite (seq_S (S j)), !map_app; reflexivity.
Qed.

Lemma rsi_fold_Fin (l : list R) (period n : nat) :
  (1 <= period)%nat -> (n <= length l)%nat ->
  fold_left (rsi_step (N:=Exact) (map Fin l) period) (seq 0 n)
    {| gains := []; losses := []; rsi := [] |}
  = {| gains := map Fin (map (gain_at l) (seq 0 n));
       losses := map Fin (map (loss_at l) (seq 0 n));
       rsi := map Fin (map (rsi_at l period) (seq 0 n)) |}.
Proof.
  intros Hp. induction n as [|n IH]; intros Hn; [reflexivity|].
  rewrite seq_S, fold_left_app, IH by lia. rewrite <- seq_S. cbn [fold_left Nat.add].
  apply rsi_step_Fin; [assumption | lia].
Qed.

Lemma calculateRSI_Fin (l : list R) (period : nat) :
  (1 <= period)%nat ->
  calculateRSI (N:=Exact) (map Fin l) period
  = map Fin (map (rsi_at l period) (seq 0 (length l))).
Proof.
  intros Hp. unfold calculateRSI. rewrite length_map, rsi_fold_Fin by lia. reflexivity.
Qed.

Lemma rsi_at_range (l : list R) (period i : nat) :
  (1 <= period)%nat -> between 0 100 (rsi_at l period i).
Proof.
  intros Hp. unfold between, rsi_at, rsi_value. destruct i as [|j]; [lra|].
  destruct (period <=? S j)%nat; [|lra].
  set (ag := Rmean (Rwindow (map (gain_at l) _) period (S j)) period).
  set (al := Rmean (Rwindow (map (loss_at l) _) period (S j)) period).
  assert (0 <= ag) as Hag.
  { apply Rmean_nonneg; [assumption|]. apply Rwindow_Forall, Forall_nonneg_map, gain_at_nonneg. }
  assert (0 <= al) as Hal.
  { apply Rmean_nonneg; [assumption|]. apply Rwindow_Forall, Forall_nonneg_map, loss_at_nonneg. }
  destruct (Req_dec_T al 0) as [Hz|Hnz]; [lra|].
  assert (0 <= ag / al) as Hrs.
  { apply Rmult_le_pos; [assumption|]. apply Rlt_le, Rinv_0_lt_compat. lra. }
  assert (0 < 100 / (1 + ag / al) <= 100) as [H1 H2].
  { split.
    - apply Rdiv_lt_0_compat; lra.
    - apply Rmult_le_reg_r with (1 + ag / al); [lra|].
      replace (100 / (1 + ag / al) * (1 + ag / al)) with 100 by (field; lra). nra. }
  lra.
Qed.

(** X2.  RSI stays within 0..100, and reads 50 until [period] changes are
    known. *)
Theorem rsi_range (l : list R) (period : nat) :
  (1 <= period)%nat ->
  exists r,
    calculateRSI (N:=Exact) (map Fin l) period = map Fin r /\
    length r = length l /\
    Forall (between 0 100) r /\
    (forall i, (i < period)%nat -> (i < length l)%nat -> r !! i = Some 50).
Proof.
  intros Hp. exists (map (rsi_at l period) (seq 0 (length l))).
  split; [by apply calculateRSI_Fin|]. split; [by rewrite length_map, length_seq|]. split.
  - apply Forall_map, Forall_forall. intros i _. by apply rsi_at_range.
  - intros i Hi Hlen. change (map ?f ?x) with (f <$> x).
    rewrite list_lookup_fmap, lookup_seq_lt by assumption. cbn [fmap option_fmap option_map Nat.add].
    f_equal. unfold rsi_at, rsi_value. destruct i as [|j]; [reflexivity|].
    by rewrite (proj2 (Nat.leb_gt _ _) Hi).
Qed.

Lemma fold_Rplus_zero (l : list R) :
  Forall (fun x => x = 0) l -> fold_left Rplus l 0 = 0.
Proof.
  induction 1 as [|x l -> _ IH]; [reflexivity|]. cbn [fold_left]. by rewrite Rplus_0_l.
Qed.

Lemma Rmean_zero (l : list R) (period : nat) :
  Forall (fun x => x = 0) l -> Rmean l period = 0.
Proof. intros H. unfold Rmean. rewrite fold_Rplus_zero by assumption. unfold Rdiv. ring. Qed.

Lemma fold_Rplus_pos (l : list R) (a : R) :
  Forall (fun x => 0 < x) l -> l <> [] -> a < fold_left Rplus l a.
Proof.
  intros H. revert a. induction H as [|x l Hx Hl IH]; intros a Hne; [contradiction|].
  cbn [fold_left]. destruct l as [|y l'].
  - cbn. lra.
  - specialize (IH (a + x) ltac:(discriminate)). lra.
Qed.

(** X3.  On a series that never falls RSI reads 100 from index [period] on
    (a flat series included); on a series that falls at every step it
    reads 0. *)
Theorem rsi_of_monotone_series (l : list R) (period i : nat) :
  (1 <= period)%nat -> (period <= i)%nat -> (i < length l)%nat ->
  ((forall j, (S j < length l)%nat -> nth j l 0 <= nth (S j) l 0) ->
   calculateRSI (N:=Exact) (map Fin l) period !! i = Some (Fin 100)) /\
  ((forall j, (S j < length l)%nat -> nth (S j) l 0 < nth j l 0) ->
   calculateRSI (N:=Exact) (map Fin l) period !! i = Some (Fin 0)).
Proof.
  intros Hp Hi Hlen. rewrite calculateRSI_Fin by assumption.
  change (map ?f ?x) with (f <$> x).
  rewrite !list_lookup_fmap, lookup_seq_lt by assumption.
  cbn [fmap option_fmap option_map Nat.add].
  destruct i as [|k]; [lia|]. unfold rsi_at, rsi_value. rewrite (proj2 (Nat.leb_le _ _) Hi).
  set (ag := Rmean (Rwindow (map (gain_at l) _) period (S k)) period).
  set (al := Rmean (Rwindow (map (loss_at l) _) period (S k)) period).
  split; intros Hmono.
  - assert (al = 0) as ->.
    { subst al. apply Rmean_zero, Rwindow_Forall, Forall_map, Forall_forall.
      intros j Hj%elem_of_seq. destruct j as [|j]; [reflexivity|]. cbn.
      specialize (Hmono j ltac:(lia)). apply Rmax_left. lra. }
    destruct (Req_dec_T 0 0); [reflexivity | lra].
  - assert (ag = 0) as ->.
    { subst ag. apply Rmean_zero, Rwindow_Forall, Forall_map, Forall_forall.
      intros j Hj%elem_of_seq. destruct j as [|j]; [reflexivity|]. cbn.
      specialize (Hmono j ltac:(lia)). apply Rmax_left. lra. }
    assert (0 < al) as Hal.
    { subst al. unfold Rmean. apply Rdiv_lt_0_compat; [|apply lt_0_INR; lia].
      apply fold_Rplus_pos.
      - unfold Rwindow. apply Forall_take.
        change (map ?f ?x) with (f <$> x). rewrite <- fmap_drop.
        apply Forall_fmap, Forall_forall. intros j Hj.
        apply list_elem_of_lookup in Hj as [m Hm]. rewrite lookup_drop in Hm.
        apply lookup_seq in Hm as [-> Hm]. rewrite Nat.add_0_l.
        destruct (S k + 1 - period + m)%nat as [|j] eqn:E; [lia|]. unfold compose. cbn [loss_at].
        specialize (Hmono j ltac:(lia)).
        rewrite Rmax_right by lra. lra.
      - intros Hnil. apply (f_equal length) in Hnil.
        rewrite Rwindow_length in Hnil; [cbn in Hnil; lia | lia |].
        rewrite length_map, length_seq. lia. }
    destruct (Req_dec_T al 0); [lra|]. do 2 f_equal. field. lra.
Qed.
End RsiExact.

Section EmaExact.
Local Open Scope R_scope.

Lemma exact_smoothing (period : nat) :
  div (JsNumber:=Exact) (of_Z 2) (add (of_nat period) (of_Z 1)) = Fin (smoothing period).
Proof.
  rewrite exact_of_nat. change (@of_Z Exact 1) with (Fin 1).
  change (@of_Z Exact 2) with (Fin 2). rewrite exact_add. apply exact_div.
  pose proof (pos_INR period). lra.
Qed.

Lemma smoothing_range (period : nat) : (1 <= period)%nat -> 0 < smoothing period <= 1.
Proof.
  intros Hp. unfold smoothing. apply le_INR in Hp. cbn in Hp. split.
  - apply Rdiv_lt_0_compat; lra.
  - apply Rmult_le_reg_r with (INR period + 1); [lra|].
    replace (2 / (INR period + 1) * (INR period + 1)) with 2 by (field; lra). lra.
Qed.

Lemma ema_loop_Fin (k prev : R) (l : list R) :
  ema_loop (N:=Exact) (Fin k) (Fin prev) (map Fin l) = map Fin (Rema_loop k prev l).
Proof.
  revert prev. induction l as [|x l IH]; intros prev; [reflexivity|].
  cbn [map ema_loop Rema_loop]. change (@of_Z Exact 1) with (Fin 1).
  rewrite exact_sub, !exact_mul, exact_add. cbv zeta. by rewrite IH.
Qed.

Lemma Rema_loop_between (k prev lo hi : R) (l : list R) :
  0 <= k <= 1 -> between lo hi prev -> Forall (between lo hi) l ->
  Forall (between lo hi) (Rema_loop k prev l).
Proof.
  intros Hk Hprev Hl. revert prev Hprev.
  induction Hl as [|x l Hx _ IH]; intros prev Hprev; [constructor|].
  cbn [Rema_loop].
  assert (between lo hi (x * k + prev * (1 - k))) as Hnext.
  { unfold between in *. split; nra. }
  constructor; [assumption | by apply IH].
Qed.

Lemma Rema_loop_lookup (k prev : R) (l : list R) (i : nat) (a b : R) :
  (prev :: Rema_loop k prev l) !! i = Some a -> l !! i = Some b ->
  Rema_loop k prev l !! i = Some (b * k + a * (1 - k)).
Proof.
  revert prev i. induction l as [|x l IH]; intros prev i Ha Hb; [discriminate|].
  destruct i as [|i]; cbn in *.
  - by injection Ha as <-; injection Hb as <-.
  - by apply IH.
Qed.

Lemma Rema_loop_length (k prev : R) (l : list R) : length (Rema_loop k prev l) = length l.
Proof. revert prev. induction l as [|x l IH]; intros prev; cbn; [reflexivity | by rewrite IH]. Qed.

(** X4.  [ema] on an empty series holds one [undefined]; on finite numbers it
    starts at the first value, follows the recurrence, and stays within
    any bounds of the series. *)
Theorem ema_within (x : R) (l : list R) (period : nat) (lo hi : R) :
  (1 <= period)%nat ->
  Forall (between lo hi) (x :: l) ->
  ema (N:=Exact) [] period = [None] /\
  exists r,
    ema (N:=Exact) (map Fin (x :: l)) period = map Some (map Fin (x :: r)) /\
    length r = length l /\
    (forall i a b, (x :: r) !! i = Some a -> l !! i = Some b ->
       r !! i = Some (b * smoothing period + a * (1 - smoothing period))) /\
    Forall (between lo hi) (x :: r).
Proof.
  intros Hp Hl. split; [reflexivity|].
  exists (Rema_loop (smoothing period) x l).
  pose proof (smoothing_range period Hp) as Hk.
  inversion Hl as [|? ? Hx Hrest]; subst.
  split; [|split; [|split]].
  - unfold ema. cbn [map]. by rewrite exact_smoothing, ema_loop_Fin.
  - apply Rema_loop_length.
  - intros i a b. apply Rema_loop_lookup.
  - constructor; [assumption|]. apply Rema_loop_between; [lra | assumption..].
Qed.

Lemma Rema_loop_constant (k c : R) (n : nat) :
  Rema_loop k c (repeat c n) = repeat c n.
Proof.
  induction n as [|n IH]; [reflexivity|]. cbn [repeat Rema_loop].
  replace (c * k + c * (1 - k)) with c by ring. by rewrite IH.
Qed.

Lemma ema_constant (c : R) (n period : nat) :
  ema (N:=Exact) (map Fin (repeat c (S n))) period
  = map Some (map Fin (repeat c (S n))).
Proof.
  unfold ema. cbn [repeat map].
  by rewrite exact_smoothing, ema_loop_Fin, Rema_loop_constant.
Qed.

Lemma imap_repeat {A B} (f : nat -> A -> B) (x : A) (y : B) (n : nat) :
  (forall i, f i x = y) -> imap f (repeat x n) = repeat y n.
Proof.
  revert f. induction n as [|n IH]; intros f Hf; [reflexivity|].
  cbn [repeat imap]. rewrite Hf. f_equal. apply IH. intros i. apply Hf.
Qed.

Lemma lookup_repeat_Some {A} (x y : A) (n i : nat) :
  repeat x n !! i = Some y -> y = x /\ (i < n)%nat.
Proof.
  revert i. induction n as [|n IH]; intros i H; [discriminate|].
  destruct i as [|i]; cbn in H.
  - injection H as <-. split; [reflexivity | lia].
  - apply IH in H as [-> H]. split; [reflexivity | lia].
Qed.

Lemma lookup_repeat_lt {A} (x : A) (n i : nat) :
  (i < n)%nat -> repeat x n !! i = Some x.
Proof.
  revert i. induction n as [|n IH]; intros i H; [lia|].
  destruct i as [|i]; [reflexivity|]. cbn. apply IH. lia.
Qed.

Lemma map_repeat {A B} (f : A -> B) (x : A) (n : nat) :
  map f (repeat x n) = repeat (f x) n.
Proof. induction n as [|n IH]; [reflexivity|]. cbn [repeat map]. by rewrite IH. Qed.

Lemma ema_flat (L : list (num (JsNumber:=Exact))) (c : R) (n period : nat) :
  L = repeat (Fin c) (S n) -> ema L period = repeat (Some (Fin c)) (S n).
Proof.
  intros ->. pose proof (ema_constant c n period) as H.
  by rewrite !map_repeat in H.
Qed.

Lemma difference_flat (A B : list (option (num (JsNumber:=Exact)))) (c : R) (n : nat) :
  A = repeat (Some (Fin c)) n -> B = repeat (Some (Fin c)) n ->
  imap (fun i v => sub (of_undef v) (of_undef (mjoin (B !! i)))) A = repeat (Fin 0) n.
Proof.
  intros -> ->.
  transitivity (imap (fun (_ : nat) (_ : option (num (JsNumber:=Exact))) => Fin 0)
                  (repeat (Some (Fin c)) n)); [|by apply imap_repeat].
  apply imap_ext. intros i v Hv. apply lookup_repeat_Some in Hv as [-> Hi].
  rewrite lookup_repeat_lt by assumption. cbn [mjoin option_join of_undef default]. unfold Datatypes.id.
  rewrite exact_sub. f_equal. ring.
Qed.

Lemma histogram_flat (A : list (num (JsNumber:=Exact)))
    (B : list (option (num (JsNumber:=Exact)))) (c : R) (n : nat) :
  A = repeat (Fin c) n -> B = repeat (Some (Fin c)) n ->
  imap (fun i v => sub v (of_undef (mjoin (B !! i)))) A = repeat (Fin 0) n.
Proof.
  intros -> ->.
  transitivity (imap (fun (_ : nat) (_ : num (JsNumber:=Exact)) => Fin 0)
                  (repeat (Fin c) n)); [|by apply imap_repeat].
  apply imap_ext. intros i v Hv. apply lookup_repeat_Some in Hv as [-> Hi].
  rewrite lookup_repeat_lt by assumption. cbn [mjoin option_join of_undef default]. unfold Datatypes.id.
  rewrite exact_sub. f_equal. ring.
Qed.

(** X5.  On a flat series the three lines of the MACD are zero. *)
Theorem macd_of_flat_series (c : R) (n fast slow signalPeriod : nat) :
  calculateMACD (N:=Exact) (map Fin (repeat c (S n))) fast slow signalPeriod
  = {| macd := repeat (Fin 0) (S n);
       signal := repeat (Some (Fin 0)) (S n);
       histogram := repeat (Fin 0) (S n) |}.
Proof.
  assert (forall period, ema (N:=Exact) (map Fin (repeat c (S n))) period
                         = repeat (Some (Fin c)) (S n)) as Hema.
  { intros period. apply ema_flat, map_repeat. }
  unfold calculateMACD. f_equal.
  - by apply (difference_flat _ _ c).
  - apply ema_flat. by apply (difference_flat _ _ c).
  - apply (histogram_flat _ _ 0).
    + by apply (difference_flat _ _ c).
    + apply ema_flat. by apply (difference_flat _ _ c).
Qed.
End EmaExact.

Section BollingerExact.
Local Open Scope R_scope.
Context (Math_pow : xreal -> xreal -> xreal).
Hypothesis pow_2 : forall x, Math_pow (Fin x) (Fin 2) = Fin (x * x).

Lemma squares_Fin (w : list R) (mean a : R) :
  fold_left (fun (s : num (JsNumber:=Exact)) b => add s (Math_pow (sub b (Fin mean)) (of_Z 2)))
    (map Fin w) (Fin a)
  = Fin (fold_left (fun s b => s + (b - mean) * (b - mean)) w a).
Proof.
  revert a. induction w as [|x w IH]; intros a; [reflexivity|].
  cbn [map fold_left]. change (@of_Z Exact 2) with (Fin 2).
  by rewrite exact_sub, pow_2, exact_add, IH.
Qed.

Lemma squares_nonneg (w : list R) (mean a : R) :
  0 <= a -> 0 <= fold_left (fun s b => s + (b - mean) * (b - mean)) w a.
Proof.
  revert a. induction w as [|x w IH]; intros a Ha; [assumption|].
  cbn [fold_left]. apply IH. pose proof (Rle_0_sqr (x - mean)) as H. unfold Rsqr in H. lra.
Qed.

Lemma exact_dec_2 (m : Z) : dec (N:=Exact) m 2 = Fin (IZR m / 100).
Proof. destruct (exact_dec m 2) as [H _]. exact H. Qed.

Lemma bollinger_bands_Fin (MA : list (num (JsNumber:=Exact))) (l md : list R)
    (period : nat) (s : R) (i : nat) :
  MA = map Fin md -> (1 <= period)%nat -> (i < length md)%nat ->
  bollinger_bands Math_pow (map Fin l) MA period (Fin s) i
  = (Fin (Rbands l md period s i).1, Fin (Rbands l md period s i).2).
Proof.
  intros HMA Hp Hi. unfold bollinger_bands, Rbands.
  rewrite (exact_lookup MA md i HMA Hi).
  destruct (i + 1 <? period)%nat.
  - by rewrite !exact_dec_2, !exact_mul.
  - rewrite window_Fin, exact_mean by assumption.
    change (@of_Z Exact 0) with (Fin 0). rewrite squares_Fin, exact_of_nat.
    assert (INR period <> 0) as Hne by (apply not_0_INR; lia).
    rewrite exact_div by assumption.
    rewrite exact_sqrt.
    + by rewrite exact_mul, exact_add, exact_sub.
    + apply Rmult_le_pos; [apply squares_nonneg; lra|].
      apply Rlt_le, Rinv_0_lt_compat, lt_0_INR. lia.
Qed.

Lemma bands_Fin (MA : list (num (JsNumber:=Exact))) (l md : list R)
    (period : nat) (s : R) (idx : list nat) :
  MA = map Fin md -> (1 <= period)%nat -> Forall (fun i => i < length md)%nat idx ->
  map (bollinger_bands Math_pow (map Fin l) MA period (Fin s)) idx
  = map (fun i => (Fin (Rbands l md period s i).1, Fin (Rbands l md period s i).2)) idx.
Proof.
  intros HMA Hp Hidx. induction Hidx as [|i idx Hi _ IH]; [reflexivity|].
  cbn [map]. by rewrite IH, (bollinger_bands_Fin MA l md period s i HMA Hp Hi).
Qed.

Lemma calculateBollinger_Fin (l : list R) (period : nat) (s : R) :
  (1 <= period)%nat ->
  calculateBollinger Math_pow (map Fin l) period (Fin s)
  = {| upper :=
         map Fin (map (fun i => (Rbands l (RmovingAverage l period) period s i).1)
                      (seq 0 (length l)));
       lower :=
         map Fin (map (fun i => (Rbands l (RmovingAverage l period) period s i).2)
                      (seq 0 (length l)));
       mid := map Fin (RmovingAverage l period) |}.
Proof.
  intros Hp. unfold calculateBollinger. rewrite length_map.
  rewrite (bands_Fin _ l (RmovingAverage l period) period s _
             (movingAverage_Fin l period Hp) Hp).
  2:{ apply Forall_forall. intros i Hi%elem_of_seq.
      unfold RmovingAverage. rewrite length_imap. lia. }
  f_equal.
  - change (map ?f ?x) with (f <$> x). rewrite <- !list_fmap_compose. reflexivity.
  - change (map ?f ?x) with (f <$> x). rewrite <- !list_fmap_compose. reflexivity.
  - by apply movingAverage_Fin.
Qed.

Lemma Rbands_order (l md : list R) (period : nat) (s : R) (i : nat) :
  0 <= s -> ((period <= i + 1)%nat \/ 0 <= nth i md 0) ->
  (Rbands l md period s i).2 <= nth i md 0 <= (Rbands l md period s i).1.
Proof.
  intros Hs Hcase. unfold Rbands. destruct (Nat.ltb_spec (i + 1) period) as [Hlt|Hge].
  - destruct Hcase as [Hp|Hm]; [lia|]. cbn [fst snd]. lra.
  - cbn [fst snd].
    assert (0 <= Rdeviation (Rwindow l period i) period) as Hd by apply sqrt_pos.
    split; nra.
Qed.

(** X6.  The Bollinger bands over finite numbers, for a width [stdDev >= 0]:
    the middle band is the moving average; before index [period - 1] the
    outer bands are 102% and 98% of it; from there on they lie at
    [stdDev] standard deviations of the window above and below it. *)
Theorem bollinger_bands_enclose (l : list R) (period : nat) (s : R) :
  (1 <= period)%nat -> 0 <= s ->
  exists up lo md,
    calculateBollinger Math_pow (map Fin l) period (Fin s)
      = {| upper := map Fin up; lower := map Fin lo; mid := map Fin md |} /\
    movingAverage (N:=Exact) (map Fin l) period = map Fin md /\
    length up = length l /\ length lo = length l /\ length md = length l /\
    forall i u w m, up !! i = Some u -> lo !! i = Some w -> md !! i = Some m ->
      ((i + 1 < period)%nat -> u = m * (102 / 100) /\ w = m * (98 / 100)) /\
      ((period <= i + 1)%nat ->
         u = m + s * Rdeviation (Rwindow l period i) period /\
         w = m - s * Rdeviation (Rwindow l period i) period /\
         w <= m <= u).
Proof.
  intros Hp Hs.
  set (md := RmovingAverage l period).
  assert (length md = length l) as Hmd by (unfold md, RmovingAverage; by rewrite length_imap).
  exists (map (fun i => (Rbands l md period s i).1) (seq 0 (length l))),
         (map (fun i => (Rbands l md period s i).2) (seq 0 (length l))), md.
  split; [by apply calculateBollinger_Fin|].
  split; [by apply movingAverage_Fin|].
  split; [by rewrite length_map, length_seq|].
  split; [by rewrite length_map, length_seq|].
  split; [exact Hmd|].
  intros i u w m Hu Hw Hm.
  change (map ?f ?x) with (f <$> x) in Hu, Hw.
  rewrite list_lookup_fmap in Hu, Hw.
  assert (i < length l)%nat as Hi by (rewrite <- Hmd; by eapply lookup_lt_Some).
  rewrite lookup_seq_lt in Hu, Hw by assumption.
  cbn [fmap option_fmap option_map Nat.add] in Hu, Hw.
  injection Hu as <-. injection Hw as <-.
  pose proof (Rbands_order l md period s i Hs) as Horder.
  unfold Rbands in *.
  apply nth_lookup_Some with (d := 0) in Hm. rewrite Hm in *.
  split; intros Hcase.
  - rewrite (proj2 (Nat.ltb_lt _ _) Hcase). by split.
  - rewrite (proj2 (Nat.ltb_ge _ _) Hcase) in *. cbn [fst snd] in *.
    split; [reflexivity|]. split; [reflexivity|]. apply Horder. by left.
Qed.
End BollingerExact.

(** * Correlation with SPY *)

Section AddCorrelation.
Context {N : JsNumber}.

Lemma addCorrelation_beyond (targetData spyData : list Candle) (symbol : string) i :
  length spyData <= i ->
  addCorrelation targetData spyData symbol !! i = targetData !! i.
Proof.
  intros Hi. unfold addCorrelation. rewrite list_lookup_imap.
  destruct (targetData !! i); [|reflexivity]. cbn [fmap option_fmap option_map].
  by rewrite (proj2 (Nat.ltb_ge _ _) Hi).
Qed.

(** X7.  [addCorrelation] returns one candle per candle of the target, never
    touches a volume, and leaves the candles beyond the end of the SPY
    series as they are. *)
Theorem addCorrelation_frame (targetData spyData : list Candle) (symbol : string) :
  length (addCorrelation targetData spyData symbol) = length targetData /\
  forall i item, targetData !! i = Some item ->
    exists item',
      addCorrelation targetData spyData symbol !! i = Some item' /\
      volume item' = volume item /\
      (length spyData <= i -> item' = item).
Proof.
  unfold addCorrelation. split; [by rewrite length_imap|].
  intros i item Hi. rewrite list_lookup_imap, Hi.
  cbn [fmap option_fmap option_map]. eexists. split; [reflexivity|].
  destruct (Nat.ltb_spec i (length spyData)); cbn.
  - split; [reflexivity|]. lia.
  - by split.
Qed.
End AddCorrelation.

Section AddCorrelationExact.
Local Open Scope R_scope.

Lemma exact_dec_1 (m : Z) : dec (N:=Exact) m 1 = Fin (IZR m / 10).
Proof. destruct (exact_dec m 1) as [H _]. exact H. Qed.

Lemma correlation_with_Fin (symbol : string) :
  symbol ∉ inherited_names ->
  correlation_with (N:=Exact) symbol = Fin (Rcorrelation symbol).
Proof.
  intros Hout. unfold correlation_with, Rcorrelation.
  repeat (destruct (decide (symbol = _)); [apply exact_dec_1|]).
  destruct (decide (symbol ∈ inherited_names)); [contradiction | reflexivity].
Qed.

Lemma exact_mul_1 (a : xreal) : mul (JsNumber:=Exact) a (Fin 1) = a.
Proof.
  destruct a as [x| | |]; cbn; try reflexivity.
  - f_equal. ring.
  - unfold XReal.scale_inf. destruct (total_order_T 1 0) as [[H|H]|H]; try lra. reflexivity.
  - unfold XReal.scale_inf. destruct (total_order_T 1 0) as [[H|H]|H]; try lra. reflexivity.
Qed.

Lemma scale_prices_1 (item : Candle (N:=Exact)) : scale_prices (Fin 1) item = item.
Proof. destruct item. unfold scale_prices. cbn. by rewrite !exact_mul_1. Qed.

Lemma close_at_Fin (spyData : list (Candle (N:=Exact))) (sc : list R) (i : nat) :
  map close spyData = map Fin sc -> (i < length sc)%nat ->
  close_at spyData i = Fin (nth i sc 0).
Proof.
  intros H Hi. unfold close_at.
  rewrite <- list_lookup_fmap.
  change (close <$> spyData) with (map close spyData).
  by apply exact_lookup.
Qed.

(** X8.  Over finite, non-zero SPY closes and a symbol that names no inherited
    property, candle [i] within the SPY series has its four prices
    multiplied by [1 + corr * spyReturn_i * 0.5]; a symbol without
    correlation entry gets its series back unchanged. *)
Theorem addCorrelation_scales (targetData spyData : list (Candle (N:=Exact)))
    (spyCloses : list R) (symbol : string) :
  symbol ∉ inherited_names ->
  map close spyData = map Fin spyCloses ->
  Forall (fun c => c <> 0) spyCloses ->
  (forall i item, targetData !! i = Some item -> (i < length spyData)%nat ->
     addCorrelation targetData spyData symbol !! i
       = Some (scale_prices (Fin (Rfactor symbol spyCloses i)) item)) /\
  (Rcorrelation symbol = 0 -> addCorrelation targetData spyData symbol = targetData).
Proof.
  intros Hout Hcl Hnz.
  assert (length spyCloses = length spyData) as Hlen.
  { apply (f_equal length) in Hcl. rewrite !length_map in Hcl. lia. }
  assert (forall i item, targetData !! i = Some item -> (i < length spyData)%nat ->
            addCorrelation targetData spyData symbol !! i
              = Some (scale_prices (Fin (Rfactor symbol spyCloses i)) item)) as Hscale.
  { intros i item Hi Hlt. unfold addCorrelation. rewrite list_lookup_imap, Hi.
    cbn [fmap option_fmap option_map]. rewrite (proj2 (Nat.ltb_lt _ _) Hlt).
    f_equal. f_equal. rewrite correlation_with_Fin by assumption.
    rewrite exact_dec_1. change (@of_Z Exact 1) with (Fin 1).
    change (@of_Z Exact 0) with (Fin 0).
    destruct i as [|j]; cbn [Rfactor].
    - by rewrite !exact_mul, exact_add.
    - rewrite !(close_at_Fin _ _ _ Hcl) by lia.
      assert (nth j spyCloses 0 <> 0) as Hj.
      { eapply Forall_forall in Hnz; [exact Hnz|]. apply list_elem_of_In, nth_In. lia. }
      rewrite exact_sub, exact_div by assumption.
      by rewrite !exact_mul, exact_add. }
  split; [exact Hscale|].
  intros Hzero. apply list_eq. intros i.
  destruct (targetData !! i) as [item|] eqn:Hi.
  - destruct (Nat.lt_ge_cases i (length spyData)) as [Hlt|Hge].
    + rewrite (Hscale i item Hi Hlt).
      assert (Rfactor symbol spyCloses i = 1) as ->.
      { unfold Rfactor. rewrite Hzero. destruct i; ring. }
      by rewrite scale_prices_1.
    + by rewrite addCorrelation_beyond.
  - apply lookup_ge_None. apply lookup_ge_None in Hi.
    unfold addCorrelation. by rewrite length_imap.
Qed.
End AddCorrelationExact.

(** * Mock data *)

Section MockChain.
Context {N : JsNumber} (Math_random : nat -> num) (Math_floor : num -> num).

Lemma mock_loop_calls dates volatility drift price calls i days data :
  (mock_loop Math_random Math_floor dates volatility drift price calls i days).2 = Some data ->
  (mock_loop Math_random Math_floor dates volatility drift price calls i days).1
    = calls + 4 * days /\
  length data = days.
Proof.
  revert price calls i data. induction days as [|days IH]; intros price calls i data.
  - cbn. intros [= <-]. split; [lia | reflexivity].
  - cbn [mock_loop]. destruct (dates i); [|discriminate].
    destruct (mock_loop _ _ _ _ _ _ (calls + 4) (S i) days) as [calls' more] eqn:E.
    cbn [fst snd]. destruct more as [more|]; [|discriminate]. cbn. intros [= <-].
    match type of E with
    | mock_loop _ _ _ _ _ ?p _ _ _ = _ => pose proof (IH p (calls + 4) (S i) more) as IH'
    end.
    rewrite E in IH'. destruct (IH' eq_refl) as [IH1 IH2]. cbn [fst] in IH1.
    cbn [length]. lia.
Qed.

Lemma mock_loop_head dates volatility drift price calls i days data c :
  (mock_loop Math_random Math_floor dates volatility drift price calls i days).2 = Some data ->
  head data = Some c ->
  open c = Math_max [dec 1 2; price].
Proof.
  destruct days; [by intros [= <-]|]. cbn [mock_loop]. destruct (dates i); [|discriminate].
  destruct (mock_loop _ _ _ _ _ _ (calls + 4) (S i) days) as [calls' [more|]];
    [|discriminate].
  cbn. by intros [= <-] [= <-].
Qed.

Lemma mock_loop_chain dates volatility drift price calls i days data k c c' :
  (mock_loop Math_random Math_floor dates volatility drift price calls i days).2 = Some data ->
  data !! k = Some c -> data !! S k = Some c' -> open c' = close c.
Proof.
  revert price calls i data k. induction days as [|days IH]; intros price calls i data k.
  - by intros [= <-].
  - cbn [mock_loop]. destruct (dates i); [|discriminate].
    destruct (mock_loop _ _ _ _ _ _ (calls + 4) (S i) days) as [calls' more] eqn:E.
    destruct more as [more|]; [|discriminate]. cbn [snd fmap option_fmap option_map].
    intros [= <-]. destruct k as [|k].
    + intros [= <-] Hnext. cbn [close].
      change (?l !! 1) with (tail l !! 0) in Hnext. cbn [tail] in Hnext.
      rewrite <- head_lookup in Hnext.
      eapply mock_loop_head in Hnext; [exact Hnext|]. by rewrite E.
    + change ((?x :: ?l) !! S ?n) with (l !! n). eapply IH. by rewrite E.
Qed.

Lemma mock_loop_dates dates volatility drift price calls i days :
  (forall k, k < days -> dates (i + k) = true) ->
  is_Some (mock_loop Math_random Math_floor dates volatility drift price calls i days).2.
Proof.
  revert price calls i. induction days as [|days IH]; intros price calls i Hd.
  - by eexists.
  - cbn [mock_loop]. rewrite <- (Nat.add_0_r i) at 1. rewrite Hd by lia.
    destruct (mock_loop _ _ _ _ _ _ (calls + 4) (S i) days) as [calls' more] eqn:E.
    specialize (IH (add price
      (mul price (add drift (mul (mul (sub (Math_random calls) (dec 5 1)) (of_Z 2))
                                volatility)))) (calls + 4) (S i)).
    rewrite E in IH. destruct IH as [data Hdata].
    + intros k Hk. replace (S i + k) with (i + S k) by lia. apply Hd. lia.
    + cbn in Hdata. subst more. by eexists.
Qed.
End MockChain.

Section MockExact.
Local Open Scope R_scope.
Context (Math_random : nat -> xreal) (Math_floor : xreal -> xreal).
Hypothesis random_range : forall k, exists r, Math_random k = Fin r /\ 0 <= r < 1.

Lemma exact_Math_abs (x : R) : Math_abs (N:=Exact) (Fin x) = Fin (Rabs x).
Proof.
  unfold Math_abs. change (@of_Z Exact 0) with (Fin 0).
  destruct (Rlt_dec x 0) as [Hneg|Hnn].
  - rewrite exact_ltb_true by assumption. rewrite exact_neg. f_equal.
    by rewrite Rabs_left.
  - rewrite exact_ltb_false by assumption. destruct (Req_dec_T x 0) as [->|Hnz].
    + rewrite exact_eqb_true by reflexivity. f_equal. by rewrite Rabs_R0.
    + rewrite exact_eqb_false by assumption. f_equal. rewrite Rabs_right; [reflexivity | lra].
Qed.

Lemma exact_max_cent (x : R) :
  Math_max (N:=Exact) [dec 1 2; Fin x] = Fin (Rmax (1 / 100) x).
Proof.
  destruct (exact_dec 1 2) as [-> _]. unfold Math_max. cbn [fold_left].
  change (@ninf Exact) with NInf. by rewrite exact_max2_ninf, exact_max2.
Qed.

Lemma mock_loop_well_formed dates (vol dr price : R) (calls i days : nat) data :
  (mock_loop (N:=Exact) Math_random Math_floor dates (Fin vol) (Fin dr) (Fin price)
     calls i days).2 = Some data ->
  Forall well_formed_candle data.
Proof.
  revert price calls i data. induction days as [|days IH]; intros price calls i data.
  { intros [= <-]. constructor. }
  cbn [mock_loop]. destruct (dates i); [|discriminate].
  destruct (random_range calls) as (r0 & -> & Hr0).
  destruct (random_range (calls + 1)) as (r1 & -> & Hr1).
  destruct (random_range (calls + 2)) as (r2 & -> & Hr2).
  rewrite !exact_dec_1. change (@of_Z Exact 2) with (Fin 2).
  change (@of_Z Exact 1) with (Fin 1).
  rewrite !exact_sub, !exact_mul, !exact_add, !exact_mul, exact_Math_abs.
  rewrite !exact_mul, !exact_add, exact_sub.
  set (change := price * (dr + (r0 - IZR 5 / 10) * 2 * vol)).
  destruct (mock_loop _ _ _ _ _ _ (calls + 4) (S i) days) as [calls' more] eqn:E.
  destruct more as [more|]; [|discriminate]. cbn [snd fmap option_fmap option_map].
  intros [= <-].
  constructor; [|eapply IH; by rewrite E].
  unfold well_formed_candle. cbn [open high low close].
  rewrite !exact_max_cent. do 4 eexists. repeat split; try reflexivity.
  - apply Rmax_l.
  - apply Rle_max_compat_l. pose proof (Rabs_pos change). nra.
  - apply Rle_max_compat_l. pose proof (Rabs_pos change). nra.
  - apply Rle_max_compat_l. pose proof (Rabs_pos change).
    pose proof (Rle_abs change). pose proof (Rle_abs (- change)) as Hn.
    rewrite Rabs_Ropp in Hn. nra.
  - apply Rle_max_compat_l. pose proof (Rabs_pos change).
    pose proof (Rle_abs change). nra.
Qed.

Lemma or_default_finite (value : option xreal) (fallback : R) :
  finite_or_absent value -> exists x, or_default (N:=Exact) value (Fin fallback) = Fin x.
Proof.
  destruct value as [v|]; cbn; [|eauto]. intros Hv.
  destruct (finite_Fin _ Hv) as [x ->]. destruct (_ || _); eauto.
Qed.

(** X9.  With Math.random in [0, 1), parameters that are finite numbers (or
    left out) and dates within range, [generateMockData] returns [days]
    candles after four calls of Math.random each: their prices are finite
    and none is below 0.01, the low and the high of a candle are around
    its open and its close, and each candle opens at the close of the one
    before. *)
Theorem mock_candles_are_well_formed (dates : nat -> bool) (calls days : nat)
    (params : MockParams (N:=Exact)) :
  finite_or_absent (basePrice params) ->
  finite_or_absent (volatility params) ->
  finite_or_absent (drift params) ->
  (forall i, (i < days)%nat -> dates i = true) ->
  exists data,
    generateMockData Math_random Math_floor dates calls days params
      = ((calls + 4 * days)%nat, Some data) /\
    length data = days /\
    Forall well_formed_candle data /\
    (forall i c c', data !! i = Some c -> data !! S i = Some c' -> open c' = close c).
Proof.
  intros Hb Hv Hd Hdates. unfold generateMockData.
  destruct (exact_dec 2 2) as [H22 _]. destruct (exact_dec 1 4) as [H14 _].
  rewrite H22, H14. change (@of_Z Exact 100) with (Fin 100).
  destruct (or_default_finite _ (IZR 2 / IZR (10 ^ Z.of_nat 2)) Hv) as [vol ->].
  destruct (or_default_finite _ (IZR 1 / IZR (10 ^ Z.of_nat 4)) Hd) as [dr ->].
  destruct (or_default_finite _ 100 Hb) as [price ->].
  destruct (mock_loop_dates (N:=Exact) Math_random Math_floor dates (Fin vol) (Fin dr)
              (Fin price) calls 0 days Hdates) as [data Hdata].
  destruct (mock_loop_calls _ _ _ _ _ _ _ _ _ _ Hdata) as [Hcalls Hlen].
  exists data. split; [|split; [exact Hlen|split]].
  - destruct (mock_loop _ _ _ _ _ _ _ _ _) as [n more]. cbn in *. by subst.
  - by eapply mock_loop_well_formed.
  - intros k c c'. by eapply mock_loop_chain.
Qed.
End MockExact.

Section FetchCache.
Context {N : JsNumber} (Math_random : nat -> num) (Math_floor : num -> num).

(** X10.  A [fetchData] that returns data keeps it in the cache: whatever the
    dates, a second fetch for the same symbol and number of days returns the
    same data, draws no random number and leaves the cache as it is.  A
    fetch never touches the entry of another key, and one that fails
    leaves the whole cache as it was. *)
Theorem fetchData_is_cached (this : Fetcher) (dates : nat -> bool) (symbol : string)
    (days : nat) :
  let first := fetchData Math_random Math_floor this dates symbol days in
  (forall data, first.2 = Some data ->
     forall dates', fetchData Math_random Math_floor first.1 dates' symbol days
                    = (first.1, Some data)) /\
  (forall key, key <> cache_key symbol days ->
     cache first.1 !! key = cache this !! key) /\
  (first.2 = None -> cache first.1 = cache this).
Proof.
  cbn zeta. unfold fetchData.
  destruct (cache this !! cache_key symbol days) as [cached|] eqn:Hc; cbn [fst snd].
  - split; [|split; [done|discriminate]]. intros data [= <-] dates'. by rewrite Hc.
  - destruct (generateMockData _ _ _ _ _ _) as [calls [generated|]]; cbn [fst snd cache].
    + split; [|split; [|discriminate]].
      * intros data [= <-] dates'. by rewrite lookup_insert_eq.
      * intros key Hne. by rewrite lookup_insert_ne.
    + split; [discriminate|]. by split.
Qed.
End FetchCache.

(** * Sequencing: entries of a mapped list *)

Section MapM.
Context {A B : Type}.
Implicit Types (f : A -> outcome B) (l : list A).

Lemma mapM_lookup_r f l ys i y :
  mapM f l = Returned ys -> ys !! i = Some y ->
  exists x, l !! i = Some x /\ f x = Returned y.
Proof.
  intros H Hy. apply mapM_Returned_inv in H.
  destruct (Forall2_lookup_r _ _ _ _ _ H Hy) as (x & Hx & Hf). eauto.
Qed.

End MapM.

Lemma mapM_seq_lookup {B} (g : nat -> outcome B) (n : nat) ys i y :
  mapM g (seq 0 n) = Returned ys -> ys !! i = Some y -> g i = Returned y /\ i < n.
Proof.
  intros H Hy. destruct (mapM_lookup_r _ _ _ _ _ H Hy) as (x & Hx & Hg).
  apply lookup_seq in Hx as [-> Hx]. by split.
Qed.

Lemma mapM_seq_length {B} (g : nat -> outcome B) (n : nat) ys :
  mapM g (seq 0 n) = Returned ys -> length ys = n.
Proof.
  intros H. apply mapM_Returned_inv, Forall2_length in H.
  by rewrite length_seq in H.
Qed.

(** * The windows: what each entry holds *)

Section WindowContents.
Context {N : JsNumber}.
Implicit Types (this : DataProcessor) (msd : list (string * list Candle))
  (nz : gmap string NormParams) (ns : list (string * list (list num))).

(** What a returned call has computed. *)
Lemma prepareTrainingData_inv this msd targetSymbol lookback forecast data :
  (prepareTrainingData this msd targetSymbol lookback forecast).2 = Returned data ->
  exists minLength xy,
    minLength_of msd = Some minLength /\
    mapM (sample (normalize_sources minLength (normalizers this) msd).2
            (Obj.keys msd) targetSymbol lookback forecast)
         (seq 0 (Z.to_nat (Z.of_nat minLength - Z.of_nat lookback - Z.of_nat forecast)))
      = Returned xy /\
    X data = xy.*1 /\ Y data = xy.*2 /\ sources data = Obj.keys msd /\
    td_normalizers data
      = normalizers (prepareTrainingData this msd targetSymbol lookback forecast).1.
Proof.
  intros H. destruct (minLength_of msd) as [minLength|] eqn:Hmin.
  2:{ unfold prepareTrainingData in H. rewrite Hmin in H. cbn in H.
      destruct forecast; discriminate. }
  rewrite (prepareTrainingData_eq _ _ _ _ _ _ Hmin) in H |- *. cbn [fst snd] in H |- *.
  apply bind_Returned_inv in H as (xy & Hxy & [= <-]).
  exists minLength, xy. repeat split; try reflexivity. exact Hxy.
Qed.

Lemma sample_inv ns (srcs : list string) targetSymbol lookback forecast i x y :
  sample ns srcs targetSymbol lookback forecast i = Returned (x, y) ->
  input_sequence ns srcs i lookback = Returned x /\
  target_sequence ns targetSymbol i lookback forecast = Returned y.
Proof.
  unfold sample. intros H.
  apply bind_Returned_inv in H as (x' & Hx & H).
  apply bind_Returned_inv in H as (y' & Hy & [= <- <-]). by split.
Qed.

Lemma window_steps this msd targetSymbol lookback forecast data minLength i x :
  (prepareTrainingData this msd targetSymbol lookback forecast).2 = Returned data ->
  minLength_of msd = Some minLength ->
  X data !! i = Some x ->
  let ns := (normalize_sources minLength (normalizers this) msd).2 in
  length x = lookback /\
  forall t step, x !! t = Some step ->
    time_step ns (Obj.keys msd) (i + t) = Returned step.
Proof.
  intros H Hmin Hx. cbn zeta.
  destruct (prepareTrainingData_inv _ _ _ _ _ _ H) as (m & xy & Hm & Hxy & HX & _).
  rewrite Hmin in Hm. injection Hm as <-.
  rewrite HX, list_lookup_fmap in Hx.
  destruct (xy !! i) as [[x' y]|] eqn:Hi; [|discriminate]. injection Hx as ->.
  destruct (mapM_seq_lookup _ _ _ _ _ Hxy Hi) as [Hs _].
  apply sample_inv in Hs as [Hin _]. unfold input_sequence in Hin. split.
  - by apply mapM_seq_length in Hin.
  - intros t step Ht. by destruct (mapM_seq_lookup _ _ _ _ _ Hin Ht).
Qed.

Lemma label_rows this msd targetSymbol lookback forecast data minLength i y :
  (prepareTrainingData this msd targetSymbol lookback forecast).2 = Returned data ->
  minLength_of msd = Some minLength ->
  Y data !! i = Some y ->
  let ns := (normalize_sources minLength (normalizers this) msd).2 in
  length y = forecast /\
  forall t row, y !! t = Some row ->
    exists full, source_row ns targetSymbol (i + lookback + t) = Returned full /\
                 row = take 4 full.
Proof.
  intros H Hmin Hy. cbn zeta.
  destruct (prepareTrainingData_inv _ _ _ _ _ _ H) as (m & xy & Hm & Hxy & _ & HY & _).
  rewrite Hmin in Hm. injection Hm as <-.
  rewrite HY, list_lookup_fmap in Hy.
  destruct (xy !! i) as [[x y']|] eqn:Hi; [|discriminate]. injection Hy as ->.
  destruct (mapM_seq_lookup _ _ _ _ _ Hxy Hi) as [Hs _].
  apply sample_inv in Hs as [_ Hout]. unfold target_sequence in Hout. split.
  - by apply mapM_seq_length in Hout.
  - intros t row Ht. destruct (mapM_seq_lookup _ _ _ _ _ Hout Ht) as [Hr _].
    apply fmap_Returned_inv in Hr as (full & Hfull & ->). eauto.
Qed.

Lemma time_step_head ns (srcs : list string) first idx step minLength :
  well_shaped minLength ns ->
  head srcs = Some first ->
  time_step ns srcs idx = Returned step ->
  exists full, source_row ns first idx = Returned full /\ take 4 step = take 4 full.
Proof.
  intros Hns Hhead H. destruct srcs as [|s rest]; [discriminate|].
  injection Hhead as ->. unfold time_step in H.
  apply bind_Returned_inv in H as (rows & Hrows & [= <-]).
  rewrite mapM_cons in Hrows.
  apply bind_Returned_inv in Hrows as (full & Hfull & Hrows).
  apply bind_Returned_inv in Hrows as (others & _ & [= <-]).
  exists full. split; [assumption|]. cbn [concat].
  assert (length full = 5) as Hlen.
  { unfold source_row in Hfull.
    destruct (Obj.get ns first) as [rs|] eqn:Hget; [|discriminate].
    destruct (rs !! idx) as [r|] eqn:Hr; [|discriminate]. injection Hfull as <-.
    destruct (Hns _ _ Hget) as [_ Hw]. eapply Forall_lookup_1 in Hw; eauto. }
  rewrite take_app_le by lia. reflexivity.
Qed.

(** X11.  Consecutive samples overlap: each window is the previous one moved by
    one step, for the inputs and for the labels; and when the target is
    the first source, a label row is the first four entries (open, high,
    low, close) of the input step of the same day. *)
Theorem windows_slide this msd targetSymbol lookback forecast data :
  (prepareTrainingData this msd targetSymbol lookback forecast).2 = Returned data ->
  (forall i a b t, X data !! i = Some a -> X data !! S i = Some b ->
     S t < lookback -> b !! t = a !! S t) /\
  (forall i a b t, Y data !! i = Some a -> Y data !! S i = Some b ->
     S t < forecast -> b !! t = a !! S t) /\
  (head (Obj.keys msd) = Some targetSymbol ->
   forall i t j u y row x step,
     Y data !! i = Some y -> y !! t = Some row ->
     X data !! j = Some x -> x !! u = Some step ->
     j + u = i + lookback + t -> row = take 4 step).
Proof.
  intros H.
  destruct (prepareTrainingData_inv _ _ _ _ _ _ H) as (minLength & _ & Hmin & _).
  split; [|split].
  - intros i a b t Ha Hb Ht.
    destruct (window_steps _ _ _ _ _ _ _ _ _ H Hmin Ha) as [Hla Hsa].
    destruct (window_steps _ _ _ _ _ _ _ _ _ H Hmin Hb) as [Hlb Hsb].
    destruct (lookup_lt_is_Some_2 a (S t)) as [sa Hsa']; [lia|].
    destruct (lookup_lt_is_Some_2 b t) as [sb Hsb']; [lia|].
    rewrite Hsa', Hsb'. f_equal.
    apply Hsa in Hsa'. apply Hsb in Hsb'.
    replace (S i + t) with (i + S t) in Hsb' by lia. congruence.
  - intros i a b t Ha Hb Ht.
    destruct (label_rows _ _ _ _ _ _ _ _ _ H Hmin Ha) as [Hla Hsa].
    destruct (label_rows _ _ _ _ _ _ _ _ _ H Hmin Hb) as [Hlb Hsb].
    destruct (lookup_lt_is_Some_2 a (S t)) as [ra Hra]; [lia|].
    destruct (lookup_lt_is_Some_2 b t) as [rb Hrb]; [lia|].
    rewrite Hra, Hrb. f_equal.
    destruct (Hsa _ _ Hra) as (fa & Hfa & ->). destruct (Hsb _ _ Hrb) as (fb & Hfb & ->).
    replace (S i + lookback + t) with (i + lookback + S t) in Hfb by lia. congruence.
  - intros Hhead i t j u y row x step Hy Hrow Hx Hstep Heq.
    destruct (label_rows _ _ _ _ _ _ _ _ _ H Hmin Hy) as [_ Hrows].
    destruct (Hrows _ _ Hrow) as (full & Hfull & ->).
    destruct (window_steps _ _ _ _ _ _ _ _ _ H Hmin Hx) as [_ Hsteps].
    specialize (Hsteps _ _ Hstep). rewrite Heq in Hsteps.
    destruct (normalized_sources_ok msd (normalizers this) minLength Hmin) as [Hns _].
    destruct (time_step_head _ _ _ _ _ _ Hns Hhead Hsteps) as (full' & Hfull' & ->).
    congruence.
Qed.

(** * Normalizer entries after a preparation *)

Lemma store_at_stores symbol features nz dim :
  is_Some (store_at symbol features nz dim !! dim_key symbol dim).
Proof.
  unfold store_at. destruct (nz !! dim_key symbol dim) eqn:E.
  - rewrite E. eauto.
  - rewrite lookup_insert_eq. eauto.
Qed.

Lemma normalize_row_stores symbol features nz dim (row : list num) d :
  dim <= d < dim + length row ->
  is_Some ((normalize_row symbol features nz dim row).1 !! dim_key symbol d).
Proof.
  revert nz dim. induction row as [|val rest IH]; intros nz dim Hd; [cbn in Hd; lia|].
  cbn [length] in Hd. rewrite normalize_row_cons. cbn [fst].
  destruct (decide (d = dim)) as [->|Hne].
  - destruct (store_at_stores symbol features nz dim) as [p Hp].
    rewrite (normalize_row_keeps _ _ _ _ _ _ _ Hp). eauto.
  - apply IH. lia.
Qed.

Lemma normalize_rows_stores symbol features nz (rows : list (list num)) d :
  rows <> [] -> Forall (fun r => length r = 5) rows -> d < 5 ->
  is_Some ((normalize_rows symbol features nz rows).1 !! dim_key symbol d).
Proof.
  intros Hne Hw Hd. destruct rows as [|row rest]; [contradiction|].
  inversion Hw as [|? ? Hrow _]; subst. rewrite normalize_rows_cons. cbn [fst].
  destruct (normalize_row_stores symbol features nz 0 row d) as [p Hp]; [lia|].
  rewrite (normalize_rows_keeps _ _ _ _ _ _ Hp). eauto.
Qed.

Lemma normalize_sources_stores minLength msd nz ns symbol d :
  1 <= minLength ->
  (forall entry, entry ∈ msd -> minLength <= length entry.2) ->
  symbol ∈ Obj.keys msd -> d < 5 ->
  is_Some ((fold_left (normalize_source minLength) msd (nz, ns)).1 !! dim_key symbol d).
Proof.
  intros Hpos. revert nz ns. induction msd as [|[s series] msd IH];
    intros nz ns Hlen Hin Hd; [inversion Hin|].
  cbn [fold_left]. rewrite normalize_source_eq. cbn [fst snd].
  set (features := extractFeatures (take minLength series)).
  set (done := normalize_rows s features nz features).
  unfold Obj.keys in Hin. cbn [map fst] in Hin.
  destruct (decide (symbol ∈ Obj.keys msd)) as [Hlater|Hnot].
  - apply IH; [|assumption..]. intros e He. apply Hlen. by right.
  - assert (symbol = s) as -> by (inversion Hin; subst; [reflexivity | contradiction]).
    destruct (normalize_rows_stores s features nz features d) as [p Hp].
    + intros Hnil. apply (f_equal length) in Hnil. subst features.
      rewrite extractFeatures_length, length_take in Hnil. cbn in Hnil.
      specialize (Hlen (s, series) ltac:(left)). cbn in Hlen. lia.
    + apply extractFeatures_width.
    + assumption.
    + fold done in Hp.
      pose proof (normalize_sources_keeps minLength msd done.1 _ _ Hp) as Hk.
      unfold normalize_sources in Hk.
      assert (forall acc1 acc2,
                (fold_left (normalize_source minLength) msd (done.1, acc1)).1
                = (fold_left (normalize_source minLength) msd (done.1, acc2)).1) as Hindep.
      { clear. generalize (done.1). induction msd as [|e msd IH]; intros nz0 a1 a2;
          [reflexivity|].
        cbn [fold_left]. rewrite !normalize_source_eq. cbn [fst snd]. apply IH. }
      rewrite (Hindep _ []). rewrite Hk. eauto.
Qed.

(** X12.  After [prepareTrainingData] on series of at least one record, the
    normalizer map has an entry for each of the five dimensions of every
    source (also when the call ends in an exception); the map handed back
    in the result is the processor's. *)
Theorem preparation_stores_every_dimension this msd targetSymbol lookback forecast minLength :
  minLength_of msd = Some minLength -> 1 <= minLength ->
  (forall symbol d, symbol ∈ Obj.keys msd -> d < 5 ->
     is_Some (normalizers (prepareTrainingData this msd targetSymbol lookback forecast).1
                !! dim_key symbol d)) /\
  (forall data,
     (prepareTrainingData this msd targetSymbol lookback forecast).2 = Returned data ->
     td_normalizers data
       = normalizers (prepareTrainingData this msd targetSymbol lookback forecast).1).
Proof.
  intros Hmin Hpos. split.
  - intros symbol d Hin Hd. rewrite (prepareTrainingData_eq _ _ _ _ _ _ Hmin).
    cbn [fst normalizers set_normalizers]. unfold normalize_sources.
    apply normalize_sources_stores; try assumption.
    by apply minLength_of_le.
  - intros data H.
    by destruct (prepareTrainingData_inv _ _ _ _ _ _ H) as (_ & _ & _ & _ & _ & _ & _ & ->).
Qed.
End WindowContents.

(** * Prices back from the labels *)

Section SourceOwn.
Context {N : JsNumber}.
Implicit Types (msd : list (string * list Candle))
  (nz : gmap string NormParams) (ns : list (string * list (list num))).

Lemma Obj_get_elem_of {V} (o : list (string * V)) k v :
  Obj.get o k = Some v -> (k, v) ∈ o.
Proof.
  induction o as [|[k0 v0] o IH]; cbn; [discriminate|].
  destruct (decide (k0 = k)) as [->|]; [intros [= ->]; left | intros H; right; by apply IH].
Qed.

(** Sources other than [symbol] leave its rows and its keys alone. *)
Lemma normalize_sources_frame minLength msd nz ns symbol features :
  symbol ∉ Obj.keys msd -> own_params symbol features nz ->
  let out := fold_left (normalize_source minLength) msd (nz, ns) in
  Obj.get out.2 symbol = Obj.get ns symbol /\ own_params symbol features out.1.
Proof.
  revert nz ns. induction msd as [|[s series] msd IH]; intros nz ns Hnot Hown; [by split|].
  cbn [fold_left]. rewrite normalize_source_eq. cbn [fst snd].
  unfold Obj.keys in Hnot. cbn [map fst] in Hnot.
  apply not_elem_of_cons in Hnot as [Hne Hnot].
  destruct (IH (normalize_rows s (extractFeatures (take minLength series)) nz
                  (extractFeatures (take minLength series))).1
               (Obj.set ns s (normalize_rows s (extractFeatures (take minLength series)) nz
                  (extractFeatures (take minLength series))).2)) as [IH1 IH2].
  - exact Hnot.
  - intros d Hd. rewrite normalize_rows_other; [by apply Hown | | apply extractFeatures_width].
    intros d0 Hd0 Heq. apply dim_key_inj in Heq as [? _]; [congruence | assumption..].
  - split; [|exact IH2]. cbn zeta in IH1. rewrite IH1, Obj_get_set.
    destruct (decide (s = symbol)); [congruence | reflexivity].
Qed.

(** The rows recorded for a source whose keys held nothing, or its own
    parameters, before the call. *)
Lemma normalize_sources_own minLength msd nz ns symbol series :
  NoDup (Obj.keys msd) -> Obj.get msd symbol = Some series ->
  let features := extractFeatures (take minLength series) in
  own_params symbol features nz ->
  let out := fold_left (normalize_source minLength) msd (nz, ns) in
  Obj.get out.2 symbol = Some (map (scale_row features 0) features) /\
  own_params symbol features out.1.
Proof.
  cbn zeta. revert nz ns. induction msd as [|[s ser] msd IH]; intros nz ns Hnd Hget Hown;
    [discriminate|].
  unfold Obj.keys in Hnd. cbn [map fst] in Hnd. apply NoDup_cons in Hnd as [Hnotin Hnd].
  cbn [fold_left]. rewrite normalize_source_eq. cbn [fst snd].
  cbn [Obj.get] in Hget. destruct (decide (s = symbol)) as [->|Hne].
  - injection Hget as ->.
    destruct (normalize_rows_own symbol (extractFeatures (take minLength series)) nz
                (extractFeatures (take minLength series))) as [Hrows Hown'];
      [assumption | apply extractFeatures_width |].
    destruct (normalize_sources_frame minLength msd
                (normalize_rows symbol (extractFeatures (take minLength series)) nz
                   (extractFeatures (take minLength series))).1
                (Obj.set ns symbol
                   (normalize_rows symbol (extractFeatures (take minLength series)) nz
                      (extractFeatures (take minLength series))).2)
                symbol (extractFeatures (take minLength series))) as [H1 H2];
      [assumption..|].
    split; [|exact H2]. cbn zeta in H1. rewrite H1, Obj_get_set, decide_True by reflexivity.
    by rewrite Hrows.
  - apply IH; [assumption..|].
    intros d Hd. rewrite normalize_rows_other; [by apply Hown | | apply extractFeatures_width].
    intros d0 Hd0 Heq. apply dim_key_inj in Heq as [? _]; [congruence | assumption..].
Qed.
End SourceOwn.

Section LabelsDecode.
Local Open Scope R_scope.

Lemma scale_unscale (col : list R) (v : R) :
  col <> [] ->
  let p := params_of (N:=Exact) (map Fin col) in
  add (JsNumber:=Exact) (mul (scaled p (Fin v)) (p_range p)) (p_min p) = Fin v.
Proof.
  intros Hne. destruct col as [|c0 cl]; [contradiction|]. cbn zeta.
  rewrite exact_params_of. unfold scaled. cbn [p_min p_range].
  pose proof (nonzero_or_one_neq (fold_left Rmax cl c0 - fold_left Rmin cl c0)) as Hrg.
  rewrite exact_sub, exact_div, exact_mul, exact_add by assumption.
  f_equal. field. assumption.
Qed.

Lemma decode_dim (this : DataProcessor (N:=Exact)) (symbol : string)
    (rf : list (list R)) (f : list R) (d : nat) (v : R) :
  rf <> [] -> Forall (fun r => length r = 5%nat) rf -> (d < 4)%nat ->
  normalizers this !! dim_key symbol d = Some (column_params (map (map Fin) rf) d) ->
  f !! d = Some v -> length f = 5%nat ->
  denormalize_dim this symbol
    (take 4 (scale_row (N:=Exact) (map (map Fin) rf) 0 (map Fin f))) d = Some (Fin v).
Proof.
  intros Hne Hw Hd Hp Hv Hlen. unfold denormalize_dim. rewrite Hp. f_equal.
  rewrite lookup_take_lt by assumption.
  assert (scale_row (N:=Exact) (map (map Fin) rf) 0 (map Fin f) !! d
          = Some (scaled (column_params (map (map Fin) rf) d) (Fin v))) as ->.
  { destruct f as [|a [|b [|c [|e [|g [|]]]]]]; try discriminate.
    do 4 (destruct d as [|d]; [cbn in Hv |- *; by injection Hv as <-|]). lia. }
  cbn [of_undef default]. unfold Datatypes.id.
  unfold column_params. rewrite finite_column by (assumption || lia).
  apply scale_unscale. destruct rf; [contradiction | discriminate].
Qed.

(** X13.  Decoding the labels gives back the prices: on a processor that holds
    no entry for the target's keys, and for a target series of finite
    numbers, [denormalizePrediction] applied to a label [Y[i]] returns the
    open, high, low and close of the [forecast] candles of the target that
    follow the window (exact arithmetic). *)
Theorem labels_decode_to_prices (this : DataProcessor (N:=Exact))
    (msd : list (string * list (Candle (N:=Exact)))) (targetSymbol : string)
    (lookback forecast : nat) (data : TrainingData) (series : list (Candle (N:=Exact))) :
  NoDup (Obj.keys msd) ->
  Obj.get msd targetSymbol = Some series ->
  Forall finite_candle series ->
  (forall d, (d < 5)%nat -> normalizers this !! dim_key targetSymbol d = None) ->
  (prepareTrainingData this msd targetSymbol lookback forecast).2 = Returned data ->
  forall i y, Y data !! i = Some y ->
    denormalizePrediction
      (prepareTrainingData this msd targetSymbol lookback forecast).1 y targetSymbol
    = map ohlc_of (take forecast (drop (i + lookback) series)).
Proof.
  intros Hnd Hget Hfin Hfresh H i y Hy.
  destruct (prepareTrainingData_inv _ _ _ _ _ _ H) as (minLength & _ & Hmin & _).
  destruct (label_rows _ _ _ _ _ _ _ _ _ H Hmin Hy) as [Hlen Hrows].
  pose proof (minLength_of_le msd minLength Hmin (targetSymbol, series)
                (Obj_get_elem_of _ _ _ Hget)) as Hser. cbn [snd] in Hser.
  destruct (finite_features (take minLength series)) as (rf & Hrf & Hw);
    [by apply Forall_take|].
  assert (length rf = minLength) as Hrflen.
  { apply (f_equal length) in Hrf.
    rewrite (extractFeatures_length (N:=Exact)), length_take, length_map in Hrf. lia. }
  destruct (normalize_sources_own (N:=Exact) minLength msd (normalizers this) []
              targetSymbol series Hnd Hget) as [Hns Hown].
  { intros d Hd. left. by apply Hfresh. }
  fold (normalize_sources minLength (normalizers this) msd) in Hns, Hown.
  rewrite Hrf in Hns, Hown.
  set (ns := (normalize_sources minLength (normalizers this) msd).2) in *.
  rewrite (prepareTrainingData_eq _ _ _ _ _ _ Hmin) in *.
  cbn [fst snd normalizers set_normalizers] in *.
  set (nz := (normalize_sources minLength (normalizers this) msd).1) in *.
  (* every label row is a scaled row of the target *)
  assert (forall t row, y !! t = Some row ->
            (i + lookback + t < minLength)%nat /\
            exists f, rf !! (i + lookback + t)%nat = Some f /\
                      row = take 4 (scale_row (N:=Exact) (map (map Fin) rf) 0 (map Fin f)))
    as Hrow.
  { intros t row Ht. destruct (Hrows t row Ht) as (full & Hfull & ->).
    unfold source_row in Hfull. rewrite Hns in Hfull.
    destruct (_ !! (i + lookback + t)%nat) as [r|] eqn:Hr; [|discriminate].
    injection Hfull as <-.
    change (map ?g ?x) with (g <$> x) in Hr. rewrite !list_lookup_fmap in Hr.
    destruct (rf !! (i + lookback + t)%nat) as [f|] eqn:Hf; [|discriminate].
    injection Hr as <-. split; [|eauto].
    apply lookup_lt_Some in Hf. lia. }
  apply list_eq. intros t. unfold denormalizePrediction.
  change (map ?g ?x) with (g <$> x). rewrite !list_lookup_fmap.
  rewrite lookup_take, lookup_drop.
  destruct (y !! t) as [row|] eqn:Ht.
  - destruct (Hrow t row Ht) as (Hidx & f & Hf & ->).
    assert (t < forecast)%nat as Htf by (rewrite <- Hlen; by eapply lookup_lt_Some).
    rewrite decide_True by assumption.
    destruct (lookup_lt_is_Some_2 series (i + lookback + t)) as [c Hc]; [lia|].
    rewrite Hc. cbn [fmap option_fmap option_map]. f_equal.
    (* the features of candle [c] *)
    assert (map Fin f = [open c; high c; low c; close c;
                         div (JsNumber:=Exact) (volume c) (of_Z 1000000)]) as Hfc.
    { assert (extractFeatures (take minLength series) !! (i + lookback + t)%nat
              = Some (map Fin f)) as Hrow'.
      { rewrite Hrf. change (map ?g ?x) with (g <$> x).
        by rewrite list_lookup_fmap, Hf. }
      unfold extractFeatures in Hrow'.
      change (map ?g ?x) with (g <$> x) in Hrow'.
      rewrite list_lookup_fmap, lookup_take_lt, Hc in Hrow' by assumption.
      cbn in Hrow'. injection Hrow' as Heq. symmetry. exact Heq. }
    assert (length f = 5%nat) as Hf5 by (eapply Forall_lookup_1 in Hw; eauto).
    assert (rf <> []) as Hne by (intros ->; discriminate).
    assert (forall d, (d < 4)%nat ->
              nz !! dim_key targetSymbol d = Some (column_params (map (map Fin) rf) d))
      as Hkeys.
    { intros d Hd. destruct (Hown d ltac:(lia)) as [Hnone|Hsome]; [|exact Hsome].
      exfalso. unfold nz, normalize_sources in Hnone.
      destruct (normalize_sources_stores (N:=Exact) minLength msd (normalizers this) []
                  targetSymbol d) as [p Hp]; try lia.
      - by apply minLength_of_le.
      - apply Obj_get_Some_keys. eauto.
      - rewrite Hp in Hnone. discriminate. }
    destruct f as [|a [|b [|c3 [|e [|g [|]]]]]]; try discriminate.
    cbn [map] in Hfc. injection Hfc as Ho Hh Hl Hcl _.
    unfold ohlc_of. rewrite <- Ho, <- Hh, <- Hl, <- Hcl.
    f_equal.
    + apply (decode_dim _ _ rf [a; b; c3; e; g] 0%nat a); auto; apply Hkeys; lia.
    + apply (decode_dim _ _ rf [a; b; c3; e; g] 1%nat b); auto; apply Hkeys; lia.
    + apply (decode_dim _ _ rf [a; b; c3; e; g] 2%nat c3); auto; apply Hkeys; lia.
    + apply (decode_dim _ _ rf [a; b; c3; e; g] 3%nat e); auto; apply Hkeys; lia.
  - apply lookup_ge_None in Ht. rewrite Hlen in Ht.
    rewrite decide_False by lia. reflexivity.
Qed.
End LabelsDecode.

(** * Preparation from CSV data *)

Section ObjInsertion.
Context {V : Type}.
Implicit Types (o : list (string * V)) (k : string) (v : V).

Lemma Obj_keys_set o k v k' :
  k' ∈ Obj.keys (Obj.set o k v) <-> k' = k \/ k' ∈ Obj.keys o.
Proof.
  rewrite <- !Obj_get_Some_keys, Obj_get_set.
  destruct (decide (k = k')) as [->|Hne].
  - split; [by left | eauto].
  - split; [by right | intros [->|H]; [contradiction | assumption]].
Qed.

Lemma Obj_set_NoDup o k v : NoDup (Obj.keys o) -> NoDup (Obj.keys (Obj.set o k v)).
Proof.
  unfold Obj.keys. induction o as [|[k0 v0] o IH]; intros Hnd; cbn.
  - apply NoDup_singleton.
  - cbn in Hnd. apply NoDup_cons in Hnd as [Hnotin Hnd].
    destruct (decide (k0 = k)) as [->|Hne]; cbn.
    + by apply NoDup_cons.
    + apply NoDup_cons. split; [|by apply IH].
      intros Hin. apply Hnotin.
      apply (Obj_keys_set o k v k0) in Hin as [->|Hin]; [contradiction | assumption].
Qed.

Lemma Obj_set_head o k v k0 :
  head (Obj.keys o) = Some k0 -> head (Obj.keys (Obj.set o k v)) = Some k0.
Proof.
  destruct o as [|[k1 v1] o]; [discriminate|]. cbn. intros [= ->].
  destruct (decide (k0 = k)) as [->|]; reflexivity.
Qed.
End ObjInsertion.

Section CsvPreparation.
Context {N : JsNumber}.
Implicit Types (this : DataProcessor) (msd : list (string * list Candle)).

(** The map [prepareTrainingDataFromCSV] collects from the related
    symbols. *)
Lemma collected_sources this (relatedSymbols : list string) msd :
  let out :=
    fold_left
      (fun msd symbol =>
         match csvData this !! toUpperCase symbol with
         | Some data => Obj.set msd symbol data
         | None => msd
         end)
      relatedSymbols msd in
  (forall s, s ∈ Obj.keys out <->
     s ∈ Obj.keys msd \/
     (s ∈ relatedSymbols /\ is_Some (csvData this !! toUpperCase s))) /\
  (NoDup (Obj.keys msd) -> NoDup (Obj.keys out)) /\
  (forall k0, head (Obj.keys msd) = Some k0 -> head (Obj.keys out) = Some k0) /\
  (forall s series,
     (forall s0 series0, Obj.get msd s0 = Some series0 ->
        csvData this !! toUpperCase s0 = Some series0) ->
     Obj.get out s = Some series -> csvData this !! toUpperCase s = Some series).
Proof.
  cbn zeta. revert msd. induction relatedSymbols as [|symbol rest IH]; intros msd.
  - cbn. repeat split; try tauto.
    + intros [H|[H _]]; [assumption | inversion H].
    + intros s series H. apply H.
  - cbn [fold_left].
    destruct (IH (match csvData this !! toUpperCase symbol with
                  | Some data => Obj.set msd symbol data
                  | None => msd
                  end)) as (IH1 & IH2 & IH3 & IH4).
    destruct (csvData this !! toUpperCase symbol) as [data|] eqn:Hcsv.
    + repeat split.
      * rewrite IH1, Obj_keys_set. intros [[->|H]|[H1 H2]].
        -- right. split; [left | rewrite Hcsv; eauto].
        -- by left.
        -- right. split; [by right | assumption].
      * rewrite IH1, Obj_keys_set. intros [H|[H1 H2]]; [left; by right|].
        inversion H1; subst; [left; by left | right; by split].
      * intros Hnd. by apply IH2, Obj_set_NoDup.
      * intros k0 Hk0. by apply IH3, Obj_set_head.
      * intros s series Hall. apply IH4. intros s0 series0.
        rewrite Obj_get_set. destruct (decide (symbol = s0)) as [<-|]; [|apply Hall].
        intros [= <-]. exact Hcsv.
    + repeat split.
      * rewrite IH1. intros [H|[H1 H2]]; [by left | right; split; [by right | assumption]].
      * rewrite IH1. intros [H|[H1 H2]]; [by left|].
        inversion H1; subst; [|right; by split].
        rewrite Hcsv in H2. destruct H2; discriminate.
      * exact IH2.
      * exact IH3.
      * exact IH4.
Qed.

Lemma prepared_count this msd targetSymbol lookback forecast data minLength :
  (prepareTrainingData this msd targetSymbol lookback forecast).2 = Returned data ->
  minLength_of msd = Some minLength ->
  length (X data) = minLength - lookback - forecast /\
  length (Y data) = minLength - lookback - forecast.
Proof.
  intros H Hmin.
  destruct (prepareTrainingData_inv _ _ _ _ _ _ H) as (m & xy & Hm & Hxy & -> & -> & _).
  rewrite Hmin in Hm. injection Hm as <-.
  apply mapM_seq_length in Hxy. rewrite !length_fmap, Hxy. lia.
Qed.

Lemma minLength_of_is_Some msd : msd <> [] -> is_Some (minLength_of msd).
Proof. destruct msd; [contradiction|]. intros _. cbn. eauto. Qed.

(** X14.  With CSV data under the upper-cased target symbol, and symbols that
    are plain property names, the call returns: the sources are the
    target, first, and then the related symbols that have CSV data, each
    once; no sample reaches beyond the target's series. *)
Theorem csv_preparation_returns this (targetSymbol : string)
    (relatedSymbols : list string) (lookback forecast : nat) (targetData : list Candle) :
  Forall plain_name (targetSymbol :: relatedSymbols) ->
  csvData this !! toUpperCase targetSymbol = Some targetData ->
  exists data,
    (prepareTrainingDataFromCSV this targetSymbol relatedSymbols lookback forecast).2
      = Returned data /\
    head (sources data) = Some targetSymbol /\
    NoDup (sources data) /\
    (forall s, s ∈ sources data <->
       s = targetSymbol \/
       (s ∈ relatedSymbols /\ is_Some (csvData this !! toUpperCase s))) /\
    length (Y data) = length (X data) /\
    length (X data) <= length targetData - lookback - forecast.
Proof.
  intros _ Hcsv. unfold prepareTrainingDataFromCSV. rewrite Hcsv.
  destruct (collected_sources this relatedSymbols (Obj.set [] targetSymbol targetData))
    as (H1 & H2 & H3 & H4).
  set (msd := fold_left _ relatedSymbols _) in *.
  assert (targetSymbol ∈ Obj.keys msd) as Hin by (apply H1; left; cbn; left).
  assert (msd <> []) as Hne by (intros E; rewrite E in Hin; inversion Hin).
  destruct (minLength_of_is_Some msd Hne) as [minLength Hmin].
  destruct (prepareTrainingData_Returned this msd targetSymbol lookback forecast minLength
              Hmin Hin) as [data Hdata].
  exists data. split; [exact Hdata|].
  destruct (prepareTrainingData_inv _ _ _ _ _ _ Hdata) as (_ & _ & _ & _ & _ & _ & Hsrc & _).
  destruct (prepared_count _ _ _ _ _ _ _ Hdata Hmin) as [HX HY].
  rewrite Hsrc. split; [by apply H3|]. split; [apply H2; cbn; apply NoDup_singleton|].
  split.
  - intros s. rewrite H1. cbn. split.
    + intros [H|H]; [left | by right]. by apply list_elem_of_singleton in H.
    + intros [->|H]; [left; left | by right].
  - split; [lia|].
    apply Obj_get_Some_keys in Hin as [series Hseries].
    assert (csvData this !! toUpperCase targetSymbol = Some series) as Hs.
    { apply (H4 targetSymbol series); [|exact Hseries].
      intros s0 series0. cbn. destruct (decide (targetSymbol = s0)) as [<-|]; [|discriminate].
      by intros [= <-]. }
    rewrite Hcsv in Hs. injection Hs as <-.
    pose proof (minLength_of_le msd minLength Hmin (targetSymbol, targetData)
                  (Obj_get_elem_of _ _ _ Hseries)) as Hle. cbn in Hle. lia.
Qed.
End CsvPreparation.

(** * Training history *)

Section History.
Context {N : JsNumber} {M : Type} (tf : TensorFlow M).
Implicit Types (this : SSMAttentionModel M).

(** X15.  [train] only ever appends to the history: one entry per epoch that
    ended, numbered from 0 within the run, after the entries of earlier
    runs; the history it returns is the one it leaves in the model; and
    the seed of the attention weights is from then on the loss of the
    last epoch of this run.  The model has a network afterwards, also
    when [fit] threw. *)
Theorem train_appends_history this (data : TrainingData) :
  let run := tf_fit tf (network tf this) (X data) (Y data) in
  let after := (train tf this data).1 in
  length (trainingHistory after)
    = length (trainingHistory this) + length (epoch_logs run) /\
  (forall i entry, trainingHistory this !! i = Some entry ->
     trainingHistory after !! i = Some entry) /\
  (forall i logs, epoch_logs run !! i = Some logs ->
     trainingHistory after !! (length (trainingHistory this) + i)
       = Some {| epoch := i; loss := logs_loss logs; valLoss := logs_val_loss logs;
                 mse := logs_mse logs |}) /\
  (forall history, (train tf this data).2 = Returned history ->
     history = trainingHistory after) /\
  (forall earlier logs, epoch_logs run = earlier ++ [logs] ->
     seed_of after = logs_loss logs) /\
  is_Some (model after).
Proof.
  cbn zeta. unfold train.
  set (run := tf_fit tf (network tf this) (X data) (Y data)).
  assert (trainingHistory
            (match fit_error run with
             | None =>
                 ({| model := Some (fitted run); trained := true;
                     trainingHistory :=
                       trainingHistory this ++ imap history_entry (epoch_logs run) |},
                  Returned (trainingHistory this ++ imap history_entry (epoch_logs run)))
             | Some e =>
                 ({| model := Some (fitted run); trained := trained this;
                     trainingHistory :=
                       trainingHistory this ++ imap history_entry (epoch_logs run) |},
                  Thrown e)
             end).1 = trainingHistory this ++ imap history_entry (epoch_logs run)) as Hh.
  { destruct (fit_error run); reflexivity. }
  rewrite !Hh. repeat split.
  - by rewrite length_app, length_imap.
  - intros i entry Hi. by apply lookup_app_l_Some.
  - intros i logs Hi. rewrite lookup_app_r by lia.
    replace (length (trainingHistory this) + i - length (trainingHistory this)) with i by lia.
    rewrite list_lookup_imap, Hi. reflexivity.
  - intros history H. destruct (fit_error run); [discriminate|]. by injection H as <-.
  - intros earlier logs Hlogs. unfold seed_of. rewrite Hh, Hlogs.
    rewrite imap_app. cbn [imap]. rewrite app_assoc, last_snoc. reflexivity.
  - destruct (fit_error run); cbn; eauto.
Qed.

End History.

(** * Attention weights *)

Section AttentionNames.
Context {N : JsNumber} {M : Type}.

Lemma imap_names {A B C} (g : nat -> C) (l : list A) (l' : list B) :
  length l = length l' ->
  imap (fun i _ => g i) l = imap (fun i _ => g i) l'.
Proof.
  revert g l'. induction l as [|x l IH]; intros g [|y l'] Hlen; try discriminate;
    [reflexivity|].
  cbn [imap]. f_equal. apply (IH (g ∘ S)). by injection Hlen.
Qed.

Lemma map_names {A B C} (c : C) (l : list A) (l' : list B) :
  length l = length l' -> map (fun _ => c) l = map (fun _ => c) l'.
Proof.
  revert l'. induction l as [|x l IH]; intros [|y l'] Hlen; try discriminate;
    [reflexivity|].
  cbn [map]. f_equal. apply IH. by injection Hlen.
Qed.

(** X17.  The weights do not depend on which sources are named, only on how
    many. *)
Theorem attention_weights_ignore_names (Math_sin : num -> num)
    (this : SSMAttentionModel M) (sourceNames otherNames : list string) :
  length sourceNames = length otherNames ->
  getSourceAttentionWeights Math_sin this sourceNames
    = getSourceAttentionWeights Math_sin this otherNames.
Proof.
  intros Hlen. unfold getSourceAttentionWeights. rewrite Hlen.
  destruct (negb (trained this)); [by apply map_names|].
  by rewrite (imap_names _ sourceNames otherNames Hlen).
Qed.
End AttentionNames.

Section AttentionFloor.
Local Open Scope R_scope.

Lemma bounded_weights {A} (f : nat -> A -> num (JsNumber:=Exact)) (lo hi : R) (l : list A) :
  (forall i x, exists r, f i x = Fin r /\ lo <= r <= hi) ->
  exists rws, imap f l = map Fin rws /\ Forall (between lo hi) rws /\
              length rws = length l.
Proof.
  revert f. induction l as [|x l IH]; intros f Hf.
  - exists []. repeat split. constructor.
  - destruct (Hf 0%nat x) as (r & Hr & Hc).
    destruct (IH (f ∘ S)) as (rws & Hrws & Hall & Hlen).
    { intros i y. apply Hf. }
    exists (r :: rws). cbn [imap map length]. rewrite Hr, Hrws.
    repeat split; [by constructor | by rewrite Hlen].
Qed.

Lemma share_floor (rws : list R) (lo hi : R) :
  rws <> [] -> 0 < lo -> Forall (between lo hi) rws ->
  let weights := map Fin rws in
  Forall (fun w => exists r, w = Fin r /\ lo / (INR (length rws) * hi) <= r)
         (map (fun w => div (JsNumber:=Exact) w (sum weights)) weights).
Proof.
  intros Hne Hlo Hall. cbn zeta. rewrite exact_sum.
  pose proof (fold_Rplus_between rws 0 lo hi Hall) as [Hs1 Hs2].
  set (s := fold_left Rplus rws 0) in *. set (n := INR (length rws)) in *.
  assert (1 <= n) as Hn.
  { subst n. destruct rws as [|x rws]; [contradiction|]. cbn [length].
    rewrite S_INR. pose proof (pos_INR (length rws)). lra. }
  assert (0 < s) as Hs by nra.
  assert (0 < hi) as Hhi.
  { destruct rws as [|x rws]; [contradiction|]. inversion Hall as [|? ? [H1 H2] _]; subst. lra. }
  apply Forall_map, Forall_map, Forall_forall. intros x Hx.
  eapply Forall_forall in Hall; [|exact Hx]. destruct Hall as [Hx1 Hx2].
  exists (x / s). split; [apply exact_div; lra|].
  apply Rle_trans with (lo / s).
  - unfold Rdiv. apply Rmult_le_compat_l; [lra|].
    apply Rinv_le_contravar; [assumption | lra].
  - unfold Rdiv. apply Rmult_le_compat_r; [|assumption].
    apply Rlt_le, Rinv_0_lt_compat, Hs.
Qed.

(** X18.  No source is ever weighted out: for [n >= 1] names, and a finite seed
    when the model is trained, every weight is at least [1 / (20 + 4n)]. *)
Theorem attention_weights_floor {M : Type} (this : SSMAttentionModel (N:=Exact) M)
    (sourceNames : list string) :
  sourceNames <> [] ->
  (trained this = true -> finite (seed_of this)) ->
  Forall (fun w => exists r, w = Fin r /\ 1 / (20 + 4 * INR (length sourceNames)) <= r)
         (getSourceAttentionWeights XReal.sin this sourceNames).
Proof.
  intros Hne Hseed. unfold getSourceAttentionWeights.
  set (n := length sourceNames).
  assert (1 <= INR n) as Hn.
  { subst n. destruct sourceNames as [|x l]; [contradiction|]. cbn [length].
    rewrite S_INR. pose proof (pos_INR (length l)). lra. }
  assert (div (JsNumber:=Exact) (of_Z 1) (of_nat n) = Fin (1 / INR n)) as Hbase.
  { rewrite exact_of_nat. apply exact_div. lra. }
  assert (0 < 1 / INR n <= 1) as Hb.
  { split; [apply Rdiv_lt_0_compat; lra|].
    apply Rmult_le_reg_r with (INR n); [lra|].
    replace (1 / INR n * INR n) with 1 by (field; lra). lra. }
  assert (1 / (20 + 4 * INR n) <= 1 / INR n) as Hfloor_base.
  { unfold Rdiv. apply Rmult_le_compat_l; [lra|]. apply Rinv_le_contravar; lra. }
  destruct (trained this) eqn:Ht; cbn [negb].
  - destruct (finite_Fin _ (Hseed eq_refl)) as [s Hs]. rewrite Hs. cbv zeta.
    destruct (exact_dec 5 2) as [H5 _]. destruct (exact_dec 2 1) as [H2 _].
    destruct (bounded_weights
      (fun (i : nat) (_ : string) =>
         Math_max (N:=Exact)
           [dec 5 2;
            @add Exact (@div Exact (@of_Z Exact 1) (of_nat (N:=Exact) n))
              (@mul Exact
                 (XReal.sin (@mul Exact (@mul Exact (Fin s) (of_nat (N:=Exact) (i + 1)))
                                        (@of_Z Exact 10)))
                 (dec (N:=Exact) 2 1))])
      (5 / 100) (1 / INR n + 2 / 10) sourceNames) as (rws & Hrws & Hall & Hlen).
    { intros i _. rewrite Hbase, H5, H2, exact_of_nat.
      change (@of_Z Exact 10) with (Fin 10).
      rewrite !exact_mul. cbn [XReal.sin]. rewrite exact_mul, exact_add.
      unfold Math_max. cbn [fold_left]. change (@ninf Exact) with NInf.
      rewrite exact_max2_ninf, exact_max2. eexists. split; [reflexivity|].
      change (IZR (10 ^ Z.of_nat 2)) with 100. change (IZR (10 ^ Z.of_nat 1)) with 10.
      pose proof (SIN_bound (s * INR (i + 1) * 10)) as [Hs1 Hs2].
      split; [apply Rmax_l|]. apply Rmax_lub; nra. }
    rewrite Hrws.
    assert (rws <> []) as Hrne.
    { intros ->. destruct sourceNames; [contradiction | discriminate]. }
    pose proof (share_floor rws (5 / 100) (1 / INR n + 2 / 10) Hrne ltac:(lra) Hall) as Hf.
    cbn zeta in Hf. eapply Forall_impl; [exact Hf|].
    intros w (r & -> & Hr). exists r. split; [reflexivity|].
    rewrite Hlen in Hr. fold n in Hr.
    replace (5 / 100 / (INR n * (1 / INR n + 2 / 10))) with (1 / (20 + 4 * INR n)) in Hr
      by (field; lra).
    exact Hr.
  - rewrite Hbase. apply Forall_map, Forall_forall. intros x _.
    exists (1 / INR n). by split.
Qed.
End AttentionFloor.

(** * Correlation: symmetry and change of scale *)

Section CorrelationInvariance.
Local Open Scope R_scope.

Lemma calculateCorrelation_pearson (predictions actuals : list (list (list R))) :
  length (concat (concat actuals)) = length (concat (concat predictions)) ->
  calculateCorrelation (lift predictions) (lift actuals)
  = Fin (pearson (concat (concat predictions)) (concat (concat actuals))).
Proof.
  intros Hlen. pose proof (calculateCorrelation_value predictions actuals) as Hv.
  cbn zeta in Hv. rewrite Hv.
  destruct (decide (length (concat (concat predictions)) = 0%nat)) as [Hz|Hnz].
  - destruct (concat (concat predictions)); [|discriminate].
    destruct (concat (concat actuals)); [|discriminate].
    unfold pearson, dot, deviations. cbn. unfold Rsum. cbn. rewrite sqrt_0.
    destruct (Rlt_dec 0 _); [lra | reflexivity].
  - rewrite decide_True by lia. by rewrite correlation_sums_pearson.
Qed.

Lemma dot_comm (u v : list R) : dot u v = dot v u.
Proof.
  unfold dot. f_equal. revert v. induction u as [|x u IH]; intros [|y v]; try reflexivity.
  cbn [zip_with]. rewrite IH. f_equal. ring.
Qed.

Lemma pearson_comm (p a : list R) : pearson p a = pearson a p.
Proof.
  unfold pearson. rewrite (dot_comm (deviations p) (deviations a)).
  rewrite (Rmult_comm (R_sqrt.sqrt (dot (deviations p) (deviations p)))). reflexivity.
Qed.

Lemma Rsum_affine (c d : R) (l : list R) :
  Rsum (map (fun x => c * x + d) l) = c * Rsum l + d * INR (length l).
Proof.
  unfold Rsum. induction l as [|x l IH]; [cbn; ring|].
  cbn [map fold_right length]. rewrite IH, S_INR. ring.
Qed.

Lemma deviations_affine (c d : R) (l : list R) :
  deviations (map (fun x => c * x + d) l) = map (fun x => c * x) (deviations l).
Proof.
  unfold deviations, mean. rewrite Rsum_affine, length_map, !map_map.
  destruct l as [|x0 l0]; [reflexivity|]. set (l := x0 :: l0).
  assert (INR (length l) <> 0) as Hn by (apply not_0_INR; discriminate).
  apply map_ext. intros x. field. assumption.
Qed.

Lemma dot_scale_l (c : R) (u v : list R) :
  dot (map (fun x => c * x) u) v = c * dot u v.
Proof.
  unfold dot, Rsum. revert v. induction u as [|x u IH]; intros [|y v];
    cbn [map zip_with fold_right]; try ring.
  rewrite IH. ring.
Qed.

Lemma dot_nonneg (u : list R) : 0 <= dot u u.
Proof.
  unfold dot, Rsum. induction u as [|x u IH]; cbn [zip_with fold_right]; [lra|].
  pose proof (Rle_0_sqr x) as H. unfold Rsqr in H. lra.
Qed.

Lemma pearson_affine (c d : R) (p a : list R) :
  c <> 0 ->
  pearson (map (fun x => c * x + d) p) a
  = (if Rlt_dec 0 c then 1 else -1) * pearson p a.
Proof.
  intros Hc. unfold pearson. rewrite deviations_affine.
  rewrite dot_scale_l, (dot_comm (deviations p) (map _ _)), dot_scale_l.
  rewrite (dot_scale_l c (deviations p) (deviations a)).
  set (A := dot (deviations p) (deviations p)).
  set (B := dot (deviations a) (deviations a)).
  set (C := dot (deviations p) (deviations a)).
  assert (0 <= A) as HA by apply dot_nonneg.
  assert (0 <= B) as HB by apply dot_nonneg.
  assert (R_sqrt.sqrt (c * (c * A)) = Rabs c * R_sqrt.sqrt A) as ->.
  { replace (c * (c * A)) with (Rsqr c * A) by (unfold Rsqr; ring).
    rewrite sqrt_mult; [|apply Rle_0_sqr | assumption]. by rewrite sqrt_Rsqr_abs. }
  pose proof (sqrt_pos A) as HsA. pose proof (sqrt_pos B) as HsB.
  set (sA := R_sqrt.sqrt A) in *. set (sB := R_sqrt.sqrt B) in *.
  pose proof (Rabs_pos_lt c Hc) as Habs.
  destruct (Rlt_dec 0 (sA * sB)) as [Hd|Hd].
  - destruct (Rlt_dec 0 (Rabs c * sA * sB)) as [_|Hn]; [|exfalso; apply Hn; nra].
    destruct (Rlt_dec 0 c) as [Hpos|Hneg].
    + rewrite Rabs_right by lra. field. split; nra.
    + rewrite Rabs_left by lra. field. split; nra.
  - destruct (Rlt_dec 0 (Rabs c * sA * sB)) as [Hp|_]; [exfalso; apply Hd; nra|].
    ring.
Qed.

Lemma concat_map_map {A B} (f : A -> B) (l : list (list A)) :
  concat (map (map f) l) = map f (concat l).
Proof.
  induction l as [|x l IH]; [reflexivity|]. cbn [map concat]. by rewrite IH, map_app.
Qed.

Lemma flat_rescale (c d : R) (batch : list (list (list R))) :
  concat (concat (rescale c d batch))
  = map (fun x => c * x + d) (concat (concat batch)).
Proof. unfold rescale. by rewrite !concat_map_map. Qed.

(** X19.  With as many actuals as predictions (finite numbers, exact
    arithmetic): the correlation is the same with the arguments swapped;
    it does not change when every prediction [x] is replaced by
    [c * x + d] with [c > 0], and changes sign with [c < 0]. *)
Theorem correlation_symmetric_and_scale_free (predictions actuals : list (list (list R)))
    (c d : R) :
  length (concat (concat actuals)) = length (concat (concat predictions)) ->
  calculateCorrelation (lift actuals) (lift predictions)
    = calculateCorrelation (lift predictions) (lift actuals) /\
  (0 < c ->
   calculateCorrelation (lift (rescale c d predictions)) (lift actuals)
     = calculateCorrelation (lift predictions) (lift actuals)) /\
  (c < 0 ->
   exists r,
     calculateCorrelation (lift predictions) (lift actuals) = Fin r /\
     calculateCorrelation (lift (rescale c d predictions)) (lift actuals) = Fin (- r)).
Proof.
  intros Hlen.
  assert (length (concat (concat actuals))
          = length (concat (concat (rescale c d predictions)))) as Hlen'.
  { by rewrite flat_rescale, length_map. }
  rewrite (calculateCorrelation_pearson predictions actuals Hlen).
  rewrite (calculateCorrelation_pearson actuals predictions (eq_sym Hlen)).
  rewrite (calculateCorrelation_pearson (rescale c d predictions) actuals Hlen').
  rewrite flat_rescale. split; [by rewrite pearson_comm|]. split.
  - intros Hc. rewrite pearson_affine by lra.
    destruct (Rlt_dec 0 c); [|lra]. f_equal. ring.
  - intros Hc. eexists. split; [reflexivity|]. rewrite pearson_affine by lra.
    destruct (Rlt_dec 0 c); [lra|]. f_equal. ring.
Qed.
End CorrelationInvariance.

(** * Direction accuracy: missing actuals, symmetry *)

Section DirectionOutcome.
Context {N : JsNumber}.
Implicit Types (predictions actuals : list (list (list num))) (rows : list (list num)).

Lemma actual_row_lookup actuals i t :
  actual_row actuals i t
  = match actuals !! i ≫= (.!! t) with
    | Some row => Returned row
    | None => Thrown TypeError
    end.
Proof.
  unfold actual_row. destruct (actuals !! i) as [s|]; cbn; [|reflexivity].
  by destruct (s !! t).
Qed.

Lemma direction_steps_outcome actuals i t rows acc :
  (exists acc', direction_steps actuals i t rows acc = Returned acc' /\
     forall k, k < length rows -> is_Some (actuals !! i ≫= (.!! (t + k)))) \/
  (direction_steps actuals i t rows acc = Thrown TypeError /\
     exists k, k < length rows /\ actuals !! i ≫= (.!! (t + k)) = None).
Proof.
  revert t acc. induction rows as [|row rest IH]; intros t acc.
  - left. eexists. split; [reflexivity|]. cbn. lia.
  - cbn [direction_steps]. rewrite actual_row_lookup.
    destruct (actuals !! i ≫= (.!! t)) as [arow|] eqn:Hrow; cbn [mbind outcome_bind].
    + destruct (IH (S t) (if Bool.eqb (direction row) (direction arow)
                          then S acc.1 else acc.1, S acc.2))
        as [(acc' & Hacc & Hall)|(Hthrow & k & Hk & Hnone)].
      * left. exists acc'. split; [exact Hacc|]. intros k Hk. cbn [length] in Hk.
        destruct k as [|k]; [rewrite Nat.add_0_r, Hrow; eauto|].
        replace (t + S k) with (S t + k) by lia. apply Hall. lia.
      * right. split; [exact Hthrow|]. exists (S k). cbn [length]. split; [lia|].
        by replace (t + S k) with (S t + k) by lia.
    + right. split; [reflexivity|]. exists 0. cbn [length]. split; [lia|].
      by rewrite Nat.add_0_r.
Qed.

Lemma direction_samples_outcome actuals i predictions acc :
  (exists acc', direction_samples actuals i predictions acc = Returned acc' /\
     forall j s t, predictions !! j = Some s -> t < length s ->
       is_Some (actuals !! (i + j) ≫= (.!! t))) \/
  (direction_samples actuals i predictions acc = Thrown TypeError /\
     exists j s t, predictions !! j = Some s /\ t < length s /\
       actuals !! (i + j) ≫= (.!! t) = None).
Proof.
  revert i acc. induction predictions as [|rows rest IH]; intros i acc.
  - left. eexists. split; [reflexivity|]. intros j s t H. discriminate.
  - cbn [direction_samples].
    destruct (direction_steps_outcome actuals i 0 rows acc)
      as [(acc1 & -> & Hall)|(-> & k & Hk & Hnone)]; cbn [mbind outcome_bind].
    + destruct (IH (S i) acc1) as [(acc' & Hacc & Hall')|(Hthrow & j & s & t & Hj & Ht & Hnone)].
      * left. exists acc'. split; [exact Hacc|]. intros j s t Hj Ht.
        destruct j as [|j].
        -- injection Hj as <-. rewrite Nat.add_0_r. by apply (Hall t).
        -- replace (i + S j) with (S i + j) by lia. by eapply Hall'.
      * right. split; [exact Hthrow|]. exists (S j), s, t.
        replace (i + S j) with (S i + j) by lia. by repeat split.
    + right. split; [reflexivity|]. exists 0, rows, k. rewrite Nat.add_0_r.
      by repeat split.
Qed.

(** X20.  [calculateDirectionAccuracy] ends in a TypeError exactly when some
    row of [predictions] has no counterpart in [actuals]; otherwise it
    returns.  Rows that only [actuals] has are never read. *)
Theorem direction_accuracy_needs_actuals predictions actuals :
  (uncovered predictions actuals ->
   calculateDirectionAccuracy predictions actuals = Thrown TypeError) /\
  (~ uncovered predictions actuals ->
   exists r, calculateDirectionAccuracy predictions actuals = Returned r).
Proof.
  unfold calculateDirectionAccuracy, uncovered.
  destruct (direction_samples_outcome actuals 0 predictions (0, 0))
    as [(acc & -> & Hall)|(-> & j & s & t & Hj & Ht & Hnone)]; cbn [mbind outcome_bind].
  - split.
    + intros (i & s & t & Hi & Ht & Hnone). exfalso.
      destruct (Hall i s t Hi Ht) as [row Hrow]. cbn [Nat.add] in Hrow. congruence.
    + intros _. eauto.
  - split; [reflexivity|]. intros Hno. exfalso. apply Hno. eauto 7.
Qed.

Lemma agree_comm (a b : list num) : agree a b = agree b a.
Proof. unfold agree. by destruct (direction a), (direction b). Qed.

Lemma agreeing_rows_comm (u v : list (list num)) :
  length (filter (fun p => agree p.1 p.2 = true) (zip u v))
  = length (filter (fun p => agree p.1 p.2 = true) (zip v u)).
Proof.
  revert v. induction u as [|x u IH]; intros [|y v]; try reflexivity.
  cbn [zip zip_with]. rewrite !filter_cons. cbn [fst snd]. rewrite (agree_comm y x).
  destruct (decide (agree x y = true)); cbn [length]; by rewrite IH.
Qed.

Lemma agreeing_comm predictions actuals :
  agreeing predictions actuals = agreeing actuals predictions.
Proof.
  unfold agreeing. revert actuals.
  induction predictions as [|s p IH]; intros [|s' a]; try reflexivity.
  cbn [zip_with concat]. rewrite !filter_app, !length_app, IH.
  f_equal. apply agreeing_rows_comm.
Qed.

Lemma same_shape_covers predictions actuals :
  map length predictions = map length actuals -> covers predictions actuals.
Proof.
  intros Hshape i s Hi.
  assert ((map length predictions) !! i = Some (length s)) as H.
  { change (map ?f ?l) with (f <$> l). by rewrite list_lookup_fmap, Hi. }
  rewrite Hshape in H. change (map ?f ?l) with (f <$> l) in H.
  rewrite list_lookup_fmap in H.
  destruct (actuals !! i) as [s'|]; [|discriminate]. injection H as H.
  exists s'. split; [reflexivity | lia].
Qed.

Lemma same_shape_steps predictions actuals :
  map length predictions = map length actuals -> steps predictions = steps actuals.
Proof.
  unfold steps. revert actuals. induction predictions as [|s p IH]; intros [|s' a] H;
    try discriminate; [reflexivity|].
  cbn [map] in H. injection H as Hs Hp. cbn [concat]. rewrite !length_app, Hs.
  f_equal. by apply IH.
Qed.

(** X21.  On batches of the same shape the accuracy does not depend on which
    batch is called the prediction. *)
Theorem direction_accuracy_symmetric predictions actuals :
  map length predictions = map length actuals ->
  calculateDirectionAccuracy predictions actuals
    = calculateDirectionAccuracy actuals predictions.
Proof.
  intros Hshape. unfold calculateDirectionAccuracy.
  rewrite (direction_samples_zip actuals 0 predictions (0, 0))
    by (apply same_shape_covers; assumption).
  rewrite (direction_samples_zip predictions 0 actuals (0, 0))
    by (apply same_shape_covers; by symmetry).
  rewrite !drop_0. cbn [fst snd Nat.add].
  by rewrite agreeing_comm, (same_shape_steps _ _ Hshape).
Qed.
End DirectionOutcome.

(** * Text *)

Section Text.
Implicit Types (s t : string) (c : Ascii.ascii).

Lemma trimEnd_cons c s :
  trimEnd (String c s)
  = match trimEnd s with
    | EmptyString => if is_space c then EmptyString else String c EmptyString
    | kept => String c kept
    end.
Proof. reflexivity. Qed.

Lemma trimEnd_idem s : trimEnd (trimEnd s) = trimEnd s.
Proof.
  induction s as [|c s IH]; [reflexivity|].
  rewrite trimEnd_cons. destruct (trimEnd s) as [|c' s'] eqn:E.
  - destruct (is_space c) eqn:Hc; [reflexivity|]. cbn. by rewrite Hc.
  - rewrite trimEnd_cons, IH. reflexivity.
Qed.

Lemma trimStart_head s :
  match trimStart s with
  | EmptyString => True
  | String c _ => is_space c = false
  end.
Proof.
  induction s as [|c s IH]; [exact I|]. cbn.
  destruct (is_space c) eqn:Hc; [exact IH | exact Hc].
Qed.

Lemma trimStart_fixed s :
  match s with EmptyString => True | String c _ => is_space c = false end ->
  trimStart s = s.
Proof. destruct s as [|c s]; [reflexivity|]. cbn. by intros ->. Qed.

Lemma trimEnd_head s :
  match s with EmptyString => True | String c _ => is_space c = false end ->
  match trimEnd s with EmptyString => True | String c _ => is_space c = false end.
Proof.
  destruct s as [|c s]; [intros _; exact I|]. intros Hc. rewrite trimEnd_cons.
  destruct (trimEnd s); [by rewrite Hc | exact Hc].
Qed.

Lemma trim_idem s : trim (trim s) = trim s.
Proof.
  unfold trim. rewrite (trimStart_fixed (trimEnd (trimStart s))).
  - apply trimEnd_idem.
  - apply trimEnd_head, trimStart_head.
Qed.

Lemma includes_app c s t : includes c (s +:+ t) = includes c s || includes c t.
Proof.
  induction s as [|c' s IH]; [reflexivity|].
  rewrite string_app_cons. cbn [includes]. rewrite IH. by rewrite orb_assoc.
Qed.

Lemma includes_trimStart c s : includes c s = false -> includes c (trimStart s) = false.
Proof.
  induction s as [|c' s IH]; [reflexivity|]. cbn [includes trimStart]. intros H.
  apply orb_false_iff in H as [H1 H2].
  destruct (is_space c'); [by apply IH|]. cbn [includes]. by rewrite H1, H2.
Qed.

Lemma includes_trimEnd c s : includes c s = false -> includes c (trimEnd s) = false.
Proof.
  induction s as [|c' s IH]; [reflexivity|]. cbn [includes]. intros H.
  apply orb_false_iff in H as [H1 H2]. rewrite trimEnd_cons.
  specialize (IH H2). destruct (trimEnd s) as [|c2 s2].
  - destruct (is_space c'); [reflexivity|]. cbn [includes]. by rewrite H1.
  - cbn [includes] in *. by rewrite H1, IH.
Qed.

Lemma includes_trim c s : includes c s = false -> includes c (trim s) = false.
Proof. intros H. unfold trim. by apply includes_trimEnd, includes_trimStart. Qed.
End Text.

(** * Lines of CSV *)

Section CsvLine.
Implicit Types (line current : string) (result : list string).

Lemma csv_scan_fields line current inQuotes result :
  includes double_quote current = false ->
  exists fields,
    csv_scan line current inQuotes result = result ++ fields /\
    1 <= length fields <= 1 + occurrences comma line /\
    Forall (fun f => trim f = f /\ includes double_quote f = false) fields.
Proof.
  revert current inQuotes result. induction line as [|char rest IH];
    intros current inQuotes result Hcur.
  - exists [trim current]. cbn. split; [reflexivity|]. split; [lia|].
    constructor; [|constructor]. split; [apply trim_idem | by apply includes_trim].
  - cbn [csv_scan occurrences].
    destruct (decide (char = double_quote)) as [->|Hq].
    + destruct (IH current (negb inQuotes) result Hcur) as (fields & -> & Hlen & Hall).
      exists fields. split; [reflexivity|]. split; [|assumption].
      destruct (decide (double_quote = comma)); [discriminate | lia].
    + destruct (bool_decide (char = comma) && negb inQuotes) eqn:Hsep.
      * apply andb_true_iff in Hsep as [Hc _]. apply bool_decide_eq_true in Hc. subst char.
        destruct (IH EmptyString inQuotes (result ++ [trim current]) eq_refl)
          as (fields & -> & Hlen & Hall).
        exists (trim current :: fields). rewrite <- app_assoc. split; [reflexivity|].
        rewrite decide_True by reflexivity. cbn [length]. split; [lia|].
        constructor; [|assumption]. split; [apply trim_idem | by apply includes_trim].
      * destruct (IH (current +:+ String char EmptyString) inQuotes result)
          as (fields & -> & Hlen & Hall).
        { rewrite includes_app, Hcur. cbn. rewrite bool_decide_eq_false_2 by assumption.
          reflexivity. }
        exists fields. split; [reflexivity|]. split; [|assumption].
        destruct (decide (char = comma)); lia.
Qed.

(** X22.  [parseCSVLine] always returns at least one field, and at most one more
    than the line has commas; every field is trimmed and free of double
    quotes. *)
Theorem parseCSVLine_fields line :
  1 <= length (parseCSVLine line) <= 1 + occurrences comma line /\
  Forall (fun field => trim field = field /\ includes double_quote field = false)
         (parseCSVLine line).
Proof.
  unfold parseCSVLine.
  destruct (csv_scan_fields line EmptyString false [] eq_refl) as (fields & -> & H1 & H2).
  by split.
Qed.

Lemma csv_scan_unquoted line current result :
  includes double_quote line = false ->
  csv_scan line current false result
  = result ++ map trim (split_from comma current line).
Proof.
  revert current result. induction line as [|char rest IH]; intros current result Hq.
  - reflexivity.
  - cbn [includes] in Hq. apply orb_false_iff in Hq as [Hq1 Hq2].
    apply bool_decide_eq_false in Hq1.
    cbn [csv_scan split_from]. rewrite decide_False by assumption.
    destruct (decide (char = comma)) as [->|Hc].
    + rewrite bool_decide_eq_true_2 by reflexivity. cbn [andb negb].
      rewrite IH by assumption. cbn [map]. by rewrite <- app_assoc.
    + rewrite bool_decide_eq_false_2 by assumption. cbn [andb]. by apply IH.
Qed.

(** X23.  On a line without double quotes [parseCSVLine] is [split(',')]
    followed by [trim] on every piece, which is how the header line is
    read. *)
Theorem parseCSVLine_without_quotes line :
  includes double_quote line = false ->
  parseCSVLine line = map trim (split comma line).
Proof. intros H. unfold parseCSVLine, split. by rewrite csv_scan_unquoted. Qed.
End CsvLine.

(** * Header and columns *)

Section Columns.
Implicit Types (header names : list string).

Lemma indexOf_None header name : indexOf header name = None <-> name ∉ header.
Proof.
  induction header as [|h rest IH]; cbn.
  - split; [intros _ H; inversion H | reflexivity].
  - destruct (decide (h = name)) as [->|Hne].
    + split; [discriminate | intros H; exfalso; apply H; left].
    + destruct (indexOf rest name) eqn:E; cbn.
      * split; [discriminate|]. intros H. exfalso.
        assert (name ∉ rest) as Hr by (intros Hin; apply H; by right).
        apply IH in Hr. discriminate.
      * split; [|reflexivity]. intros _ Hin.
        inversion Hin; subst; [congruence|]. by apply (proj1 IH eq_refl).
Qed.

Lemma findColumnIndex_None header names :
  findColumnIndex header names = None <->
  forall name, name ∈ names -> toLowerCase name ∉ header.
Proof.
  induction names as [|n rest IH]; cbn.
  - split; [intros _ name H; inversion H | reflexivity].
  - destruct (indexOf header (toLowerCase n)) eqn:E.
    + split; [discriminate|]. intros H. exfalso.
      assert (toLowerCase n ∉ header) as Hn by (apply H; left).
      apply indexOf_None in Hn. congruence.
    + rewrite IH. apply indexOf_None in E. split.
      * intros H name Hin. inversion Hin; subst; [assumption | by apply H].
      * intros H name Hin. apply H. by right.
Qed.
End Columns.

(** * The failures of the parser *)

Section ParserFailures.
Context {N : JsNumber} (host : CsvHost).

Lemma parseYFinanceCSV_ends (csvContent : string) :
  parseYFinanceCSV host csvContent <> Exhausts.
Proof.
  unfold parseYFinanceCSV. destruct (_ <? 2); [discriminate|].
  repeat (destruct (findColumnIndex _ _); [|discriminate]).
  destruct (omap _ _); discriminate.
Qed.

End ParserFailures.

(** * The rows the parser returns *)

Section ParsedRows.
Local Open Scope R_scope.
Context (host : CsvHost (N:=Exact)).

Lemma exact_isnan_false (x : xreal) : isnan (N:=Exact) x = false -> x <> NaN.
Proof. intros H ->. discriminate. Qed.

Lemma max_at_least (C x : num (JsNumber:=Exact)) (c : R) :
  C = Fin c -> x <> NaN -> at_least c (Math_max [C; x]).
Proof.
  intros -> Hx. unfold Math_max. cbn [fold_left]. change (@ninf Exact) with NInf.
  rewrite exact_max2_ninf. destruct x as [v| | |]; [| | |contradiction].
  - rewrite exact_max2. cbn. apply Rmax_l.
  - unfold max2. rewrite exact_isnan. reflexivity.
  - unfold max2. rewrite exact_isnan. cbn. lra.
Qed.

Lemma or_zero_not_nan (x : xreal) : or_zero (N:=Exact) x <> NaN.
Proof.
  unfold or_zero. destruct (_ || _) eqn:E; [discriminate|].
  apply orb_false_iff in E as [_ E]. by apply exact_isnan_false.
Qed.

Lemma volume_at_not_nan (values : list string) (volumeIdx : option nat) :
  volume_at host values volumeIdx <> NaN.
Proof.
  unfold volume_at. destruct volumeIdx; [apply or_zero_not_nan | discriminate].
Qed.

Lemma parse_line_valid dateIdx openIdx highIdx lowIdx closeIdx volumeIdx lineCount i text row :
  parse_line host dateIdx openIdx highIdx lowIdx closeIdx volumeIdx lineCount i text
    = Some row ->
  parsed_candle (row_candle row) /\ timestamp row = Date_getTime host (date row).
Proof.
  unfold parse_line. destruct (trim text) as [|c rest]; [discriminate|].
  set (values := parseCSVLine (String c rest)).
  destruct (isnan (parseFloat_at host values openIdx)) eqn:Ho; [discriminate|].
  destruct (isnan (parseFloat_at host values highIdx)) eqn:Hh; [discriminate|].
  destruct (isnan (parseFloat_at host values lowIdx)) eqn:Hl; [discriminate|].
  destruct (isnan (parseFloat_at host values closeIdx)) eqn:Hc; [discriminate|].
  cbn [orb]. destruct (date_at host values dateIdx lineCount i) as [dateStr|];
    [|discriminate].
  cbn [mbind option_bind]. intros [= <-]. cbn [row_candle timestamp date].
  split; [|reflexivity]. unfold parsed_candle. cbn [open high low close volume].
  pose proof (proj1 (exact_dec 1 2)) as Hcent.
  repeat split;
    try (apply (max_at_least _ _ (1 / 100)); [exact Hcent | by apply exact_isnan_false]).
  apply (max_at_least _ _ 0); [reflexivity | apply volume_at_not_nan].
Qed.

Lemma omap_Forall {A B} (f : A -> option B) (P : B -> Prop) (l : list A) :
  (forall x y, f x = Some y -> P y) -> Forall P (omap f l).
Proof.
  intros H. induction l as [|x l IH]; [constructor|]. cbn.
  destruct (f x) eqn:E; [constructor; eauto | assumption].
Qed.

Lemma omap_length_le {A B} (f : A -> option B) (l : list A) :
  (length (omap f l) <= length l)%nat.
Proof. induction l as [|x l IH]; cbn; [lia|]. destruct (f x); cbn; lia. Qed.

(** X25.  Whatever the number parsers of the host make of the cells, the rows
    [parseYFinanceCSV] returns hold prices of at least 0.01 and volumes
    that are not negative, none of them NaN; there is at least one row
    and at most one per line after the header; and a row's timestamp is
    that of its date.  (The order of the rows is that of the host's sort,
    of which only that it permutes is used.) *)
Theorem parsed_rows_are_valid (csvContent : string) (rows : list CsvRow) :
  (forall data, sort_by_timestamp host data ≡ₚ data) ->
  parseYFinanceCSV host csvContent = Returned rows ->
  rows <> [] /\
  (length rows <= length (csv_lines csvContent) - 1)%nat /\
  Forall (fun row => parsed_candle (row_candle row) /\
                     timestamp row = Date_getTime host (date row)) rows.
Proof.
  intros Hsort. unfold parseYFinanceCSV.
  set (lines := csv_lines csvContent). set (header := csv_header lines).
  destruct (length lines <? 2)%nat; [discriminate|].
  destruct (findColumnIndex header open_names) as [openIdx|]; [|discriminate].
  destruct (findColumnIndex header high_names) as [highIdx|]; [|discriminate].
  destruct (findColumnIndex header low_names) as [lowIdx|]; [|discriminate].
  destruct (findColumnIndex header close_names) as [closeIdx|]; [|discriminate].
  set (data := omap _ _).
  assert (Forall (fun row => parsed_candle (row_candle row) /\
                             timestamp row = Date_getTime host (date row)) data) as Hvalid.
  { apply omap_Forall. intros [i text] row. apply parse_line_valid. }
  assert (length data <= length lines - 1)%nat as Hlen.
  { subst data. etransitivity; [apply omap_length_le|].
    rewrite length_drop, length_imap. lia. }
  destruct data as [|row0 more] eqn:Hdata; [discriminate|].
  intros [= <-]. pose proof (Hsort (row0 :: more)) as Hperm.
  split; [|split].
  - intros Hnil. rewrite Hnil in Hperm. by apply Permutation_nil_cons in Hperm.
  - by rewrite Hperm.
  - by rewrite Hperm.
Qed.
End ParsedRows.

(** * Loading and looking up *)

Section LoadAndGet.
Context {N : JsNumber} (host : CsvHost).

Lemma upper_ascii_idem (c : Ascii.ascii) : upper_ascii (upper_ascii c) = upper_ascii c.
Proof. destruct c as [[] [] [] [] [] [] [] []]; reflexivity. Qed.

Lemma toUpperCase_idem (s : string) : toUpperCase (toUpperCase s) = toUpperCase s.
Proof.
  induction s as [|c s IH]; [reflexivity|]. cbn. by rewrite upper_ascii_idem, IH.
Qed.

(** X26.  A file that parses is stored under its upper-cased name without the
    extension [.csv], and [getCSVData] finds its candles whatever the
    case of the symbol asked for; the data of other symbols is as before.
    A file that fails to read or to parse changes nothing. *)
Theorem loaded_file_is_found (this : DataProcessor) (name : string)
    (content : option string) :
  let after := (loadCSVFile host this name content).1 in
  let symbol := toUpperCase (strip_csv name) in
  (forall text rows, content = Some text -> parseYFinanceCSV host text = Returned rows ->
     (loadCSVFile host this name content).2
       = Returned {| loaded_symbol := symbol; loaded_data := rows;
                     rowCount := length rows |} /\
     (forall asked, toUpperCase asked = symbol ->
        getCSVData after asked = Some (map row_candle rows)) /\
     getCSVData after symbol = Some (map row_candle rows) /\
     (forall asked, toUpperCase asked <> symbol ->
        getCSVData after asked = getCSVData this asked) /\
     normalizers after = normalizers this) /\
  ((forall rows, (loadCSVFile host this name content).2 <> Returned rows) ->
   after = this).
Proof.
  cbn zeta. split.
  - intros text rows -> Hparse. unfold loadCSVFile. rewrite Hparse. cbn [fst snd].
    unfold getCSVData. cbn [csvData normalizers].
    repeat split.
    + intros asked ->. apply lookup_insert_eq.
    + rewrite toUpperCase_idem. apply lookup_insert_eq.
    + intros asked Hne. by rewrite lookup_insert_ne.
  - intros Hfail. unfold loadCSVFile in *. destruct content as [text|]; [|reflexivity].
    destruct (parseYFinanceCSV host text) as [rows| |]; try reflexivity.
    exfalso. by eapply Hfail.
Qed.
End LoadAndGet.

(** * Candles with their indicators *)

Section MacdExact.
Local Open Scope R_scope.

Lemma ema_Fin (L : list (num (JsNumber:=Exact))) (x : R) (l : list R) (period : nat) :
  L = map Fin (x :: l) ->
  ema L period = map Some (map Fin (x :: Rema_loop (smoothing period) x l)).
Proof.
  intros ->. unfold ema. cbn [map]. by rewrite exact_smoothing, ema_loop_Fin.
Qed.

Lemma lookup_map_Fin (L : list (num (JsNumber:=Exact))) (l : list R) (i : nat) :
  L = map Fin l -> (i < length l)%nat -> L !! i = Some (Fin (nth i l 0)).
Proof.
  intros -> Hi. destruct (lookup_lt_is_Some_2 l i Hi) as [x Hx].
  change (map Fin l) with (Fin <$> l). rewrite list_lookup_fmap, Hx. cbn.
  do 2 f_equal. symmetry. by apply nth_lookup_Some with (d := 0) in Hx.
Qed.

Lemma lookup_map_Some_Fin (L : list (option (num (JsNumber:=Exact)))) (l : list R)
    (i : nat) :
  L = map Some (map Fin l) -> (i < length l)%nat ->
  mjoin (L !! i) = Some (Fin (nth i l 0)).
Proof.
  intros -> Hi. destruct (lookup_lt_is_Some_2 l i Hi) as [x Hx].
  change (map Some (map Fin l)) with (Some <$> (Fin <$> l)).
  rewrite !list_lookup_fmap, Hx. cbn.
  do 2 f_equal. symmetry. by apply nth_lookup_Some with (d := 0) in Hx.
Qed.

Lemma difference_Fin (A B : list (option (num (JsNumber:=Exact)))) (a b : list R) :
  A = map Some (map Fin a) -> B = map Some (map Fin b) -> length a = length b ->
  imap (fun i v => sub (of_undef v) (of_undef (mjoin (B !! i)))) A
  = map Fin (map (fun i => nth i a 0 - nth i b 0) (seq 0 (length a))).
Proof.
  intros HA HB Hlen. apply list_eq. intros i. rewrite list_lookup_imap.
  change (map Fin (map ?g ?x)) with (Fin <$> (g <$> x)). rewrite !list_lookup_fmap.
  destruct (Nat.lt_ge_cases i (length a)) as [Hi|Hi].
  - rewrite lookup_seq_lt by assumption. cbn [fmap option_fmap option_map Nat.add].
    pose proof (lookup_map_Some_Fin B b i HB ltac:(lia)) as Hb.
    pose proof (lookup_map_Some_Fin A a i HA Hi) as Ha.
    destruct (A !! i) as [v|]; [|discriminate]. cbn in Ha. subst v.
    destruct (B !! i) as [w|]; [|discriminate]. cbn in Hb. subst w. reflexivity.
  - rewrite lookup_seq_ge by assumption. cbn.
    rewrite (lookup_ge_None_2 A); [reflexivity|]. subst A. by rewrite !length_map.
Qed.

Lemma histogram_Fin (A : list (num (JsNumber:=Exact)))
    (B : list (option (num (JsNumber:=Exact)))) (a b : list R) :
  A = map Fin a -> B = map Some (map Fin b) -> length a = length b ->
  imap (fun i v => sub v (of_undef (mjoin (B !! i)))) A
  = map Fin (map (fun i => nth i a 0 - nth i b 0) (seq 0 (length a))).
Proof.
  intros HA HB Hlen. apply list_eq. intros i. rewrite list_lookup_imap.
  change (map Fin (map ?g ?x)) with (Fin <$> (g <$> x)). rewrite !list_lookup_fmap.
  destruct (Nat.lt_ge_cases i (length a)) as [Hi|Hi].
  - rewrite lookup_seq_lt by assumption. cbn [fmap option_fmap option_map Nat.add].
    pose proof (lookup_map_Some_Fin B b i HB ltac:(lia)) as Hb.
    pose proof (lookup_map_Fin A a i HA Hi) as Ha.
    destruct (A !! i) as [v|]; [|discriminate]. injection Ha as ->.
    destruct (B !! i) as [w|]; [|discriminate]. cbn in Hb. subst w. reflexivity.
  - rewrite lookup_seq_ge by assumption. cbn.
    rewrite (lookup_ge_None_2 A); [reflexivity|]. subst A. by rewrite length_map.
Qed.

Lemma calculateMACD_Fin (x : R) (l : list R) (fast slow signalPeriod : nat) :
  exists m sg h,
    calculateMACD (N:=Exact) (map Fin (x :: l)) fast slow signalPeriod
      = {| macd := map Fin m; signal := map Some (map Fin sg); histogram := map Fin h |} /\
    length m = S (length l) /\ length sg = S (length l).
Proof.
  set (ef := x :: Rema_loop (smoothing fast) x l).
  set (es := x :: Rema_loop (smoothing slow) x l).
  assert (length ef = S (length l)) as Hef by (cbn; by rewrite Rema_loop_length).
  assert (length es = S (length l)) as Hes by (cbn; by rewrite Rema_loop_length).
  set (m := map (fun i => nth i ef 0 - nth i es 0) (seq 0 (length ef))).
  assert (length m = S (length l)) as Hm by (unfold m; by rewrite length_map, length_seq).
  destruct m as [|m0 m'] eqn:Em; [discriminate|].
  set (sg := m0 :: Rema_loop (smoothing signalPeriod) m0 m').
  assert (length sg = S (length l)) as Hsg.
  { cbn. rewrite Rema_loop_length. cbn in Hm. lia. }
  exists (m0 :: m'), sg,
         (map (fun i => nth i (m0 :: m') 0 - nth i sg 0) (seq 0 (length (m0 :: m')))).
  split; [|split; assumption].
  unfold calculateMACD.
  rewrite (ema_Fin _ x l fast eq_refl), (ema_Fin _ x l slow eq_refl).
  fold ef es.
  rewrite (difference_Fin _ _ ef es eq_refl eq_refl) by lia.
  fold m. rewrite Em.
  rewrite (ema_Fin _ m0 m' signalPeriod eq_refl). fold sg.
  f_equal. apply histogram_Fin; [reflexivity.. | lia].
Qed.
End MacdExact.

Section IndicatedExact.
Local Open Scope R_scope.
Context (Math_pow : xreal -> xreal -> xreal).
Hypothesis pow_2 : forall x, Math_pow (Fin x) (Fin 2) = Fin (x * x).

Lemma nth_between (l : list R) (lo hi : R) (i : nat) :
  Forall (between lo hi) l -> (i < length l)%nat -> between lo hi (nth i l 0).
Proof.
  intros Hl Hi. destruct (lookup_lt_is_Some_2 l i Hi) as [x Hx].
  rewrite (nth_lookup_Some _ _ 0 _ Hx). by eapply Forall_lookup_1.
Qed.

(** X27.  The indicators of a series of candles whose closes are
    finite numbers between [lo >= 0] and [hi] (exact arithmetic):
    [calculateIndicators] returns one item per candle, in order, with the
    candle as it was and values as [indicated_within] says. *)
Theorem indicators_of_finite_closes (data : list (Candle (N:=Exact)))
    (closes : list R) (lo hi : R) :
  map close data = map Fin closes ->
  Forall (between lo hi) closes -> 0 <= lo ->
  Forall2 (indicated_within lo hi) data (calculateIndicators Math_pow data).
Proof.
  intros Hcl Hb Hlo.
  assert (length closes = length data) as Hlen.
  { apply (f_equal length) in Hcl. rewrite !length_map in Hcl. lia. }
  destruct closes as [|c0 cl] eqn:Ecl.
  { destruct data; [constructor | discriminate]. }
  rewrite <- Ecl in *.
  assert (forall period, length (RmovingAverage closes period) = length closes) as Hma.
  { intros period. unfold RmovingAverage. by rewrite length_imap. }
  destruct (calculateMACD_Fin c0 cl 12 26 9) as (m & sg & h & Hmacd & Hm & Hsg).
  rewrite <- Ecl in Hmacd.
  assert (length closes = S (length cl)) as Hcons by (rewrite Ecl; reflexivity).
  unfold calculateIndicators. cbv zeta. rewrite Hcl.
  change (@of_Z Exact 2) with (Fin 2).
  rewrite Hmacd, (calculateBollinger_Fin Math_pow pow_2 closes 20 2) by lia.
  rewrite !movingAverage_Fin, calculateRSI_Fin by lia.
  cbn [macd signal upper lower mid].
  apply Forall2_same_length_lookup_2; [by rewrite length_imap|].
  intros i item r Hitem. rewrite list_lookup_imap, Hitem.
  cbn [fmap option_fmap option_map]. intros [= <-].
  assert (i < length closes)%nat as Hi by (rewrite Hlen; by eapply lookup_lt_Some).
  split; [reflexivity|].
  exists (nth i (RmovingAverage closes 5) 0), (nth i (RmovingAverage closes 10) 0),
         (nth i (RmovingAverage closes 20) 0), (rsi_at closes 14 i),
         (nth i m 0), (nth i sg 0),
         (Rbands closes (RmovingAverage closes 20) 20 2 i).1,
         (Rbands closes (RmovingAverage closes 20) 20 2 i).2.
  cbn [ind_item ma5 ma10 ma20 ind_rsi ind_macd macdSignal bollingerUpper
       bollingerLower bollingerMid].
  assert (forall period, (1 <= period)%nat ->
            between lo hi (nth i (RmovingAverage closes period) 0)) as Hwithin.
  { intros period Hp.
    apply nth_between; [by apply RmovingAverage_between | by rewrite Hma]. }
  pose proof (Rbands_order closes (RmovingAverage closes 20) 20 2 i) as Horder.
  destruct Horder as [Hdn Hup]; [lra | |].
  { right. destruct (Hwithin 20%nat ltac:(lia)) as [H1 _]. lra. }
  split_and!.
  - apply lookup_map_Fin; [reflexivity | by rewrite Hma].
  - apply lookup_map_Fin; [reflexivity | by rewrite Hma].
  - apply lookup_map_Fin; [reflexivity | by rewrite Hma].
  - change (map ?f ?x) with (f <$> x). rewrite !list_lookup_fmap, lookup_seq_lt by assumption.
    reflexivity.
  - apply lookup_map_Fin; [reflexivity | lia].
  - apply lookup_map_Some_Fin; [reflexivity | lia].
  - change (map ?f ?x) with (f <$> x). rewrite !list_lookup_fmap, lookup_seq_lt by assumption.
    reflexivity.
  - change (map ?f ?x) with (f <$> x). rewrite !list_lookup_fmap, lookup_seq_lt by assumption.
    reflexivity.
  - apply lookup_map_Fin; [reflexivity | by rewrite Hma].
  - apply Hwithin. lia.
  - apply Hwithin. lia.
  - apply Hwithin. lia.
  - apply rsi_at_range. lia.
  - exact Hdn.
  - exact Hup.
Qed.
End IndicatedExact.

(** * Loading several files *)

Section LoadManyProofs.
Context {N : JsNumber} (host : CsvHost).

Lemma loadCSVFile_entry (this : DataProcessor) (name : string) (content : option string) :
  match (loadCSVFile host this name content).2 with
  | Returned result =>
      load_entry host name content (LoadedFile result) /\
      csvData (loadCSVFile host this name content).1
        = <[toUpperCase (strip_csv name) := map row_candle (loaded_data result)]>
            (csvData this)
  | Thrown error =>
      load_entry host name content (FailedFile (toUpperCase (strip_csv name)) error) /\
      (loadCSVFile host this name content).1 = this
  | Exhausts => False
  end /\
  normalizers (loadCSVFile host this name content).1 = normalizers this.
Proof.
  unfold loadCSVFile. destruct content as [text|]; [|by cbn].
  pose proof (parseYFinanceCSV_ends host text) as Hends.
  destruct (parseYFinanceCSV host text) as [rows|e|] eqn:Hparse; cbn; [| |done].
  - repeat split. by exists text.
  - by repeat split.
Qed.

(** X28.  [loadMultipleCSVFiles] never rejects: it returns one entry per file,
    in order, each telling how that file fared, and a file that fails
    neither stops the files after it nor changes what is loaded.
    Afterwards a symbol holds the candles of the last file named for it
    that parsed, or what it held before when there is none; the
    normalizers are untouched. *)
Theorem loadMultipleCSVFiles_never_rejects (this : DataProcessor)
    (files : list (string * option string)) :
  exists results,
    (loadMultipleCSVFiles host this files).2 = Returned results /\
    Forall2 (fun file entry => load_entry host file.1 file.2 entry) files results /\
    (forall symbol,
       csvData (loadMultipleCSVFiles host this files).1 !! symbol
       = match last_loaded host files symbol with
         | Some rows => Some rows
         | None => csvData this !! symbol
         end) /\
    normalizers (loadMultipleCSVFiles host this files).1 = normalizers this.
Proof.
  revert this. induction files as [|[name content] rest IH]; intros this.
  { exists []. cbn. by repeat split. }
  cbn [loadMultipleCSVFiles last_loaded].
  destruct (loadCSVFile_entry this name content) as [Hentry Hnorm].
  destruct (loadCSVFile host this name content) as [this1 loaded]. cbn [fst snd] in *.
  destruct (IH this1) as (results & Hres & Hall & Hdata & Hnz).
  destruct (loadMultipleCSVFiles host this1 rest) as [this2 rs]. cbn [fst snd] in *.
  subst rs. destruct loaded as [result|error|]; [| |contradiction];
    destruct Hentry as [Hentry Hstate]; cbn [fst snd fmap outcome_fmap].
  - exists (LoadedFile result :: results). split; [reflexivity|].
    split; [by constructor|]. split; [|congruence].
    intros symbol. rewrite Hdata. destruct (last_loaded host rest symbol); [reflexivity|].
    rewrite Hstate. destruct Hentry as (_ & _ & text & -> & Hparse). cbn. rewrite Hparse.
    destruct (decide (toUpperCase (strip_csv name) = symbol)) as [<-|Hne].
    + by rewrite lookup_insert_eq.
    + by rewrite lookup_insert_ne.
  - exists (FailedFile (toUpperCase (strip_csv name)) error :: results).
    split; [reflexivity|]. split; [by constructor|]. split; [|congruence].
    intros symbol. rewrite Hdata. destruct (last_loaded host rest symbol); [reflexivity|].
    subst this1. destruct Hentry as [_ Hfail].
    destruct (decide (toUpperCase (strip_csv name) = symbol)); [|reflexivity].
    destruct content as [text|]; [|reflexivity]. cbn. by rewrite Hfail.
Qed.
End LoadManyProofs.

(** * Concrete runs *)

(** ** Windowing *)

(** C2 at three sources of 200 records, [lookback = 30], [forecast = 5]
    (binary64): 165 samples, [X[i]] of shape [30, 15], [Y[i]] of shape
    [5, 4]. *)
Lemma window_count_and_shapes_witness :
  exists data,
    (prepareTrainingData (N:=Float64) new_DataProcessor (three_sources 200) "SPY" 30 5).2
      = Returned data /\
    length (X data) = 165 /\ length (Y data) = 165 /\
    Forall (fun x => length x = 30 /\ Forall (fun step => length step = 15) x) (X data) /\
    Forall (fun y => length y = 5 /\ Forall (fun row => length row = 4) y) (Y data).
Proof.
  destruct (window_count_and_shapes (N:=Float64) new_DataProcessor (three_sources 200)
              "SPY" 30 5 200) as (data & H & HX & HY & HXs & HYs & _).
  - vm_compute. reflexivity.
  - cbn. left.
  - exists data. repeat split; try assumption; lia.
Defined.

(** C3 does not hold as stated: three sources of 10 records with
    [lookback = 30] and [forecast = 5] raise nothing; the call returns a
    result without samples. *)
Lemma ten_records_return_no_samples :
  exists data,
    (prepareTrainingData (N:=Float64) new_DataProcessor (three_sources 10) "SPY" 30 5).2
      = Returned data /\
    X data = [] /\ Y data = [].
Proof. eexists. split; [vm_compute; reflexivity | split; reflexivity]. Qed.

(** The amended C3 at the same input. *)
Lemma insufficient_data_witness :
  exists data,
    (prepareTrainingData (N:=Float64) new_DataProcessor (three_sources 10) "SPY" 30 5).2
      = Returned data /\
    X data = [] /\ Y data = [].
Proof.
  apply (insufficient_data_returns_no_samples (N:=Float64) new_DataProcessor
           (three_sources 10) "SPY" 30 5 10).
  - vm_compute. reflexivity.
  - lia.
Defined.



(** ** The normalizer map *)

(** C5 does not hold as stated: a second [normalize] under the same key
    replaces the stored parameters by those of its own input, and scales
    by them. *)
Lemma second_normalize_replaces_parameters :
  let first :=
    normalize (N:=Float64) new_DataProcessor (map (DNum (N:=Float64)) [0; 10]%float) None in
  let second := normalize first.1 (map (DNum (N:=Float64)) [0; 20]%float) None in
  normalizers first.1 !! "default"
    = Some (@Build_NormParams Float64 0%float 10%float 10%float) /\
  normalizers second.1 !! "default"
    = Some (@Build_NormParams Float64 0%float 20%float 20%float) /\
  second.2 = [0; 1]%float.
Proof. vm_compute. repeat split; reflexivity. Qed.

(** The amended C5: an entry stored before [prepareTrainingData] is still
    there after it. *)
Lemma windowing_keeps_witness :
  let this :=
    (normalize (N:=Float64) new_DataProcessor (map (DNum (N:=Float64)) [0; 10]%float) None).1 in
  normalizers (prepareTrainingData this (three_sources 4) "SPY" 2 1).1 !! "default"
  = Some (@Build_NormParams Float64 0%float 10%float 10%float).
Proof.
  cbv zeta.
  apply (normalize_overwrites_windowing_keeps (N:=Float64)
           (normalize (N:=Float64) new_DataProcessor
              (map (DNum (N:=Float64)) [0; 10]%float) None).1
           [] None).
  vm_compute. reflexivity.
Defined.

(** The tolerance of C1 is one of exact arithmetic: in binary64 the round
    trip of 506172757.5 between 1 and 4000000000.5, without a key, misses
    it by more than 1e-9. *)
Lemma large_values_round_trip_misses_tolerance :
  let v := [1; 506172757.5; 4000000000.5]%float in
  let run := normalize (N:=Float64) new_DataProcessor (map (DNum (N:=Float64)) v) None in
  let back := denormalize run.1 run.2 None in
  forallb (fun p => leb (N:=Float64) (abs (sub p.1 p.2)) (dec 1 9)) (zip back v) = false.
Proof. vm_compute. reflexivity. Qed.

(** C10 does not hold as stated: a second preparation on the same
    processor, with other records for the same source, scales by the
    parameters of the first and leaves the unit interval. *)
Lemma second_preparation_leaves_unit_interval :
  let first :=
    prepareTrainingData (N:=Float64) new_DataProcessor
      [("A", example_series 1 3)] "A" 1 1 in
  let second :=
    prepareTrainingData first.1 [("A", example_series 10 3)] "A" 1 1 in
  exists data,
    second.2 = Returned data /\
    X data = [[[4.5; 4.5; 4.5; 4.5; 0]]]%float /\
    Y data = [[[5; 5; 5; 5]]]%float /\
    leb (N:=Float64) 4.5%float 1%float = false.
Proof. cbv zeta. eexists. vm_compute. repeat split; reflexivity. Qed.

(** The amended C10 on a new processor. *)
Lemma fresh_windows_witness :
  exists data,
    (prepareTrainingData (N:=Exact) new_DataProcessor
       [("A", example_series 10 3)] "A" 1 1).2 = Returned data /\
    Forall (Forall (Forall in_unit_interval)) (X data) /\
    Forall (Forall (Forall in_unit_interval)) (Y data).
Proof.
  destruct (prepareTrainingData_Returned (N:=Exact) new_DataProcessor
              [("A", example_series 10 3)] "A" 1 1 3) as [data H].
  - reflexivity.
  - cbn. left.
  - exists data. split; [exact H|].
    apply (fresh_windows_in_unit_interval new_DataProcessor
             [("A", example_series 10 3)] "A" 1 1 data).
    + cbn. apply NoDup_singleton.
    + intros entry Hin. apply list_elem_of_singleton in Hin. subst entry.
      cbn. repeat constructor.
    + intros. apply lookup_empty.
    + exact H.
Defined.

(** ** The model *)



(** C7 does not hold as stated: on a trained model whose last epoch
    reported the loss NaN every weight is NaN. *)
Lemma weights_after_NaN_loss :
  trained (trained_with_loss (N:=Exact) NaN) = true /\
  getSourceAttentionWeights XReal.sin (trained_with_loss (N:=Exact) NaN) ["A"; "B"; "C"]
  = [NaN; NaN; NaN].
Proof.
  split; [reflexivity|].
  unfold getSourceAttentionWeights, trained_with_loss, seed_of.
  cbn [trained negb trainingHistory last loss].
  destruct (exact_dec 5 2) as [H5 _].
  assert (forall b : xreal,
            Math_max (N:=Exact) [dec 5 2; add b (mul (XReal.sin NaN) (dec 2 1))] = NaN)
    as Hw.
  { intros b. cbn [XReal.sin]. rewrite exact_mul_nan_l, exact_add_nan_r.
    unfold Math_max. cbn [fold_left]. rewrite H5. change (@ninf Exact) with NInf.
    by rewrite exact_max2_ninf, exact_max2_nan_r. }
  cbn [imap length]. unfold compose.
  rewrite !exact_mul_nan_l, !Hw. reflexivity.
Qed.

(** The amended C7 on a model trained to the loss 1/4. *)
Lemma attention_weights_witness :
  sum (getSourceAttentionWeights XReal.sin
         (trained_with_loss (N:=Exact) (Fin (1 / 4))) ["A"; "B"; "C"]) = Fin 1.
Proof.
  apply (attention_weights_exact (trained_with_loss (N:=Exact) (Fin (1 / 4)))
           ["A"; "B"; "C"]).
  - discriminate.
  - intros _. exact I.
Defined.

(** C9 does not hold as stated: in binary64 the correlation of the batch
    [-1, -1, 2, 0] with itself is 1 + 2^-52, above 1. *)
Lemma identical_batches_exceed_one :
  calculateCorrelation (N:=Float64) [[[-1; -1; 2; 0]]]%float [[[-1; -1; 2; 0]]]%float
    = 0x1.0000000000001p+0%float /\
  ltb (JsNumber:=Float64) 1%float
      (calculateCorrelation (N:=Float64) [[[-1; -1; 2; 0]]]%float
         [[[-1; -1; 2; 0]]]%float)
    = true.
Proof. vm_compute. split; reflexivity. Qed.

(** The amended C9 on actuals of zero variance. *)
Lemma correlation_exact_witness :
  calculateCorrelation (lift [[[1; 2; 3; 5]]]%R) (lift [[[2; 2; 2; 2]]]%R) = Fin 0.
Proof.
  apply (correlation_exact [[[1; 2; 3; 5]]]%R [[[2; 2; 2; 2]]]%R).
  - reflexivity.
  - unfold dot, deviations, mean, Rsum. cbn. lra.
Defined.

(** ** Indicators *)

(** The moving average of a bounded series, over two values. *)
Lemma movingAverage_within_witness :
  exists r,
    movingAverage (N:=Exact) (map Fin [1; 2; 3; 2]%R) 2 = map Fin r /\
    length r = 4 /\
    (forall i, i + 1 < 2 -> r !! i = [1; 2; 3; 2]%R !! i) /\
    (forall i, 2 <= i + 1 -> i < 4 ->
       r !! i = Some (Rmean (Rwindow [1; 2; 3; 2]%R 2 i) 2)) /\
    Forall (between 1 3) r.
Proof.
  apply (movingAverage_within [1; 2; 3; 2]%R 2 1 3).
  - lia.
  - repeat constructor; unfold between; lra.
Defined.

(** RSI with [period = 2] on a series that rises and falls. *)
Lemma rsi_range_witness :
  exists r,
    calculateRSI (N:=Exact) (map Fin [1; 2; 1; 3]%R) 2 = map Fin r /\
    length r = 4 /\
    Forall (between 0 100) r /\
    (forall i, i < 2 -> i < 4 -> r !! i = Some 50%R).
Proof. apply (rsi_range [1; 2; 1; 3]%R 2). lia. Defined.

(** RSI on a series that never falls. *)
Lemma rsi_of_monotone_series_witness :
  calculateRSI (N:=Exact) (map Fin [1; 2; 2; 5]%R) 2 !! 3 = Some (Fin 100).
Proof.
  apply (rsi_of_monotone_series [1; 2; 2; 5]%R 2 3); [lia | lia | cbn; lia |].
  intros j Hj. cbn in Hj.
  destruct j as [|[|[|j]]]; cbn; try lra. lia.
Defined.

(** The exponential average of a series between 2 and 4. *)
Lemma ema_within_witness :
  ema (N:=Exact) [] 3 = [None] /\
  exists r,
    ema (N:=Exact) (map Fin [2; 4; 3]%R) 3 = map Some (map Fin (2%R :: r)) /\
    Forall (between 2 4) (2%R :: r).
Proof.
  destruct (ema_within 2 [4; 3]%R 3 2 4) as [Hempty (r & Hr & Hrest)].
  - lia.
  - repeat constructor; unfold between; lra.
  - split; [exact Hempty|]. exists r. split; [exact Hr|]. apply Hrest.
Defined.

(** The Bollinger bands of width 2 from index [period - 1] on. *)
Lemma bollinger_bands_enclose_witness :
  exists up lo md,
    calculateBollinger square_pow (map Fin [1; 3; 5]%R) 2 (Fin 2)
      = {| upper := map Fin up; lower := map Fin lo; mid := map Fin md |} /\
    forall i u w m, up !! i = Some u -> lo !! i = Some w -> md !! i = Some m ->
      2 <= i + 1 -> (w <= m <= u)%R.
Proof.
  destruct (bollinger_bands_enclose square_pow (fun x => eq_refl) [1; 3; 5]%R 2 2)
    as (up & lo & md & Hb & _ & _ & _ & _ & Hall).
  - lia.
  - lra.
  - exists up, lo, md. split; [exact Hb|].
    intros i u w m Hu Hw Hm Hi. apply (Hall i u w m Hu Hw Hm). exact Hi.
Defined.

(** The indicators of three candles with closes 11, 12 and 13. *)
Lemma indicators_of_finite_closes_witness :
  Forall2 (indicated_within 11 13) (example_series 10 3)
    (calculateIndicators square_pow (example_series (N:=Exact) 10 3)).
Proof.
  apply (indicators_of_finite_closes square_pow (fun x => eq_refl)
           (example_series 10 3) [11; 12; 13]%R 11 13).
  - cbn. repeat f_equal; apply f_equal; lra.
  - repeat constructor; unfold between; lra.
  - lra.
Defined.

(** ** Mock data *)

(** The correlation of a VIX series with three candles of SPY. *)
Lemma addCorrelation_scales_witness :
  (forall i item,
     example_series (N:=Exact) 18 3 !! i = Some item -> i < length (example_series (N:=Exact) 400 3) ->
     addCorrelation (example_series (N:=Exact) 18 3) (example_series 400 3) "VIX" !! i
       = Some (scale_prices (Fin (Rfactor "VIX" [401; 402; 403]%R i)) item)) /\
  (Rcorrelation "VIX" = 0%R ->
   addCorrelation (example_series (N:=Exact) 18 3) (example_series 400 3) "VIX"
     = example_series 18 3).
Proof.
  apply (addCorrelation_scales (example_series 18 3) (example_series 400 3)
           [401; 402; 403]%R "VIX").
  - unfold inherited_names. intros H.
    repeat (apply elem_of_cons in H as [H|H]; [discriminate|]). inversion H.
  - cbn. repeat f_equal; apply f_equal; lra.
  - repeat constructor; lra.
Defined.

(** Three days of mock data from the base price 450. *)
Lemma mock_candles_are_well_formed_witness :
  exists data,
    generateMockData (N:=Exact) quarter_random (fun x => x) (fun _ => true) 0 3
      {| basePrice := Some (Fin 450); volatility := None; drift := None |}
      = (12, Some data) /\
    length data = 3 /\
    Forall well_formed_candle data /\
    (forall i c c', data !! i = Some c -> data !! S i = Some c' -> open c' = close c).
Proof.
  apply (mock_candles_are_well_formed quarter_random (fun x => x)).
  - intros k. exists (1 / 4)%R. split; [reflexivity | lra].
  - exact I.
  - exact I.
  - exact I.
  - reflexivity.
Defined.

(** ** Windows and labels *)

(** The windows over three sources of six records. *)
Lemma windows_slide_witness :
  exists data,
    (prepareTrainingData (N:=Float64) new_DataProcessor (three_sources 6) "SPY" 2 2).2
      = Returned data /\
    (forall i a b t, X data !! i = Some a -> X data !! S i = Some b ->
       S t < 2 -> b !! t = a !! S t) /\
    (forall i a b t, Y data !! i = Some a -> Y data !! S i = Some b ->
       S t < 2 -> b !! t = a !! S t) /\
    (head (Obj.keys (three_sources (N:=Float64) 6)) = Some "SPY" ->
     forall i t j u y row x step,
       Y data !! i = Some y -> y !! t = Some row ->
       X data !! j = Some x -> x !! u = Some step ->
       j + u = i + 2 + t -> row = take 4 step).
Proof.
  destruct (prepareTrainingData_Returned (N:=Float64) new_DataProcessor
              (three_sources 6) "SPY" 2 2 6) as [data H].
  - reflexivity.
  - cbn. left.
  - exists data. split; [exact H|].
    apply (windows_slide new_DataProcessor (three_sources 6) "SPY" 2 2 data). exact H.
Defined.

(** The normalizer entries after a preparation that throws (the target is
    not among the sources). *)
Lemma preparation_stores_every_dimension_witness :
  (prepareTrainingData (N:=Float64) new_DataProcessor (three_sources 3) "QQQ" 1 1).2
    = Thrown TypeError /\
  (forall symbol d, symbol ∈ Obj.keys (three_sources (N:=Float64) 3) -> d < 5 ->
     is_Some (normalizers (prepareTrainingData (N:=Float64) new_DataProcessor
                             (three_sources 3) "QQQ" 1 1).1
                !! dim_key symbol d)) /\
  (forall data,
     (prepareTrainingData (N:=Float64) new_DataProcessor (three_sources 3) "QQQ" 1 1).2
       = Returned data ->
     td_normalizers data
       = normalizers (prepareTrainingData (N:=Float64) new_DataProcessor
                        (three_sources 3) "QQQ" 1 1).1).
Proof.
  split; [vm_compute; reflexivity|].
  apply (preparation_stores_every_dimension (N:=Float64) new_DataProcessor
           (three_sources 3) "QQQ" 1 1 3).
  - reflexivity.
  - lia.
Defined.

(** The labels over one source of four records decode to its prices. *)
Lemma labels_decode_to_prices_witness :
  exists data,
    (prepareTrainingData (N:=Exact) new_DataProcessor
       [("A", example_series 10 4)] "A" 1 2).2 = Returned data /\
    forall i y, Y data !! i = Some y ->
      denormalizePrediction
        (prepareTrainingData (N:=Exact) new_DataProcessor
           [("A", example_series 10 4)] "A" 1 2).1 y "A"
      = map ohlc_of (take 2 (drop (i + 1) (example_series 10 4))).
Proof.
  destruct (prepareTrainingData_Returned (N:=Exact) new_DataProcessor
              [("A", example_series 10 4)] "A" 1 2 4) as [data H].
  - reflexivity.
  - cbn. left.
  - exists data. split; [exact H|].
    apply (labels_decode_to_prices new_DataProcessor [("A", example_series 10 4)]
             "A" 1 2 data (example_series 10 4)).
    + cbn. apply NoDup_singleton.
    + reflexivity.
    + cbn. repeat constructor.
    + intros. apply lookup_empty.
    + exact H.
Defined.

(** A preparation from CSV data in which one related symbol has no data. *)
Lemma csv_preparation_returns_witness :
  let this :=
    {| normalizers := ∅;
       csvData := <["SPY" := example_series (N:=Float64) 400 6]>
                    (<["TLT" := example_series 90 8]> ∅) |} in
  exists data,
    (prepareTrainingDataFromCSV this "spy" ["VIX"; "tlt"] 2 1).2 = Returned data /\
    head (sources data) = Some "spy" /\
    NoDup (sources data) /\
    (forall s, s ∈ sources data <->
       s = "spy" \/ (s ∈ ["VIX"; "tlt"] /\ is_Some (csvData this !! toUpperCase s))) /\
    length (Y data) = length (X data) /\
    length (X data) <= length (example_series (N:=Float64) 400 6) - 2 - 1.
Proof.
  cbv zeta.
  apply (csv_preparation_returns (N:=Float64)
           {| normalizers := ∅;
              csvData := <["SPY" := example_series (N:=Float64) 400 6]>
                           (<["TLT" := example_series 90 8]> ∅) |}
           "spy" ["VIX"; "tlt"] 2 1 (example_series 400 6)).
  - repeat constructor; discriminate.
  - vm_compute. reflexivity.
Defined.

(** ** The model's reports *)

(** Two pairs of names get the same weights. *)
Lemma attention_weights_ignore_names_witness :
  getSourceAttentionWeights (N:=Float64) (fun x => x)
    (trained_with_loss (N:=Float64) 0.25%float) ["SPY"; "VIX"]
  = getSourceAttentionWeights (fun x => x) (trained_with_loss (N:=Float64) 0.25%float) ["TLT"; "GLD"].
Proof.
  apply (attention_weights_ignore_names (N:=Float64) (fun x => x)
           (trained_with_loss (N:=Float64) 0.25%float) ["SPY"; "VIX"] ["TLT"; "GLD"]).
  reflexivity.
Defined.

(** The floor of the weights on a model trained to the loss 1/4. *)
Lemma attention_weights_floor_witness :
  Forall (fun w => exists r, w = Fin r /\ (1 / (20 + 4 * INR 3) <= r)%R)
    (getSourceAttentionWeights XReal.sin
       (trained_with_loss (N:=Exact) (Fin (1 / 4))) ["A"; "B"; "C"]).
Proof.
  apply (attention_weights_floor (trained_with_loss (N:=Exact) (Fin (1 / 4)))
           ["A"; "B"; "C"]).
  - discriminate.
  - intros _. exact I.
Defined.

(** The correlation of two batches of four values. *)
Lemma correlation_symmetric_and_scale_free_witness :
  calculateCorrelation (lift [[[2; 2; 1; 4]]]%R) (lift [[[1; 2; 3; 5]]]%R)
    = calculateCorrelation (lift [[[1; 2; 3; 5]]]%R) (lift [[[2; 2; 1; 4]]]%R) /\
  ((0 < 3)%R ->
   calculateCorrelation (lift (rescale 3 1 [[[1; 2; 3; 5]]]%R)) (lift [[[2; 2; 1; 4]]]%R)
     = calculateCorrelation (lift [[[1; 2; 3; 5]]]%R) (lift [[[2; 2; 1; 4]]]%R)) /\
  ((3 < 0)%R ->
   exists r,
     calculateCorrelation (lift [[[1; 2; 3; 5]]]%R) (lift [[[2; 2; 1; 4]]]%R) = Fin r /\
     calculateCorrelation (lift (rescale 3 1 [[[1; 2; 3; 5]]]%R)) (lift [[[2; 2; 1; 4]]]%R)
       = Fin (- r)).
Proof.
  apply (correlation_symmetric_and_scale_free [[[1; 2; 3; 5]]]%R [[[2; 2; 1; 4]]]%R 3 1).
  reflexivity.
Defined.

(** The direction accuracy of two batches of two rows. *)
Lemma direction_accuracy_symmetric_witness :
  calculateDirectionAccuracy (N:=Float64) [[[1; 2; 3; 5]; [2; 2; 2; 1]]]%float
    [[[1; 0; 0; 2]; [1; 0; 0; 3]]]%float
  = calculateDirectionAccuracy (N:=Float64) [[[1; 0; 0; 2]; [1; 0; 0; 3]]]%float
      [[[1; 2; 3; 5]; [2; 2; 2; 1]]]%float.
Proof.
  apply (direction_accuracy_symmetric (N:=Float64)
           [[[1; 2; 3; 5]; [2; 2; 2; 1]]]%float [[[1; 0; 0; 2]; [1; 0; 0; 3]]]%float).
  reflexivity.
Defined.

(** ** CSV *)

(** A header line. *)
Lemma parseCSVLine_without_quotes_witness :
  parseCSVLine "date, open ,close" = map trim (split comma "date, open ,close").
Proof. apply (parseCSVLine_without_quotes "date, open ,close"). reflexivity. Defined.

(** The example file in binary64: the row whose open is no number is left
    out, the open of 0 is raised to 0.01, the missing volume is 0, and the
    dates are rewritten. *)
Lemma example_csv_rows :
  exists rows,
    parseYFinanceCSV (N:=Float64) example_host example_csv = Returned rows /\
    map date rows = ["2024-01-02"; "2024-01-04"] /\
    map (fun row => open (row_candle row)) rows = [of_Z 10; dec 1 2] /\
    map (fun row => volume (row_candle row)) rows = [of_Z 500; of_Z 0].
Proof. eexists. vm_compute. repeat split; reflexivity. Qed.

(** The example file is parsed whenever whole numbers are not NaN. *)
Lemma example_csv_parses {N : JsNumber} :
  (forall z, isnan (of_Z z) = false) ->
  exists rows, parseYFinanceCSV example_host example_csv = Returned rows.
Proof.
  intros H. lazy -[isnan of_Z nan Math_max dec or_zero eqb num]. rewrite !H.
  eexists. reflexivity.
Qed.

(** The rows of the example file in exact arithmetic. *)
Lemma parsed_rows_are_valid_witness :
  exists rows,
    parseYFinanceCSV (N:=Exact) example_host example_csv = Returned rows /\
    rows <> [] /\
    length rows <= length (csv_lines example_csv) - 1 /\
    Forall (fun row => parsed_candle (row_candle row) /\
                       timestamp row = Date_getTime example_host (date row)) rows.
Proof.
  destruct (example_csv_parses (N:=Exact) (fun z => exact_isnan (IZR z))) as [rows H].
  exists rows. split; [exact H|].
  apply (parsed_rows_are_valid example_host example_csv rows).
  - reflexivity.
  - exact H.
Defined.
